(** * SingSync lyrics resolution: a shallow embedding of [server/src/services/lyrics.ts]

    The development follows the service file top to bottom: text
    normalisation, script classification, fingerprinting and scoring, the
    format parsers, the cache document, the catalog source, the alignment
    heuristic and the [getLyrics] orchestrator with its route handler.
    Then come the subtitle track selection of the same file and three
    pieces around the service: the active line of the client
    ([web/app/page.tsx]), the metadata file the prepare route writes
    ([server/src/routes/prepare.ts]) and the list of recent songs
    ([server/src/index.ts]).

    Modelling conventions.
    - A JavaScript string is the list of its UTF-16 code units ([jsstring]).
    - A number is the rational value of a double; [None] stands for NaN
      and a value outside the binary64 range for an infinity
      ([isFiniteQ]); the sign of zero is not kept.  Reading a number from
      text and the arithmetic on times round as binary64 does ([round64],
      [fadd], [fsub], [fmul], [fdiv], built on the Standard Library's
      [SpecFloat]), so that a gap is compared with a threshold as the code
      compares it.
    - Where the source sends character, line or segment counts through
      binary64 and takes an integer of the result ([Math.floor(n * 0.6)],
      [Math.round(ratio * (count - 1))]), the expression is evaluated in
      binary64 ([B64]) as well.
    - What [JSON.parse] returns is a [json] value, whatever it holds: the
      metadata file, the cache document, the output of the transcription
      and the replies of the catalog are read with the conversions the
      code applies ([Number], [String], [typeof], truthiness).
    - [Array.prototype.sort] is the stable sort the language standard
      prescribes ([sortBy]).
    - The outside world (cache directories, downloader, transcriber,
      catalog) is a record of what each collaborator answers ([World]),
      and a call either returns or throws ([Outcome]).  A video has the
      directory of its id.  Of the files of a directory the record keeps
      the three that outlive a call and are read again: the metadata
      file, the cache document and the audio file; the subtitle files and
      the output of the transcriber are made anew by every run that reads
      them, and are part of what the downloader and the transcriber
      answer.
    - What the code leaves unguarded throws in the model as well: the
      creation of the cache directory, [encodeURIComponent], the scoring
      of a catalog reply and the reading of the selected candidate.
      Listing a directory that has just been ensured and writing the
      cache document into it are taken to succeed. *)

From Stdlib Require Import List NArith ZArith QArith Qabs Bool Lia Lqa Qround String Ascii DecimalString.
From Stdlib Require Import SpecFloat.
From Stdlib Require Import Sorting.Sorted Sorting.Permutation.
Import ListNotations.

Set Implicit Arguments.

(** ** JavaScript strings *)

Module Js.

Local Open Scope N_scope.

Definition jsstring := list N.

(** An ASCII literal as a string of code units. *)
Definition lit (s : string) : jsstring :=
List.map N_of_ascii (list_ascii_of_string s).

Fixpoint eqb (a b : jsstring) : bool :=
match a, b with
| [], [] => true
| x :: a', y :: b' => N.eqb x y && eqb a' b'
| _, _ => false
end.

(** Truthiness of a string: non-empty. *)
Definition truthy (s : jsstring) : bool :=
match s with [] => false | _ :: _ => true end.

(** [a || b] on strings. *)
Definition orElse (a b : jsstring) : jsstring :=
if truthy a then a else b.

(** The white space of [\s] and of [String.prototype.trim]. *)
Definition isSpace (c : N) : bool :=
((9 <=? c) && (c <=? 13)) || (c =? 32) || (c =? 160) || (c =? 5760)
|| ((8192 <=? c) && (c <=? 8202)) || (c =? 8232) || (c =? 8233)
|| (c =? 8239) || (c =? 8287) || (c =? 12288) || (c =? 65279).

Fixpoint dropWhile (p : N -> bool) (s : jsstring) : jsstring :=
match s with
| [] => []
| c :: s' => if p c then dropWhile p s' else s
end.

Definition trimStart (s : jsstring) : jsstring := dropWhile isSpace s.
Definition trimEnd (s : jsstring) : jsstring := rev (dropWhile isSpace (rev s)).
Definition trim (s : jsstring) : jsstring := trimEnd (trimStart s).

Fixpoint startsWith (p s : jsstring) : bool :=
match p, s with
| [], _ => true
| x :: p', y :: s' => N.eqb x y && startsWith p' s'
| _ :: _, [] => false
end.

Fixpoint includes (p s : jsstring) : bool :=
startsWith p s ||
match s with
| [] => false
| _ :: s' => includes p s'
end.

(** [parts.join(sep)]. *)
Fixpoint join (sep : jsstring) (parts : list jsstring) : jsstring :=
match parts with
| [] => []
| [p] => p
| p :: rest => p ++ sep ++ join sep rest
end.

(** [s.split(c)] for a one-character separator. *)
Fixpoint splitChar_go (c : N) (cur : jsstring) (s : jsstring) : list jsstring :=
match s with
| [] => [rev cur]
| x :: s' =>
  if N.eqb x c then rev cur :: splitChar_go c [] s'
  else splitChar_go c (x :: cur) s'
end.

Definition splitChar (c : N) (s : jsstring) : list jsstring := splitChar_go c [] s.

(** [s.split(/\r?\n/)]. *)
Fixpoint splitLines_go (cur : jsstring) (s : jsstring) : list jsstring :=
match s with
| [] => [rev cur]
| x :: s' =>
  if N.eqb x 10 then rev cur :: splitLines_go [] s'
  else if N.eqb x 13 then
    match s' with
    | y :: s'' =>
      if N.eqb y 10 then rev cur :: splitLines_go [] s''
      else splitLines_go (x :: cur) s'
    | [] => splitLines_go (x :: cur) s'
    end
  else splitLines_go (x :: cur) s'
end.

Definition splitLines (s : jsstring) : list jsstring := splitLines_go [] s.

(** The text before the first occurrence of [sep], and the text after it:
    [s.split(sep)[0]] and [s.split(sep).slice(1).join(sep)]. *)
Fixpoint breakOn_go (sep : jsstring) (cur : jsstring) (s : jsstring)
  : jsstring * option jsstring :=
match s with
| [] => (rev cur, None)
| x :: s' =>
  if startsWith sep s then (rev cur, Some (skipn (List.length sep) s))
  else breakOn_go sep (x :: cur) s'
end.

Definition breakOn (sep s : jsstring) : jsstring * option jsstring :=
breakOn_go sep [] s.

(** *** Global regular-expression replacement

    A matcher is given the code unit before the current position and the rest
    of the input, and answers the length of the match that starts there.
    [gsub m rep s] is [s.replace(/.../g, rep)] for a pattern that never
    matches the empty string: matches are taken leftmost, without overlap. *)
Definition matcher := option N -> jsstring -> option nat.

Fixpoint gsub_go (m : matcher) (rep : jsstring) (prev : option N) (skip : nat)
  (s : jsstring) : jsstring :=
match s with
| [] => []
| c :: s' =>
  match skip with
  | S k => gsub_go m rep (Some c) k s'
  | O =>
    match m prev s with
    | Some (S k) => rep ++ gsub_go m rep (Some c) k s'
    | _ => c :: gsub_go m rep (Some c) O s'
    end
  end
end.

Definition gsub (m : matcher) (rep s : jsstring) : jsstring :=
gsub_go m rep None O s.

(** Index of the first code unit satisfying [p]. *)
Fixpoint indexWhere (p : N -> bool) (s : jsstring) : option nat :=
match s with
| [] => None
| c :: s' => if p c then Some O else option_map S (indexWhere p s')
end.

Fixpoint spanLen (p : N -> bool) (s : jsstring) : nat :=
match s with
| [] => O
| c :: s' => if p c then S (spanLen p s') else O
end.

(** A literal pattern. *)
Definition mLit (pat : jsstring) : matcher :=
fun _ s => if startsWith pat s then Some (List.length pat) else None.

(** [open [^close]{least,} close]: from [open] to the first [close] after it. *)
Definition mDelimited (open close : N) (least : nat) : matcher :=
fun _ s =>
match s with
| c :: r =>
  if N.eqb c open then
    match indexWhere (N.eqb close) r with
    | Some i => if Nat.leb least i then Some (i + 2)%nat else None
    | None => None
    end
  else None
| [] => None
end.

(** [p{least,}]: a maximal run of code units in the class [p]. *)
Definition mRun (p : N -> bool) (least : nat) : matcher :=
fun _ s =>
let n := spanLen p s in
if Nat.leb least n && Nat.ltb O n then Some n else None.

(** ASCII case folding, the only folding [/i] performs against ASCII
    pattern characters when the [u] flag is absent. *)
Definition asciiLower (c : N) : N :=
if (65 <=? c) && (c <=? 90) then c + 32 else c.

Fixpoint startsWithCI (p s : jsstring) : bool :=
match p, s with
| [], _ => true
| x :: p', y :: s' => N.eqb (asciiLower x) (asciiLower y) && startsWithCI p' s'
| _ :: _, [] => false
end.

(** The class [\w]. *)
Definition isWordChar (c : N) : bool :=
((48 <=? c) && (c <=? 57)) || ((65 <=? c) && (c <=? 90))
|| ((97 <=? c) && (c <=? 122)) || (c =? 95).

Definition wordBefore (prev : option N) : bool :=
match prev with Some c => isWordChar c | None => false end.

Definition wordAt (s : jsstring) : bool :=
match s with c :: _ => isWordChar c | [] => false end.

(** [\b(w1|w2|...)\b] with the [i] flag, every alternative beginning and
    ending with a word character: alternatives are tried in order, and one
    is taken when the input continues with a non-word character. *)
Fixpoint firstWord (words : list jsstring) (s : jsstring) : option nat :=
match words with
| [] => None
| w :: rest =>
  if startsWithCI w s && negb (wordAt (skipn (List.length w) s))
  then Some (List.length w)
  else firstWord rest s
end.

Definition mWords (words : list jsstring) : matcher :=
fun prev s => if wordBefore prev then None else firstWord words s.

End Js.

Export Js.

(** ** JavaScript numbers *)

Module Num.

Local Open Scope Q_scope.

Definition Qltb (a b : Q) : bool := negb (Qle_bool b a).

(** A JavaScript number by its value; [None] is NaN. *)
Definition number := option Q.

(** Magnitudes from [2^1024 - 2^970] on round to an infinity in binary64. *)
Definition dblLimit : Q := inject_Z (2 ^ 1024 - 2 ^ 970).
Definition infinity : Q := inject_Z (2 ^ 1024).

Definition isFiniteQ (q : Q) : bool := Qltb (Qabs q) dblLimit.

(** [Number.isFinite(x)]. *)
Definition isFinite (x : number) : bool :=
match x with Some q => isFiniteQ q | None => false end.

(** *** Binary64 *)

Module B64.

Definition prec : Z := 53.
Definition emax : Z := 1024.

(** The double of a natural number (exact below [2^53]). *)
Definition ofNat (n : nat) : spec_float :=
binary_normalize prec emax (Z.of_nat n) 0 false.

Definition mul (x y : spec_float) : spec_float := SFmul prec emax x y.
Definition div (x y : spec_float) : spec_float := SFdiv prec emax x y.

(** The double that the literal [0.6] denotes. *)
Definition sixTenths : spec_float := div (ofNat 6) (ofNat 10).

(** The integer [m] with the sign [s]. *)
Definition signed (s : bool) (m : positive) : Z := if s then Zneg m else Zpos m.

(** [Math.floor(x)] for a finite [x]. *)
Definition floor (x : spec_float) : Z :=
match x with
| S754_finite s m e =>
  if (0 <=? e)%Z then (signed s m * 2 ^ e)%Z else (signed s m / 2 ^ (- e))%Z
| _ => 0%Z
end.

(** [Math.round(x)] for a finite [x]: the nearest integer, a half going up. *)
Definition round (x : spec_float) : Z :=
match x with
| S754_finite s m e =>
  if (0 <=? e)%Z then (signed s m * 2 ^ e)%Z
  else ((2 * signed s m + 2 ^ (- e)) / 2 ^ (1 - e))%Z
| _ => 0%Z
end.

(** The double nearest to a rational, ties going to the even mantissa: the
    correctly rounded quotient of its numerator and its denominator.  A
    rational beyond the range becomes an infinity. *)
Definition ofQ (q : Q) : spec_float :=
match Qnum q with
| Z0 => S754_zero false
| Zpos n => SFdiv prec emax (S754_finite false n 0) (S754_finite false (Qden q) 0)
| Zneg n => SFdiv prec emax (S754_finite true n 0) (S754_finite false (Qden q) 0)
end.

(** The value [m * 2^e] of a finite double, in lowest terms. *)
Definition finiteValue (s : bool) (m : positive) (e : Z) : Q :=
if (0 <=? e)%Z then inject_Z (signed s m * 2 ^ e)
else Qred (signed s m # Z.to_pos (2 ^ (- e))).

(** The number a double stands for: an infinity is [2^1024] with its
    sign, and a zero is 0 whatever its sign. *)
Definition toQ (x : spec_float) : number :=
match x with
| S754_zero _ => Some 0
| S754_infinity s => Some (if s then - infinity else infinity)
| S754_nan => None
| S754_finite s m e => Some (finiteValue s m e)
end.

End B64.

(** The Number value for a rational: the double nearest to it. *)
Definition round64 (q : Q) : number := B64.toQ (B64.ofQ q).

(** An arithmetic operator of the language on two numbers. *)
Definition arith (op : spec_float -> spec_float -> spec_float) (x y : number) : number :=
match x, y with
| Some a, Some b => B64.toQ (op (B64.ofQ a) (B64.ofQ b))
| _, _ => None
end.

(** [x + y], [x - y], [x * y] and [x / y]. *)
Definition fadd : number -> number -> number := arith (SFadd B64.prec B64.emax).
Definition fsub : number -> number -> number := arith (SFsub B64.prec B64.emax).
Definition fmul : number -> number -> number := arith (SFmul B64.prec B64.emax).
Definition fdiv : number -> number -> number := arith (SFdiv B64.prec B64.emax).

(** [Math.abs(x)]. *)
Definition fabs (x : number) : number := option_map Qabs x.

(** [x > y]: false when one of the two is NaN. *)
Definition gt (x y : number) : bool :=
match x, y with
| Some a, Some b => Qltb b a
| _, _ => false
end.

Definition isDigit (c : N) : bool := ((48 <=? c) && (c <=? 57))%N.

Definition digitsValue (radix : Z) (digit : N -> Z) (ds : jsstring) : Z :=
fold_left (fun acc c => (acc * radix + digit c)%Z) ds 0%Z.

Definition decDigit (c : N) : Z := Z.of_N (c - 48).

Definition isHexDigit (c : N) : bool :=
(isDigit c || ((65 <=? c) && (c <=? 70)) || ((97 <=? c) && (c <=? 102)))%N.

Definition hexDigit (c : N) : Z :=
if isDigit c then Z.of_N (c - 48)
else if (c <=? 70)%N then Z.of_N (c - 55) else Z.of_N (c - 87).

(** [ExponentPart], or nothing, up to the end of the input. *)
Definition expPart (s : jsstring) : option Z :=
match s with
| [] => Some 0%Z
| e :: r =>
  if ((e =? 101) || (e =? 69))%N then
    let '(neg, ds) :=
      match r with
      | c :: r' =>
        if (c =? 45)%N then (true, r')
        else if (c =? 43)%N then (false, r') else (false, r)
      | [] => (false, r)
      end in
    if truthy ds && forallb isDigit ds
    then Some (if neg then - digitsValue 10 decDigit ds else digitsValue 10 decDigit ds)%Z
    else None
  else None
end.

(** The mathematical value of a [StrUnsignedDecimalLiteral]; [None] when
    the text is none. *)
Definition unsignedDecimal (s : jsstring) : option Q :=
if Js.eqb s (lit "Infinity") then Some infinity
else
  let n := spanLen isDigit s in
  let ip := firstn n s in
  let r1 := skipn n s in
  let '(fp, r2) :=
    match r1 with
    | c :: r =>
      if (c =? 46)%N
      then (firstn (spanLen isDigit r) r, skipn (spanLen isDigit r) r)
      else ([], r1)
    | [] => ([], [])
    end in
  if negb (truthy ip) && negb (truthy fp) then None
  else
    match expPart r2 with
    | None => None
    | Some e =>
      Some ((inject_Z (digitsValue 10 decDigit ip)
             + inject_Z (digitsValue 10 decDigit fp)
               / inject_Z (10 ^ Z.of_nat (List.length fp)))
            * Qpower 10 e)
    end.

(** The mathematical value of a [NonDecimalIntegerLiteral]: [0x], [0o]
    and [0b] prefixes. *)
Definition nonDecimal (s : jsstring) : option Q :=
match s with
| z :: p :: ds =>
  if (z =? 48)%N && truthy ds then
    if ((p =? 120) || (p =? 88))%N && forallb isHexDigit ds
    then Some (inject_Z (digitsValue 16 hexDigit ds))
    else if ((p =? 111) || (p =? 79))%N && forallb (fun c => (48 <=? c) && (c <=? 55))%N ds
    then Some (inject_Z (digitsValue 8 decDigit ds))
    else if ((p =? 98) || (p =? 66))%N && forallb (fun c => (48 <=? c) && (c <=? 49))%N ds
    then Some (inject_Z (digitsValue 2 decDigit ds))
    else None
  else None
| _ => None
end.

(** [StringNumericValue]: the mathematical value of the text as a numeric
    literal, 0 for a blank text, and [None] for a text that is no numeric
    literal. *)
Definition stringNumericValue (s : jsstring) : option Q :=
match trim s with
| [] => Some 0
| c :: r =>
  match nonDecimal (c :: r) with
  | Some v => Some v
  | None =>
    if (c =? 45)%N then option_map Qopp (unsignedDecimal r)
    else if (c =? 43)%N then unsignedDecimal r
    else unsignedDecimal (c :: r)
  end
end.

(** [Number(s)] for a string [s]: the double nearest to the value of the
    text, and NaN for a text that is no numeric literal. *)
Definition strToNumber (s : jsstring) : number :=
match stringNumericValue s with
| Some v => round64 v
| None => None
end.

End Num.

Export Num.

(** ** JSON documents *)

(** What [JSON.parse] returns.  A number is held by its value, that of a
    double; an object by its fields in the order of the text. *)
#[warnings="-register-all"]
Inductive json : Type :=
| JNull
| JBool (b : bool)
| JNum (q : Q)
| JStr (s : jsstring)
| JArr (items : list json)
| JObj (fields : list (jsstring * json)).

Module Json.

(** Truthiness of a parsed value. *)
Definition truthyJ (j : json) : bool :=
match j with
| JNull => false
| JBool b => b
| JNum q => negb (Qeq_bool q 0)
| JStr s => truthy s
| JArr _ | JObj _ => true
end.

Fixpoint assoc (k : jsstring) (fields : list (jsstring * json)) : option json :=
match fields with
| [] => None
| (k', v) :: rest => if Js.eqb k k' then Some v else assoc k rest
end.

(** [j.k] for one of the field names the service reads; [None] is
    [undefined].  Only objects carry such fields. *)
Definition prop (k : string) (j : json) : option json :=
match j with
| JObj fields => assoc (lit k) fields
| _ => None
end.

(** [typeof v === "string" ? v : d]. *)
Definition stringOr {A : Type} (v : option json) (f : jsstring -> A) (d : A) : A :=
match v with Some (JStr s) => f s | _ => d end.

(** [v === "text"]. *)
Definition isStr (v : option json) (text : string) : bool :=
match v with Some (JStr s) => Js.eqb s (lit text) | _ => false end.

(** [Array.isArray(v) ? v : none]. *)
Definition arrayOf (v : option json) : option (list json) :=
match v with Some (JArr items) => Some items | _ => None end.

(** [Number(v)] for a parsed value: an array is converted through its
    string form, the comma-joined string forms of its items. *)
Fixpoint toNumber (j : json) : number :=
match j with
| JNull => Some 0
| JBool b => Some (if b then 1 else 0)
| JNum q => Some q
| JStr s => strToNumber s
| JArr [] => Some 0
| JArr [x] =>
  match x with
  | JNull => Some 0
  | JNum q => Some q
  | JStr s => strToNumber s
  | JArr _ => toNumber x
  | JBool _ | JObj _ => None
  end
| JArr (_ :: _ :: _) => None
| JObj _ => None
end.

(** [Number(v)] where [v] may be [undefined]. *)
Definition toNumberU (v : option json) : number :=
match v with Some j => toNumber j | None => None end.

End Json.

Export Json.

(** ** Text normaliser *)

Definition decodeHtmlEntities (input : jsstring) : jsstring :=
gsub (mLit (lit "&nbsp;")) (lit " ")
(gsub (mLit (lit "&#39;")) (lit "'")
(gsub (mLit (lit "&quot;")) [34%N]
(gsub (mLit (lit "&gt;")) (lit ">")
(gsub (mLit (lit "&lt;")) (lit "<")
(gsub (mLit (lit "&amp;")) (lit "&") input))))).

Definition cleanCaptionText (input : jsstring) : jsstring :=
trim
(gsub (mRun isSpace 1) (lit " ")
(gsub (mDelimited 60 62 0) (lit " ")
(decodeHtmlEntities input))).

Definition normalizePlainLyrics (input : jsstring) : jsstring :=
trim
(gsub (mRun (N.eqb 10) 3) [10%N; 10%N]
(gsub (mLit [13%N]) [] input)).

(** [/^\[[^\]]+\]$/.test(line)]. *)
Definition isBracketLine (line : jsstring) : bool :=
match mDelimited 91 93 1 None line with
| Some n => Nat.eqb n (List.length line)
| None => false
end.

Definition splitPlainLyrics (input : jsstring) : list jsstring :=
filter (fun line => truthy line && negb (isBracketLine line))
(List.map cleanCaptionText (splitChar 10 (normalizePlainLyrics input))).

(** ** Script classifier *)

Inductive ScriptType : Type :=
| latin | korean | japanese | cyrillic | mixed | unknown.

Record ScriptCounts : Type := mkCounts {
  c_latin : nat;
  c_hangul : nat;
  c_hiragana : nat;
  c_katakana : nat;
  c_han : nat;
  c_cyrillic : nat
}.

Definition inRange (lo hi c : N) : bool := ((lo <=? c) && (c <=? hi))%N.

Definition isLatin (c : N) : bool := inRange 65 90 c || inRange 97 122 c.
Definition isHangul (c : N) : bool := inRange 44032 55215 c.
Definition isHiragana (c : N) : bool := inRange 12352 12447 c.
Definition isKatakana (c : N) : bool := inRange 12448 12543 c.
Definition isHan (c : N) : bool := inRange 13312 19903 c || inRange 19968 40959 c.
Definition isCyrillic (c : N) : bool := inRange 1024 1279 c.

Definition bump (b : bool) (n : nat) : nat := if b then S n else n.

(** One iteration of the counting loop.  The source iterates by code point;
    no surrogate code unit lies in any of the six ranges, so a character
    outside the basic plane adds to no counter, as here. *)
Definition countChar (c : ScriptCounts) (ch : N) : ScriptCounts :=
mkCounts
  (bump (isLatin ch) (c_latin c))
  (bump (isHangul ch) (c_hangul c))
  (bump (isHiragana ch) (c_hiragana c))
  (bump (isKatakana ch) (c_katakana c))
  (bump (isHan ch) (c_han c))
  (bump (isCyrillic ch) (c_cyrillic c)).

Definition scriptCharCounts (input : jsstring) : ScriptCounts :=
fold_left countChar input (mkCounts 0 0 0 0 0 0).

Definition c_japanese (c : ScriptCounts) : nat :=
(c_hiragana c + c_katakana c + c_han c)%nat.

Definition detectScript (text : jsstring) : ScriptType :=
let c := scriptCharCounts text in
let jp := c_japanese c in
let top := Nat.max (Nat.max (Nat.max (c_latin c) (c_hangul c)) jp) (c_cyrillic c) in
if Nat.leb top 1 then unknown
else
  let kinds :=
    List.length (filter (fun b : bool => b)
      [Nat.ltb 0 (c_latin c); Nat.ltb 0 (c_hangul c);
       Nat.ltb 0 jp; Nat.ltb 0 (c_cyrillic c)]) in
  if Nat.leb 3 kinds then mixed
  else if Nat.eqb top (c_hangul c) then korean
  else if Nat.eqb top jp then japanese
  else if Nat.eqb top (c_cyrillic c) then cyrillic
  else latin.

Definition isSettled (s : ScriptType) : bool :=
match s with unknown | mixed => false | _ => true end.

Definition detectExpectedScriptFromMeta (title channelTitle : jsstring) : ScriptType :=
let titleScript := detectScript title in
if isSettled titleScript then titleScript
else detectScript (title ++ lit " " ++ channelTitle).

(** [Math.floor(n * 0.6)] for a character count [n]. *)
Definition floor06 (n : nat) : nat :=
Z.to_nat (B64.floor (B64.mul (B64.ofNat n) B64.sixTenths)).

Definition isScriptCompatible (text : jsstring) (expected : ScriptType) : bool :=
match expected with
| unknown | mixed => true
| _ =>
  let c := scriptCharCounts text in
  let jp := c_japanese c in
  let total := (c_latin c + c_hangul c + jp + c_cyrillic c)%nat in
  if Nat.eqb total 0 then false
  else
    match expected with
    | korean =>
      if Nat.ltb 0 (c_cyrillic c) then false
      else Nat.leb 2 (c_hangul c) || Nat.leb 2 (c_latin c)
    | japanese =>
      if Nat.ltb 0 (c_cyrillic c) then false
      else Nat.leb 2 jp || Nat.leb 2 (c_latin c)
    | cyrillic => Nat.leb 2 (c_cyrillic c)
    | _ =>
      Nat.leb 2 (c_latin c)
      && Nat.leb (c_hangul c + jp + c_cyrillic c)
                 (Nat.max 2 (floor06 (c_latin c)))
    end
end.

(** ** Sorting and de-duplication shared by the parsers *)

Section Sorting.

Variable A : Type.

(** [before x y] holds when the comparator is not positive at [(x, y)], so
    that [x] may stay in front of [y]: for [(a, b) => a.t - b.t] this is
    [a.t <= b.t]. *)
Variable before : A -> A -> bool.

(** Insertion of [x], which preceded every element of the sorted [l] in
    the array: it goes in front of the first element it may stay before. *)
Fixpoint insertSorted (x : A) (l : list A) : list A :=
match l with
| [] => [x]
| y :: l' => if before x y then x :: l else y :: insertSorted x l'
end.

(** [l.sort(cmp)], a stable sort. *)
Definition sortBy (l : list A) : list A :=
fold_right insertSorted [] l.

End Sorting.

Section Dedupe.

Variable A : Type.

(** [keep prev item] is the condition under which [item] is pushed after the
    last kept entry [prev]. *)
Variable keep : A -> A -> bool.

(** The de-duplication loop, with [deduped] held most recent first. *)
Fixpoint dedupe_go (acc : list A) (l : list A) : list A :=
match l with
| [] => rev acc
| item :: l' =>
  match acc with
  | [] => dedupe_go [item] l'
  | prev :: _ =>
    if keep prev item then dedupe_go (item :: acc) l'
    else dedupe_go acc l'
  end
end.

Definition dedupeAdjacent (l : list A) : list A := dedupe_go [] l.

End Dedupe.

(** ** Data model *)

Inductive Source : Type :=
| captions | catalog | catalog_aligned | stt | source_none.

Inductive Mode : Type := timed | plain.

Inductive SyncMethod : Type := native | ai | sync_none.

Record LyricsLine : Type := mkLine {
  t : Q;
  text : jsstring
}.

(** A candidate.  A raw candidate ([Omit<LyricsCandidate, "score">]) is a
    candidate whose [score] is still 0; nothing reads it before
    [scoreLyricsCandidate] has set it. *)
Record LyricsCandidate : Type := mkCandidate {
  id : jsstring;
  label : jsstring;
  source : Source;
  mode : Mode;
  lines : list LyricsLine;
  plainLyrics : option jsstring;
  syncMethod : option SyncMethod;
  score : Q
}.

Record LyricsResponse : Type := mkResponse {
  videoId : jsstring;
  r_source : Source;
  r_mode : Mode;
  r_lines : list LyricsLine;
  r_plainLyrics : option jsstring;
  r_syncMethod : option SyncMethod;
  selectedCandidateId : option jsstring;
  candidates : option (list LyricsCandidate)
}.

Record WhisperSegment : Type := mkSegment {
  start : Q;
  seg_text : jsstring
}.

(** A catalog hit: [track] is the reply of the catalog as it was parsed,
    whatever it holds. *)
Record CatalogCandidate : Type := mkCatalogCandidate {
  track : json;
  cat_score : Z;
  cat_label : jsstring
}.

(** [arr.length > 0]. *)
Definition nonEmpty {A : Type} (l : list A) : bool :=
match l with [] => false | _ :: _ => true end.

(** [s || ""] for an optional string. *)
Definition orEmpty (s : option jsstring) : jsstring :=
match s with Some x => x | None => [] end.

(** ** What the runtime supplies *)

(** What the service takes from the runtime: of its Unicode tables,
    [String.prototype.toLowerCase] and membership of a code point in the
    general categories L and N; and the decimal text of a number
    ([Number::toString]). *)
Class Runtime : Type := mkRuntime {
  toLowerCase : jsstring -> jsstring;
  isLetterOrNumber : N -> bool;
  numberToString : Q -> jsstring
}.

(** [String(n)] for a natural number. *)
Definition natToString (n : nat) : jsstring :=
lit (DecimalString.NilEmpty.string_of_uint (Nat.to_uint n)).

(** Tables that are right on ASCII text and on the whole numbers from 0
    on, for evaluating examples whose letters are ASCII. *)
Definition asciiRuntime : Runtime :=
mkRuntime (List.map asciiLower)
  (fun cp => isDigit cp || isLatin cp)
  (fun q => natToString (Z.to_nat (Qfloor q))).

(** [String(v)] for a parsed value: an array is the comma-joined string
    forms of its items, [null] items counting as empty. *)
Fixpoint jsString {U : Runtime} (v : json) : jsstring :=
match v with
| JNull => lit "null"
| JBool b => if b then lit "true" else lit "false"
| JNum q => numberToString q
| JStr s => s
| JArr items =>
  join (lit ",")
    (List.map (fun x => match x with JNull => [] | _ => jsString x end) items)
| JObj _ => lit "[object Object]"
end.

(** [String(v || "")] for a field that may be [undefined]. *)
Definition stringOrEmpty {U : Runtime} (v : option json) : jsstring :=
match v with
| Some j => if truthyJ j then jsString j else []
| None => []
end.

(** ** Format parsers *)

Definition replaceFirstChar (c d : N) (s : jsstring) : jsstring :=
match indexWhere (N.eqb c) s with
| Some i => firstn i s ++ d :: skipn (S i) s
| None => s
end.

Definition parseVttTime (raw : jsstring) : number :=
let s := replaceFirstChar 44 46 (trim raw) in
match splitChar 58 s with
| [p0; p1; p2] =>
  let h := strToNumber p0 in
  let m := strToNumber p1 in
  let sec := strToNumber p2 in
  if isFinite h && isFinite m && isFinite sec
  then fadd (fadd (fmul h (Some 3600)) (fmul m (Some 60))) sec
  else None
| [p0; p1] =>
  let m := strToNumber p0 in
  let sec := strToNumber p1 in
  if isFinite m && isFinite sec then fadd (fmul m (Some 60)) sec else None
| _ => None
end.

(** The three groups of [/^(\d+):(\d+)(?:\.(\d+))?$/]. *)
Definition lrcGroups (raw : jsstring) : option (jsstring * jsstring * option jsstring) :=
let n1 := spanLen isDigit raw in
match skipn n1 raw with
| c :: r1 =>
  if Nat.ltb 0 n1 && (c =? 58)%N then
    let n2 := spanLen isDigit r1 in
    if Nat.ltb 0 n2 then
      match skipn n2 r1 with
      | [] => Some (firstn n1 raw, firstn n2 r1, None)
      | d :: r2 =>
        if (d =? 46)%N && truthy r2 && forallb isDigit r2
        then Some (firstn n1 raw, firstn n2 r1, Some r2)
        else None
      end
    else None
  else None
| [] => None
end.

Definition parseLrcTimestamp (raw : jsstring) : number :=
match lrcGroups raw with
| None => None
| Some (g1, g2, g3) =>
  let mm := strToNumber g1 in
  let ss := strToNumber g2 in
  let ff := match g3 with Some g => strToNumber g | None => Some 0 end in
  if isFinite mm && isFinite ss && isFinite ff
  then fadd (fadd (fmul mm (Some 60)) ss) (fdiv ff (Some 100))
  else None
end.

(** The first groups of [line.matchAll(/\[([^\]]+)\]/g)]. *)
Fixpoint lrcTags_go (skip : nat) (s : jsstring) : list jsstring :=
match s with
| [] => []
| _ :: s' =>
  match skip with
  | S k => lrcTags_go k s'
  | O =>
    match mDelimited 91 93 1 None s with
    | Some (S k) => firstn (k - 1) s' :: lrcTags_go k s'
    | _ => lrcTags_go O s'
    end
  end
end.

Definition lrcTags (line : jsstring) : list jsstring := lrcTags_go O line.

(** [(a, b) => a.t - b.t]. *)
Definition byTime (a b : LyricsLine) : bool := Qle_bool (t a) (t b).

(** [prev.text !== item.text || Math.abs(prev.t - item.t) > gap], for the
    literal [gap]: the difference is the binary64 one, and the literal
    stands for the double nearest to it. *)
Definition keepLine (gap : Q) (prev item : LyricsLine) : bool :=
negb (Js.eqb (text prev) (text item))
|| gt (fabs (fsub (Some (t prev)) (Some (t item)))) (round64 gap).

(** The lines one line of an LRC document contributes to [out]. *)
Definition parseLrcLine (line : jsstring) : list LyricsLine :=
match lrcTags line with
| [] => []
| matches =>
  let txt := cleanCaptionText (gsub (mDelimited 91 93 1) (lit " ") line) in
  if truthy txt then
    flat_map (fun m =>
      match parseLrcTimestamp m with
      | Some ts => if isFiniteQ ts then [mkLine ts txt] else []
      | None => []
      end) matches
  else []
end.

Definition parseLrc (content : jsstring) : list LyricsLine :=
let out := flat_map parseLrcLine (splitLines content) in
dedupeAdjacent (keepLine (8 # 10)) (sortBy byTime out).

(** What a finished cue adds to [out]. *)
Definition vttCue (startTs : Q) (textLines : list jsstring) : list LyricsLine :=
let txt := cleanCaptionText (join (lit " ") textLines) in
if truthy txt then [mkLine startTs txt] else [].

(** The start time of a cue header line, when the line is one. *)
Definition vttHeader (line : jsstring) : option Q :=
if negb (truthy line) || startsWith (lit "WEBVTT") line
   || startsWith (lit "NOTE") line || startsWith (lit "STYLE") line
then None
else if negb (includes (lit "-->") line) then None
else
  let startRaw := fst (breakOn (lit "-->") line) in
  match parseVttTime (hd [] (splitChar 32 (trim startRaw))) with
  | Some ts => if isFiniteQ ts then Some ts else None
  | None => None
  end.

(** The scanning loop of [parseVtt].  [cue] is [None] while the outer loop
    looks for a header, and holds the start time and the text lines pushed
    so far (latest first) while the inner loop runs; the inner loop ends at a
    blank line or at the end of the input. *)
Fixpoint parseVtt_scan (cue : option (Q * list jsstring)) (srcLines : list jsstring)
  : list LyricsLine :=
match srcLines with
| [] =>
  match cue with
  | Some (startTs, acc) => vttCue startTs (rev acc)
  | None => []
  end
| l :: rest =>
  let line := trim l in
  match cue with
  | Some (startTs, acc) =>
    if truthy line then parseVtt_scan (Some (startTs, line :: acc)) rest
    else vttCue startTs (rev acc) ++ parseVtt_scan None rest
  | None =>
    match vttHeader line with
    | Some startTs => parseVtt_scan (Some (startTs, [])) rest
    | None => parseVtt_scan None rest
    end
  end
end.

Definition parseVtt (content : jsstring) : list LyricsLine :=
let out := parseVtt_scan None (splitLines content) in
sortBy byTime (dedupeAdjacent (keepLine (8 # 10)) out).

(** [(a, b) => a.start - b.start]. *)
Definition byStart (a b : WhisperSegment) : bool := Qle_bool (start a) (start b).

Section Transcription.

Context {U : Runtime}.

Definition isNullJ (j : json) : bool :=
match j with JNull => true | _ => false end.

(** What one item of [segments] contributes:
    [{ start: Number(s.start), text: cleanCaptionText(String(s.text || "")) }]
    when it passes the filter. *)
Definition whisperSegment (s : json) : list WhisperSegment :=
let txt := cleanCaptionText (stringOrEmpty (prop "text" s)) in
match toNumberU (prop "start" s) with
| Some st =>
  if isFiniteQ st && Qle_bool 0 st && truthy txt
  then [mkSegment st txt] else []
| None => []
end.

(** [parseWhisperSegments(raw)] on what [JSON.parse(raw)] gives; [None] is
    a text [JSON.parse] rejects.  Reading a field of [null], the document
    or one of its segments, throws inside the [try] as well, and the
    answer is then the empty list. *)
Definition parseWhisperSegments (raw : option json) : list WhisperSegment :=
match raw with
| None => []
| Some parsed =>
  match arrayOf (prop "segments" parsed) with
  | None => []
  | Some segs =>
    if existsb isNullJ segs then []
    else sortBy byStart (flat_map whisperSegment segs)
  end
end.

Definition parseWhisperJson (raw : option json) : list LyricsLine :=
dedupeAdjacent (keepLine (6 # 10))
  (List.map (fun s => mkLine (start s) (seg_text s)) (parseWhisperSegments raw)).

End Transcription.

(** One segment as [JSON.stringify] writes it; a start that is not finite
    is written as [null]. *)
Definition segmentJson (s : WhisperSegment) : json :=
JObj [(lit "start", if isFiniteQ (start s) then JNum (start s) else JNull);
      (lit "text", JStr (seg_text s))].

(** [JSON.stringify({ segments })], as the document it parses back to. *)
Definition stringifySegments (segs : list WhisperSegment) : option json :=
Some (JObj [(lit "segments", JArr (List.map segmentJson segs))]).

(** ** Alignment heuristic *)

Fixpoint mapi_go {A B : Type} (f : A -> nat -> B) (i : nat) (l : list A) : list B :=
match l with
| [] => []
| x :: l' => f x i :: mapi_go f (S i) l'
end.

(** [l.map((x, idx) => f(x, idx))]. *)
Definition mapi {A B : Type} (f : A -> nat -> B) (l : list A) : list B :=
mapi_go f O l.

(** The segment a lyric line is anchored to:
    [Math.min(count - 1, Math.max(0, Math.round(ratio * (count - 1))))]
    with [ratio = lineCount === 1 ? 0 : idx / (lineCount - 1)]. *)
Definition segIndex (lineCount count idx : nat) : nat :=
let ratio :=
  if Nat.eqb lineCount 1 then B64.ofNat 0
  else B64.div (B64.ofNat idx) (B64.ofNat (lineCount - 1)) in
let rounded := B64.round (B64.mul ratio (B64.ofNat (count - 1))) in
Z.to_nat (Z.min (Z.of_nat (count - 1)) (Z.max 0 rounded)).

Definition alignPlainLyricsWithSegments (plainText : jsstring)
  (segs : list WhisperSegment) : list LyricsLine :=
let lyricLines := splitPlainLyrics plainText in
if Nat.ltb (List.length lyricLines) 4 || Nat.ltb (List.length segs) 4 then []
else
  let timedLines :=
    mapi (fun line idx =>
      mkLine
        (nth (segIndex (List.length lyricLines) (List.length segs) idx)
             (List.map start segs) 0)
        line) lyricLines in
  dedupeAdjacent (keepLine (5 # 10)) (sortBy byTime timedLines).

(** ** The outside world and the effects of the service *)

(** A JSON file of the cache directory: absent, present with a text that
    cannot be read or parsed, or present with a document. *)
Inductive FileState : Type :=
| Missing
| Unreadable
| Holds (doc : json).

(** The per-video cache directory [cache/<videoId>]. *)
Record VideoDir : Type := mkVideoDir {
  metaFile : FileState;
  lyricsFile : FileState;
  audioFile : bool
}.

(** What the collaborators answer.  [cacheDirReady] tells, for a video
    none of whose files is there, whether its cache directory exists or
    [mkdirSync] can make it.  [subtitles] is the subtitle file that
    [pickBestSubtitleFile] selects once the downloader has run ([None]: no
    file; [Some None]: a file that cannot be read; [Some (Some raw)]: its
    text).  [audioDownload] tells whether the downloader leaves the audio
    file.  [transcribe] is the output of the transcription tool ([None]: the
    run fails or leaves no readable output; [Some None]: output that is not
    JSON).  [catalogGet] and [catalogSearch] are what [requestJson]
    resolves to for the catalog's two endpoints, by track name and artist
    name, and by query text: the parsed body of the reply, whatever it
    holds, and [JNull] also for a request that fails, a status from 400 on
    and a body that is no JSON. *)
Record World : Type := mkWorld {
  dirs : jsstring -> VideoDir;
  cacheDirReady : jsstring -> bool;
  ytDlpInstalled : bool;
  whisperInstalled : bool;
  subtitles : jsstring -> ScriptType -> option (option jsstring);
  audioDownload : jsstring -> bool;
  transcribe : jsstring -> option (option json);
  catalogGet : jsstring -> jsstring -> json;
  catalogSearch : jsstring -> json
}.

(** Calls that leave the process. *)
Inductive Event : Type :=
| SubtitleFetch (vid : jsstring)
| AudioFetch (vid : jsstring)
| Transcription (vid : jsstring)
| CatalogGet (trackName artistName : jsstring)
| CatalogSearch (query : jsstring).

Record State : Type := mkState {
  world : World;
  trace : list Event
}.

(** A computation either returns or throws; either way it leaves a state. *)
Inductive Outcome (A : Type) : Type :=
| Returned (a : A)
| Thrown.

Arguments Returned {A} a.
Arguments Thrown {A}.

Definition M (A : Type) : Type := State -> Outcome A * State.

Definition ret {A : Type} (a : A) : M A := fun st => (Returned a, st).

Definition throw {A : Type} : M A := fun st => (Thrown, st).

Definition bind {A B : Type} (m : M A) (k : A -> M B) : M B :=
fun st =>
match m st with
| (Returned a, st') => k a st'
| (Thrown, st') => (Thrown, st')
end.

Declare Scope js_scope.
Delimit Scope js_scope with js.

Notation "x <- m ;; k" := (bind m (fun x => k))
  (at level 61, m at next level, right associativity) : js_scope.
Notation "m ;;; k" := (bind m (fun _ => k))
  (at level 61, right associativity) : js_scope.

Definition emit (e : Event) : M unit :=
fun st => (Returned tt, mkState (world st) (trace st ++ [e])).

Definition ask {A : Type} (f : World -> A) : M A :=
fun st => (Returned (f (world st)), st).

Definition getDir (vid : jsstring) : M VideoDir :=
ask (fun w => dirs w vid).

Definition setDir (vid : jsstring) (d : VideoDir) : M unit :=
fun st =>
let w := world st in
(Returned tt,
 mkState
   (mkWorld (fun v => if Js.eqb v vid then d else dirs w v)
      (cacheDirReady w) (ytDlpInstalled w) (whisperInstalled w) (subtitles w)
      (audioDownload w) (transcribe w) (catalogGet w) (catalogSearch w))
   (trace st)).

(** A value, or the exception that [None] stands for. *)
Definition orThrow {A : Type} (v : option A) : M A :=
match v with Some a => ret a | None => throw end.

(** A step that throws unless [b] holds. *)
Definition guard (b : bool) : M unit := if b then ret tt else throw.

(** [for (const x of l) { acc = body(acc, x) }] with effects. *)
Fixpoint forEach {A B : Type} (l : list A) (acc : B) (body : B -> A -> M B) : M B :=
match l with
| [] => ret acc
| x :: l' => bind (body acc x) (fun acc' => forEach l' acc' body)
end.

(** ** Fingerprints, scores and the top set *)

Definition isHighSurrogate (c : N) : bool := inRange 55296 56319 c.
Definition isLowSurrogate (c : N) : bool := inRange 56320 57343 c.

Section WithRuntime.

Context {U : Runtime}.

(** [/[^\p{L}\p{N}\s]/gu]: with the [u] flag the pattern walks code points,
    a surrogate pair being one. *)
Definition mNotLetterNumberSpace : matcher :=
fun prev s =>
match s with
| [] => None
| c :: r =>
  if isLowSurrogate c && match prev with Some p => isHighSurrogate p | None => false end
  then None
  else
    match r with
    | d :: _ =>
      if isHighSurrogate c && isLowSurrogate d then
        if isLetterOrNumber (65536 + (c - 55296) * 1024 + (d - 56320))%N
        then None else Some 2%nat
      else if isLetterOrNumber c || isSpace c then None else Some 1%nat
    | [] => if isLetterOrNumber c || isSpace c then None else Some 1%nat
    end
end.

Definition normalizeForFingerprint (s : jsstring) : jsstring :=
trim
(gsub (mRun isSpace 1) (lit " ")
(gsub mNotLetterNumberSpace (lit " ")
(toLowerCase s))).

Definition normalizedLyricsFingerprint (m : Mode) (ls : list LyricsLine)
  (plainText : jsstring) : jsstring :=
let timedPrint := normalizeForFingerprint (join [10%N] (List.map text ls)) in
let plainPrint := normalizeForFingerprint plainText in
match m with
| timed => firstn 2400 timedPrint
| plain => firstn 2400 plainPrint
end.

(** The text a candidate or a payload is judged by:
    [`${lines.map((x) => x.text).join(" ")} ${plainLyrics || ""}`.trim()]. *)
Definition allTextOf (ls : list LyricsLine) (plainText : option jsstring) : jsstring :=
trim (join (lit " ") (List.map text ls) ++ lit " " ++ orEmpty plainText).

Definition scoreLyricsCandidate (candidate : LyricsCandidate)
  (expectedScript : ScriptType) : Z :=
let lineCount := Z.of_nat (List.length (lines candidate)) in
let plainLen := Z.of_nat (List.length (orEmpty (plainLyrics candidate))) in
let bySource :=
  match source candidate with
  | captions => 96
  | catalog => match mode candidate with timed => 90 | plain => 84 end
  | catalog_aligned => 82
  | stt => 48
  | source_none => 0
  end%Z in
let bySync :=
  match syncMethod candidate with
  | Some native => 7
  | Some ai => 2
  | _ => 0
  end%Z in
let byDensity :=
  match mode candidate with
  | timed => Z.min 16 (lineCount / 6)
  | plain => Z.min 10 (plainLen / 120)
  end%Z in
let allText := allTextOf (lines candidate) (plainLyrics candidate) in
let byScript :=
  (if truthy allText && isScriptCompatible allText expectedScript then 8 else 0)%Z in
(bySource + bySync + byDensity + byScript)%Z.

(** [{ ...c, score }]. *)
Definition withScore (c : LyricsCandidate) (s : Q) : LyricsCandidate :=
mkCandidate (id c) (label c) (source c) (mode c) (lines c)
  (plainLyrics c) (syncMethod c) s.

(** [ToIntegerOrInfinity]: 0 for NaN, and truncation otherwise. *)
Definition toInteger (x : number) : Z :=
match x with
| None => 0%Z
| Some q => if Qle_bool 0 q then Qfloor q else (- Qfloor (- q))%Z
end.

(** [items.slice(0, end)]. *)
Definition sliceEnd {A : Type} (end_ : number) (items : list A) : list A :=
let k := toInteger end_ in
if (k <? 0)%Z
then firstn (Z.to_nat (Z.max (Z.of_nat (List.length items) + k) 0)) items
else firstn (Z.to_nat k) items.

(** [count >= limit] for a length [count]: false against NaN. *)
Definition reaches (count : nat) (limit : number) : bool :=
match limit with
| Some q => Qle_bool q (inject_Z (Z.of_nat count))
| None => false
end.

Definition fingerprintOf (c : LyricsCandidate) : jsstring :=
normalizedLyricsFingerprint (mode c) (lines c) (orEmpty (plainLyrics c)).

(** The loop of [pickTopCandidates]; [out] is held latest first. *)
Fixpoint pickTop_go (limit : number) (seen : list jsstring) (out : list LyricsCandidate)
  (cands : list LyricsCandidate) : list LyricsCandidate :=
match cands with
| [] => rev out
| c :: rest =>
  let fp := fingerprintOf c in
  if negb (truthy fp) then pickTop_go limit seen out rest
  else if existsb (Js.eqb fp) seen then pickTop_go limit seen out rest
  else if reaches (List.length (c :: out)) limit then rev (c :: out)
  else pickTop_go limit (fp :: seen) (c :: out) rest
end.

Definition pickTopCandidates (cands : list LyricsCandidate) (limit : number)
  : list LyricsCandidate :=
if Nat.leb (List.length cands) 1 then sliceEnd limit cands
else pickTop_go limit [] [] cands.

(** [(a, b) => b.score - a.score]. *)
Definition byScoreDesc (a b : LyricsCandidate) : bool := Qle_bool (score b) (score a).

(** ** Script check of a cached payload *)

Definition hasCompatibleLyricsPayload (payload : LyricsResponse)
  (expectedScript : ScriptType) : bool :=
let allText := allTextOf (r_lines payload) (r_plainLyrics payload) in
if negb (truthy allText) then true
else isScriptCompatible allText expectedScript.

(** ** Catalog source *)

(** A one-character class. *)
Definition mChar (p : N -> bool) : matcher :=
fun _ s =>
match s with
| c :: _ => if p c then Some 1%nat else None
| [] => None
end.

Definition cleanSearchName (input : jsstring) : jsstring :=
trim
(gsub (mRun isSpace 1) (lit " ")
(gsub (mChar (fun c => (c =? 124) || (c =? 8226) || (c =? 183))%N) (lit " ")
(gsub (mWords (List.map lit
   ["official"; "mv"; "music video"; "video"; "lyrics"; "karaoke"; "live";
    "topic"; "vevo"]%string)) (lit " ")
(gsub (mDelimited 123 125 0) (lit " ")
(gsub (mDelimited 40 41 0) (lit " ")
(gsub (mDelimited 91 93 0) (lit " ") input)))))).

Record Query : Type := mkQuery {
  q_artist : jsstring;
  q_track : jsstring
}.

Definition queryKey (q : Query) : jsstring :=
toLowerCase (q_artist q) ++ lit "::" ++ toLowerCase (q_track q).

(** [candidates.filter(...)] with the [seen] set of keys. *)
Fixpoint dedupeQueries (seen : list jsstring) (qs : list Query) : list Query :=
match qs with
| [] => []
| q :: rest =>
  if existsb (Js.eqb (queryKey q)) seen then dedupeQueries seen rest
  else q :: dedupeQueries (queryKey q :: seen) rest
end.

Definition extractArtistTrackCandidates (title channelTitle : jsstring) : list Query :=
let cleanedTitle := cleanSearchName title in
let cleanedChannel :=
  trim (gsub (mWords (List.map lit ["topic"; "channel"]%string)) []
         (cleanSearchName channelTitle)) in
let bySeparator :=
  flat_map (fun sep =>
    if includes sep cleanedTitle then
      match breakOn sep cleanedTitle with
      | (leftPart, Some rest) =>
        let rightPart := trim rest in
        if truthy (trim leftPart) && truthy rightPart
        then [mkQuery (trim leftPart) rightPart] else []
      | (_, None) => []
      end
    else [])
    [[32; 45; 32]; [32; 8211; 32]; [32; 8212; 32]]%N in
let fallback :=
  if truthy cleanedTitle then [mkQuery cleanedChannel cleanedTitle] else [] in
dedupeQueries [] (bySeparator ++ fallback).

(** [(v || "").toLowerCase()] for a field of a reply; [None] is the
    [TypeError] of a truthy value that is no string. *)
Definition lowerOrEmpty (v : option json) : option jsstring :=
match v with
| Some (JStr s) => Some (toLowerCase s)
| Some j => if truthyJ j then None else Some (toLowerCase [])
| None => Some (toLowerCase [])
end.

(** [v && v.trim()] as a condition; [None] is the [TypeError] of a truthy
    value that is no string. *)
Definition hasText (v : option json) : option bool :=
match v with
| Some (JStr s) => Some (truthy (trim s))
| Some j => if truthyJ j then None else Some false
| None => Some false
end.

(** [None] is a [TypeError]: the reply is [null], or one of the four
    fields is truthy and no string. *)
Definition scoreCatalogCandidate (tr : json) (artist song : jsstring) : option Z :=
match tr with
| JNull => None
| _ =>
  match lowerOrEmpty (prop "trackName" tr), lowerOrEmpty (prop "artistName" tr),
        hasText (prop "syncedLyrics" tr), hasText (prop "plainLyrics" tr) with
  | Some tn, Some an, Some synced, Some plainText =>
    let targetTrack := toLowerCase song in
    let targetArtist := toLowerCase artist in
    Some ((if Js.eqb tn targetTrack then 12
           else if includes targetTrack tn || includes tn targetTrack then 8 else 0)
          + (if truthy targetArtist && Js.eqb an targetArtist then 10
             else if truthy targetArtist
                     && (includes targetArtist an || includes an targetArtist)
             then 6 else 0)
          + (if synced then 10 else 0)
          + (if plainText then 3 else 0))%Z
  | _, _, _, _ => None
  end
end.

Definition extractSyncedLines (tr : json) : list LyricsLine :=
let synced := stringOr (prop "syncedLyrics" tr) (fun s => s) [] in
if negb (truthy (trim synced)) then [] else parseLrc synced.

Definition extractPlainLyrics (tr : json) : jsstring :=
stringOr (prop "plainLyrics" tr) normalizePlainLyrics [].

(** [(a, b) => b.score - a.score] on catalog hits. *)
Definition byCatalogScoreDesc (a b : CatalogCandidate) : bool :=
Z.leb (cat_score b) (cat_score a).

(** [`${v || d}`]. *)
Definition textOr (v : option json) (d : jsstring) : jsstring :=
match v with
| Some j => if truthyJ j then jsString j else d
| None => d
end.

(** The label of a hit:
    [`${track.trackName || q.track} — ${track.artistName || q.artist || "Unknown"}`]. *)
Definition catalogLabel (tr : json) (q : Query) : jsstring :=
textOr (prop "trackName" tr) (q_track q) ++ [32; 8212; 32]%N
++ textOr (prop "artistName" tr) (orElse (q_artist q) (lit "Unknown")).

(** [v || ""] for a name of a hit that has been scored: the scoring has
    found it to be a string or a falsy value. *)
Definition nameOrEmpty (v : option json) : jsstring :=
match v with Some (JStr s) => s | _ => [] end.

(** The key under which a hit enters the [dedup] map, when it passes the
    text and script checks. *)
Definition catalogKey (expectedScript : ScriptType) (c : CatalogCandidate)
  : option jsstring :=
let synced := extractSyncedLines (track c) in
let plainText := extractPlainLyrics (track c) in
let txt := trim (join (lit " ") (List.map text synced) ++ lit " " ++ plainText) in
if negb (truthy txt) || negb (isScriptCompatible txt expectedScript) then None
else
  let key :=
    toLowerCase (nameOrEmpty (prop "trackName" (track c))) ++ lit "::"
    ++ toLowerCase (nameOrEmpty (prop "artistName" (track c))) ++ lit "::"
    ++ normalizedLyricsFingerprint
         (match synced with [] => plain | _ :: _ => timed end) synced plainText in
  if negb (truthy (trim key)) then None else Some key.

(** The [dedup] map, in insertion order: the first hit of a key stays. *)
Fixpoint dedupeCatalog (expectedScript : ScriptType) (seen : list jsstring)
  (cs : list CatalogCandidate) : list CatalogCandidate :=
match cs with
| [] => []
| c :: rest =>
  match catalogKey expectedScript c with
  | None => dedupeCatalog expectedScript seen rest
  | Some key =>
    if existsb (Js.eqb key) seen then dedupeCatalog expectedScript seen rest
    else c :: dedupeCatalog expectedScript (key :: seen) rest
  end
end.

(** ** Metadata and the cache document *)

(** [readMeta(videoDir)]: the title and the channel title, empty when the
    file is absent, unreadable or holds something else than strings. *)
Definition readMeta (f : FileState) : jsstring * jsstring :=
match f with
| Holds meta =>
  (stringOr (prop "title" meta) (fun s => s) [],
   stringOr (prop "channelTitle" meta) (fun s => s) [])
| _ => ([], [])
end.

Definition sourceName (s : Source) : jsstring :=
lit match s with
    | captions => "captions"
    | catalog => "catalog"
    | catalog_aligned => "catalog_aligned"
    | stt => "stt"
    | source_none => "none"
    end.

Definition modeName (m : Mode) : jsstring :=
lit match m with timed => "timed" | plain => "plain" end.

Definition syncName (s : SyncMethod) : jsstring :=
lit match s with native => "native" | ai => "ai" | sync_none => "none" end.

Definition optField (k : string) (v : option json) : list (jsstring * json) :=
match v with Some j => [(lit k, j)] | None => [] end.

Definition lineToJson (l : LyricsLine) : json :=
JObj [(lit "t", JNum (t l)); (lit "text", JStr (text l))].

Definition candidateToJson (c : LyricsCandidate) : json :=
JObj ([(lit "id", JStr (id c)); (lit "label", JStr (label c));
       (lit "source", JStr (sourceName (source c)));
       (lit "mode", JStr (modeName (mode c)));
       (lit "lines", JArr (List.map lineToJson (lines c)))]
      ++ optField "plainLyrics" (option_map JStr (plainLyrics c))
      ++ optField "syncMethod" (option_map (fun s => JStr (syncName s)) (syncMethod c))
      ++ [(lit "score", JNum (score c))]).

(** The document [JSON.stringify(result, null, 2)] parses back to: fields
    that are [undefined] are left out. *)
Definition responseToJson (r : LyricsResponse) : json :=
JObj ([(lit "videoId", JStr (videoId r));
       (lit "source", JStr (sourceName (r_source r)));
       (lit "mode", JStr (modeName (r_mode r)));
       (lit "lines", JArr (List.map lineToJson (r_lines r)))]
      ++ optField "plainLyrics" (option_map JStr (r_plainLyrics r))
      ++ optField "syncMethod" (option_map (fun s => JStr (syncName s)) (r_syncMethod r))
      ++ optField "selectedCandidateId" (option_map JStr (selectedCandidateId r))
      ++ optField "candidates"
           (option_map (fun cs => JArr (List.map candidateToJson cs)) (candidates r))).

Definition parseSource (v : option json) : Source :=
if isStr v "captions" then captions
else if isStr v "catalog" then catalog
else if isStr v "catalog_aligned" then catalog_aligned
else if isStr v "stt" then stt
else source_none.

Definition parseMode (v : option json) : Mode :=
if isStr v "plain" then plain else timed.

Definition parseSync (v : option json) : SyncMethod :=
if isStr v "native" then native
else if isStr v "ai" then ai
else sync_none.

(** [.filter((l) => l && Number.isFinite(Number(l.t)) && typeof l.text === "string")
     .map((l) => ({ t: Number(l.t), text: l.text }))]. *)
Definition parseLines (items : list json) : list LyricsLine :=
flat_map (fun l =>
  if truthyJ l then
    match toNumberU (prop "t" l), prop "text" l with
    | Some q, Some (JStr s) => if isFiniteQ q then [mkLine q s] else []
    | _, _ => []
    end
  else []) items.

Definition parseCandidate (c : json) : list LyricsCandidate :=
if truthyJ c then
  match prop "id" c, prop "label" c, arrayOf (prop "lines" c) with
  | Some (JStr cid), Some (JStr clabel), Some ls =>
    [mkCandidate cid clabel
       (parseSource (prop "source" c))
       (parseMode (prop "mode" c))
       (parseLines ls)
       (stringOr (prop "plainLyrics" c) (fun s => Some s) None)
       (Some (parseSync (prop "syncMethod" c)))
       (match toNumberU (prop "score" c) with
        | Some q => if isFiniteQ q then q else 0
        | None => 0
        end)]
  | _, _, _ => []
  end
else [].

Definition readCachedLyrics (vid : jsstring) (f : FileState) : option LyricsResponse :=
match f with
| Holds parsed =>
  if negb (truthyJ parsed) then None
  else
    match prop "videoId" parsed, arrayOf (prop "lines" parsed) with
    | Some (JStr v), Some ls =>
      if Js.eqb v vid then
        Some (mkResponse vid
          (parseSource (prop "source" parsed))
          (parseMode (prop "mode" parsed))
          (parseLines ls)
          (stringOr (prop "plainLyrics" parsed) (fun s => Some s) None)
          (Some (parseSync (prop "syncMethod" parsed)))
          (stringOr (prop "selectedCandidateId" parsed) (fun s => Some s) None)
          (Some (match arrayOf (prop "candidates" parsed) with
                 | Some cs => flat_map parseCandidate cs
                 | None => []
                 end)))
      else None
    | _, _ => None
    end
| _ => None
end.

Local Open Scope js_scope.

Definition isPresent (f : FileState) : bool :=
match f with Missing => false | _ => true end.

(** One of the files of the directory is there, so that
    [fs.existsSync(dir)] holds. *)
Definition hasFiles (d : VideoDir) : bool :=
isPresent (metaFile d) || isPresent (lyricsFile d) || audioFile d.

(** [ensureVideoCacheDir(videoId)].  [mkdirSync] is not guarded: what it
    throws ends the caller.  A directory without files and no directory
    are the same to everything else, so the state stays as it is. *)
Definition ensureVideoCacheDir (vid : jsstring) : M unit :=
d <- getDir vid ;;
if hasFiles d then ret tt
else
  ready <- ask (fun w => cacheDirReady w vid) ;;
  guard ready.

Definition writeCachedLyrics (result : LyricsResponse) : M unit :=
ensureVideoCacheDir (videoId result) ;;;
d <- getDir (videoId result) ;;
setDir (videoId result)
  (mkVideoDir (metaFile d) (Holds (responseToJson result)) (audioFile d)).

(** ** Sources *)

(** [s.isWellFormed()]: no surrogate without its partner.
    [encodeURIComponent] throws a [URIError] on every other string. *)
Fixpoint isWellFormed (s : jsstring) : bool :=
match s with
| [] => true
| c :: rest =>
  if isHighSurrogate c then
    match rest with
    | d :: rest' => isLowSurrogate d && isWellFormed rest'
    | [] => false
    end
  else negb (isLowSurrogate c) && isWellFormed rest
end.

(** [items.map(f)] for an [f] that can throw. *)
Fixpoint traverse {A B : Type} (f : A -> option B) (l : list A) : option (list B) :=
match l with
| [] => Some []
| x :: l' =>
  match f x with
  | Some y => option_map (cons y) (traverse f l')
  | None => None
  end
end.

(** A search result with its score and label. *)
Definition rankedItem (q : Query) (item : json) : option CatalogCandidate :=
option_map (fun sc => mkCatalogCandidate item sc (catalogLabel item q))
  (scoreCatalogCandidate item (q_artist q) (q_track q)).

(** One round of the loop over the queries.  The three calls of
    [encodeURIComponent] and the scoring of the replies are not guarded:
    what they throw ends [fetchCatalogLyricsCandidates]. *)
Definition catalogRound (collected : list CatalogCandidate) (q : Query)
  : M (list CatalogCandidate) :=
if negb (truthy (q_track q)) then ret collected
else
  guard (isWellFormed (q_track q)) ;;;
  guard (isWellFormed (q_artist q)) ;;;
  emit (CatalogGet (q_track q) (q_artist q)) ;;;
  direct <- ask (fun w => catalogGet w (q_track q) (q_artist q)) ;;
  collected1 <-
    (if truthyJ direct then
       directScore <- orThrow (scoreCatalogCandidate direct (q_artist q) (q_track q)) ;;
       ret (collected ++
            [mkCatalogCandidate direct (directScore + 15) (catalogLabel direct q)])
     else ret collected) ;;
  let query := orElse (trim (q_artist q ++ lit " " ++ q_track q)) (q_track q) in
  guard (isWellFormed query) ;;;
  emit (CatalogSearch query) ;;;
  results <- ask (fun w => catalogSearch w query) ;;
  match results with
  | JArr (item :: items) =>
    scoredItems <- orThrow (traverse (rankedItem q) (item :: items)) ;;
    ret (collected1 ++ firstn 6 (sortBy byCatalogScoreDesc scoredItems))
  | _ => ret collected1
  end.

Definition fetchCatalogLyricsCandidates (vid : jsstring) (expectedScript : ScriptType)
  : M (list CatalogCandidate) :=
d <- getDir vid ;;
let meta := readMeta (metaFile d) in
let queries := extractArtistTrackCandidates (fst meta) (snd meta) in
collected <- forEach queries [] catalogRound ;;
ret (firstn 6
      (sortBy byCatalogScoreDesc
        (dedupeCatalog expectedScript []
          (sortBy byCatalogScoreDesc collected)))).

(** [ensureAudioSource]: whether an audio file is there in the end. *)
Definition ensureAudioSource (vid : jsstring) : M bool :=
d <- getDir vid ;;
if audioFile d then ret true
else
  installed <- ask ytDlpInstalled ;;
  if negb installed then ret false
  else
    emit (AudioFetch vid) ;;;
    ok <- ask (fun w => audioDownload w vid) ;;
    if ok then
      setDir vid (mkVideoDir (metaFile d) (lyricsFile d) true) ;;; ret true
    else ret false.

(** [fetchCaptionsViaYtDlp] and the reading of the file it selects. *)
Definition fetchCaptionsViaYtDlp (vid : jsstring) (expectedScript : ScriptType)
  : M (option (option jsstring)) :=
installed <- ask ytDlpInstalled ;;
if negb installed then ret None
else
  emit (SubtitleFetch vid) ;;;
  ask (fun w => subtitles w vid expectedScript).

Definition runWhisperAndGetSegments (vid : jsstring) : M (list WhisperSegment) :=
audioPath <- ensureAudioSource vid ;;
if negb audioPath then ret []
else
  installed <- ask whisperInstalled ;;
  if negb installed then ret []
  else
    emit (Transcription vid) ;;;
    out <- ask (fun w => transcribe w vid) ;;
    match out with
    | Some raw => ret (parseWhisperSegments raw)
    | None => ret []
    end.

(** ** Pipeline orchestrator *)

Definition captionsCandidate (ls : list LyricsLine) : LyricsCandidate :=
mkCandidate (lit "captions_vtt") (lit "YouTube captions") captions timed ls
  None (Some native) 0.

(** The raw candidate of the catalog hit at index [i], if it has lyrics. *)
Definition catalogCandidate (c : CatalogCandidate) (i : nat) : list LyricsCandidate :=
let synced := extractSyncedLines (track c) in
let plainText := extractPlainLyrics (track c) in
match synced with
| _ :: _ =>
  [mkCandidate (lit "catalog_synced_" ++ natToString (i + 1)) (cat_label c)
     catalog timed synced None (Some native) 0]
| [] =>
  if truthy plainText then
    [mkCandidate (lit "catalog_plain_" ++ natToString (i + 1)) (cat_label c)
       catalog plain [] (Some plainText) (Some sync_none) 0]
  else []
end.

Definition isCatalogPlain (c : LyricsCandidate) : bool :=
match source c, mode c with
| catalog, plain => true
| _, _ => false
end.

Definition alignedCandidate (segs : list WhisperSegment) (c : LyricsCandidate)
  : list LyricsCandidate :=
match alignPlainLyricsWithSegments (orEmpty (plainLyrics c)) segs with
| [] => []
| aligned =>
  [mkCandidate (id c ++ lit "_aligned") (label c ++ lit " (AI sync)")
     catalog_aligned timed aligned (plainLyrics c) (Some ai) 0]
end.

Definition sttCandidate (ls : list LyricsLine) : LyricsCandidate :=
mkCandidate (lit "stt_fallback") (lit "Whisper transcription") stt timed ls
  None (Some ai) 0.

(** The literal "no lyrics" result. *)
Definition noneResult (vid : jsstring) : LyricsResponse :=
mkResponse vid source_none plain [] (Some []) (Some sync_none) (Some (lit "none"))
  (Some [mkCandidate (lit "none") (lit "No lyrics") source_none plain []
           (Some []) (Some sync_none) 0]).

(** The cached result [getLyrics] returns at once, if there is one. *)
Definition reusableCache (vid : jsstring) (d : VideoDir) (expectedScript : ScriptType)
  : option LyricsResponse :=
match readCachedLyrics vid (lyricsFile d) with
| Some cached =>
  if hasCompatibleLyricsPayload cached expectedScript
     && match candidates cached with Some (_ :: _) => true | _ => false end
  then Some cached else None
| None => None
end.

(** Steps 1 to 4: native captions, catalog candidates, timing for plain
    catalog lyrics, and transcription as the last resort. *)
Definition collectRawCandidates (vid : jsstring) (expectedScript : ScriptType)
  : M (list LyricsCandidate) :=
subtitleFile <- fetchCaptionsViaYtDlp vid expectedScript ;;
let raw1 :=
  match subtitleFile with
  | Some (Some raw) =>
    let ls := parseVtt raw in
    if nonEmpty ls && isScriptCompatible (join (lit " ") (List.map text ls)) expectedScript
    then [captionsCandidate ls] else []
  | _ => []
  end in
catalogCandidates <- fetchCatalogLyricsCandidates vid expectedScript ;;
let raw2 := raw1 ++ List.concat (mapi catalogCandidate catalogCandidates) in
let plainForAlign := firstn 2 (filter isCatalogPlain raw2) in
raw3 <-
  match plainForAlign with
  | [] => ret raw2
  | _ :: _ =>
    segs <- runWhisperAndGetSegments vid ;;
    match segs with
    | [] => ret raw2
    | _ :: _ => ret (raw2 ++ flat_map (alignedCandidate segs) plainForAlign)
    end
  end ;;
match raw3 with
| [] =>
  sttSegments <- runWhisperAndGetSegments vid ;;
  match sttSegments with
  | [] => ret []
  | _ :: _ =>
    match parseWhisperJson (stringifySegments sttSegments) with
    | [] => ret []
    | ls => ret [sttCandidate ls]
    end
  end
| _ :: _ => ret raw3
end.

(** The end of [getLyrics]: the "none" result for no raw candidate, and
    otherwise scoring, the top set and its first member.  Reading
    [selected.source] of a missing [selected] throws. *)
Definition finalize (vid : jsstring) (expectedScript : ScriptType)
  (rawCandidates : list LyricsCandidate) : M LyricsResponse :=
match rawCandidates with
| [] => writeCachedLyrics (noneResult vid) ;;; ret (noneResult vid)
| _ :: _ =>
  let scored :=
    sortBy byScoreDesc
      (List.map (fun c => withScore c (inject_Z (scoreLyricsCandidate c expectedScript)))
         rawCandidates) in
  let topCandidates := pickTopCandidates scored (Some 3) in
  match topCandidates with
  | [] => throw
  | selected :: _ =>
    let result :=
      mkResponse vid (source selected) (mode selected) (lines selected)
        (plainLyrics selected)
        (Some (match syncMethod selected with Some m => m | None => sync_none end))
        (Some (id selected)) (Some topCandidates) in
    writeCachedLyrics result ;;; ret result
  end
end.

Definition expectedScriptOf (d : VideoDir) : ScriptType :=
let meta := readMeta (metaFile d) in
detectExpectedScriptFromMeta (fst meta) (snd meta).

Definition getLyrics (vid : jsstring) : M LyricsResponse :=
ensureVideoCacheDir vid ;;;
d <- getDir vid ;;
let expectedScript := expectedScriptOf d in
match reusableCache vid d expectedScript with
| Some cached => ret cached
| None =>
  rawCandidates <- collectRawCandidates vid expectedScript ;;
  finalize vid expectedScript rawCandidates
end.

(** ** Route handler: [GET /api/lyrics?videoId=...] *)

Inductive HttpResponse : Type :=
| BadRequest
| Json (data : LyricsResponse).

Definition lyricsRoute (queryVideoId : jsstring) : M HttpResponse :=
let vid := trim queryVideoId in
if negb (truthy vid) then ret BadRequest
else
  fun st =>
  match getLyrics vid st with
  | (Returned data, st') => (Returned (Json data), st')
  | (Thrown, st') => (Returned (Json (noneResult vid)), st')
  end.

End WithRuntime.

(** ** Subtitle track selection *)

(** [/p/i.test(s)] for a literal ASCII pattern [p]. *)
Fixpoint includesCI (p s : jsstring) : bool :=
startsWithCI p s ||
match s with
| [] => false
| _ :: s' => includesCI p s'
end.

(** [s] is [p] up to ASCII letter case. *)
Definition eqCI (p s : jsstring) : bool :=
Nat.eqb (List.length p) (List.length s) && startsWithCI p s.

(** [/^captions(\.[^.]+)*\.vtt$/i.test(name)]: cut at its dots, the name
    is "captions", then any number of non-empty parts, then "vtt". *)
Definition isCaptionFile (name : jsstring) : bool :=
match splitChar 46 name with
| first :: rest =>
  eqCI (lit "captions") first &&
  match rev rest with
  | lastPart :: middle => eqCI (lit "vtt") lastPart && forallb truthy middle
  | [] => false
  end
| [] => false
end.

Definition notDot (c : N) : bool := negb (N.eqb c 46).

(** The first group of the first match of
    [/captions\.([^.]+)(?:\.|$)/i]: the pattern matches where "captions."
    is followed by a character other than a dot, and the group is the run
    of such characters, which a dot or the end of the name follows. *)
Fixpoint languageCapture (fileName : jsstring) : option jsstring :=
match fileName with
| [] => None
| _ :: rest =>
  if startsWithCI (lit "captions.") fileName then
    let after := skipn 9 fileName in
    let n := spanLen notDot after in
    if Nat.ltb 0 n then Some (firstn n after) else languageCapture rest
  else languageCapture rest
end.

Section SubtitleSelection.

Context {U : Runtime}.

(** [a.localeCompare(b)], which the runtime's collation decides. *)
Variable localeCompare : jsstring -> jsstring -> Z.

Definition subtitleLanguageCode (fileName : jsstring) : jsstring :=
toLowerCase (match languageCapture fileName with Some g => g | None => [] end).

Definition isSubtitleLangCompatible (fileName : jsstring) (expected : ScriptType) : bool :=
let lang := subtitleLanguageCode fileName in
if negb (truthy lang) then true
else
  match expected with
  | unknown | mixed => true
  | korean => startsWith (lit "ko") lang || startsWith (lit "en") lang
  | japanese => startsWith (lit "ja") lang || startsWith (lit "en") lang
  | cyrillic =>
    startsWith (lit "ru") lang
    || existsb (fun p => includes (lit p) lang) ["uk"; "bg"; "sr"; "mk"; "be"]%string
  | latin =>
    existsb (fun p => startsWith (lit p) lang)
      ["en"; "fr"; "es"; "de"; "it"; "pt"; "nl"; "sv"; "no"; "da"; "fi"; "ro"; "tr"]%string
  end.

Definition subtitleLangScore (fileName : jsstring) : Z :=
let lang := subtitleLanguageCode fileName in
if startsWith (lit "en") lang then 40
else if startsWith (lit "ko") lang then 30
else if startsWith (lit "ja") lang then 20
else if startsWith (lit "fr") lang then 10
else 0.

Definition subtitleManualScore (fileName : jsstring) : Z :=
if includesCI (lit "auto") fileName || includesCI (lit "asr") fileName
   || includesCI (lit "orig") fileName
then 0 else 100.

Definition subtitleRank (fileName : jsstring) : Z :=
(subtitleManualScore fileName + subtitleLangScore fileName)%Z.

(** The comparator of [pool.sort] is not positive at [(a, b)]. *)
Definition bySubtitleRank (a b : jsstring) : bool :=
if negb (Z.eqb (subtitleRank a) (subtitleRank b))
then Z.leb (subtitleRank b - subtitleRank a) 0
else Z.leb (localeCompare a b) 0.

(** [pickBestSubtitleFile], on the names [fs.readdirSync(videoDir)] lists;
    the result is the name that is joined to the directory. *)
Definition pickBestSubtitleFile (names : list jsstring) (expectedScript : ScriptType)
  : option jsstring :=
let files := filter isCaptionFile names in
match files with
| [] => None
| _ :: _ =>
  let compatible := filter (fun f => isSubtitleLangCompatible f expectedScript) files in
  let pool := if nonEmpty compatible then compatible else files in
  hd_error (sortBy bySubtitleRank pool)
end.

End SubtitleSelection.

(** ** The client's active line ([web/app/page.tsx]) *)

(** The loop of [findIdx]: [i] is the index found so far, [k] the index of
    the line looked at. *)
Fixpoint findIdx_go (i : Z) (k : nat) (ls : list LyricsLine) (now : Q) : Z :=
match ls with
| [] => i
| l :: rest => if Qle_bool (t l) now then findIdx_go (Z.of_nat k) (S k) rest now else i
end.

Definition findIdx (ls : list LyricsLine) (now : Q) : Z := findIdx_go (-1) 0 ls now.

(** The lines that have started at [now]. *)
Definition startedAt (now : Q) (ls : list LyricsLine) : list LyricsLine :=
filter (fun l => Qle_bool (t l) now) ls.

(** ** The metadata the prepare route leaves ([server/src/routes/prepare.ts]) *)

(** [(v || "Unknown").toString()] for an optional string of the request
    body. *)
Definition safeName (v : option jsstring) : jsstring :=
orElse (orEmpty v) (lit "Unknown").

(** The document [writeMeta] writes, as it parses back; [preparedAt] is
    the reading of the clock. *)
Definition metaDocument (vid title channelTitle preparedAt : jsstring) : json :=
JObj [(lit "videoId", JStr vid); (lit "title", JStr title);
      (lit "channelTitle", JStr channelTitle); (lit "preparedAt", JStr preparedAt)].

Definition writeMeta (vid title channelTitle preparedAt : jsstring) : M unit :=
bind (getDir vid) (fun d =>
setDir vid
  (mkVideoDir (Holds (metaDocument vid title channelTitle preparedAt))
     (lyricsFile d) (audioFile d))).

(** ** The list of recent songs ([server/src/index.ts]) *)

(** [Math.min(a, b)] and [Math.max(a, b)] on numbers that are not NaN. *)
Definition qmin (a b : Q) : Q := if Qle_bool a b then a else b.
Definition qmax (a b : Q) : Q := if Qle_bool a b then b else a.

(** [Math.max(1, Math.min(Number(limitRaw || 12), 50))]: a NaN goes
    through both. *)
Definition recentLimit (limitRaw : option jsstring) : number :=
match (if truthy (orEmpty limitRaw) then strToNumber (orEmpty limitRaw) else Some 12%Q) with
| Some q => Some (qmax 1 (qmin q 50))
| None => None
end.

(** What [GET /api/activity/recent] answers with, of the items in the
    order the sort leaves them. *)
Definition recentItems {A : Type} (limitRaw : option jsstring) (sorted : list A) : list A :=
sliceEnd (recentLimit limitRaw) sorted.

(** * Properties *)

(** ** Vocabulary of the statements *)

(** Every pair of neighbours satisfies [r]. *)
Fixpoint adjacentAll {A : Type} (r : A -> A -> bool) (l : list A) : bool :=
match l with
| [] => true
| a :: l' =>
  match l' with
  | [] => true
  | b :: _ => r a b && adjacentAll r l'
  end
end.

(** Ascending by time. *)
Definition sortedByTime (l : list LyricsLine) : Prop :=
StronglySorted (fun a b => (t a <= t b)%Q) l.

(** De-jittered: no two neighbours with the same text lie within [gap]
    seconds of each other. *)
Definition dejittered (gap : Q) (l : list LyricsLine) : Prop :=
adjacentAll (keepLine gap) l = true.

(** [l1] is [l2] with some elements left out, order kept. *)
Inductive subseq {A : Type} : list A -> list A -> Prop :=
| subseq_nil : subseq [] []
| subseq_skip : forall x l1 l2, subseq l1 l2 -> subseq l1 (x :: l2)
| subseq_take : forall x l1 l2, subseq l1 l2 -> subseq (x :: l1) (x :: l2).

(** The de-duplication loop once an entry [prev] has been kept. *)
Fixpoint dedupeFrom {A : Type} (keep : A -> A -> bool) (prev : A) (l : list A) : list A :=
match l with
| [] => []
| item :: l' =>
  if keep prev item then item :: dedupeFrom keep item l'
  else dedupeFrom keep prev l'
end.

(** The four script families of [detectScript] and their counts. *)
Definition familyCount (c : ScriptCounts) (s : ScriptType) : nat :=
match s with
| latin => c_latin c
| korean => c_hangul c
| japanese => c_japanese c
| cyrillic => c_cyrillic c
| mixed | unknown => 0
end.


(** All classifiable characters together. *)
Definition classifiableCount (c : ScriptCounts) : nat :=
(c_latin c + c_hangul c + c_japanese c + c_cyrillic c)%nat.


(** The mode invariant of a candidate. *)
Definition modeInvariantb (c : LyricsCandidate) : bool :=
match mode c with
| timed => nonEmpty (lines c)
| plain => truthy (orEmpty (plainLyrics c)) && negb (nonEmpty (lines c))
end.

Definition modeInvariant (c : LyricsCandidate) : Prop :=
match mode c with
| timed => lines c <> []
| plain => orEmpty (plainLyrics c) <> [] /\ lines c = []
end.

(** The candidates of [pickTopCandidates]'s loop that are neither without
    fingerprint nor a repetition of an earlier fingerprint. *)
Fixpoint distinctByFingerprint {U : Runtime} (seen : list jsstring)
  (cands : list LyricsCandidate) : list LyricsCandidate :=
match cands with
| [] => []
| c :: rest =>
  if negb (truthy (fingerprintOf c)) || existsb (Js.eqb (fingerprintOf c)) seen
  then distinctByFingerprint seen rest
  else c :: distinctByFingerprint (fingerprintOf c :: seen) rest
end.

(** [n] calls of [getLyrics] in a row, with their results. *)
Fixpoint getLyricsTimes {U : Runtime} (n : nat) (vid : jsstring) : M (list LyricsResponse) :=
match n with
| O => ret []
| S k =>
  bind (getLyrics vid) (fun r =>
  bind (getLyricsTimes k vid) (fun rs => ret (r :: rs)))
end.

(** Every value a computation can return satisfies [P]. *)
Definition ensures {A : Type} (m : M A) (P : A -> Prop) : Prop :=
forall st a st', m st = (Returned a, st') -> P a.

(** The cache directory of the video is there or can be made. *)
Definition dirReady (w : World) (vid : jsstring) : bool :=
hasFiles (dirs w vid) || cacheDirReady w vid.

(** Results that [JSON.stringify] and [readCachedLyrics] carry over
    unchanged: finite numbers, and a [syncMethod] on the result and on each
    of its candidates. *)
Definition finiteLine (l : LyricsLine) : Prop := isFiniteQ (t l) = true.

Definition persistable (c : LyricsCandidate) : Prop :=
Forall finiteLine (lines c) /\ isFiniteQ (score c) = true /\ syncMethod c <> None.

Definition persistableResponse (r : LyricsResponse) : Prop :=
Forall finiteLine (r_lines r) /\ r_syncMethod r <> None
/\ exists cs, candidates r = Some cs /\ Forall persistable cs.

(** *** Normal forms of text *)

(** White space is collapsed: every white-space code unit is U+0020 and no
    two of them are neighbours. *)
Fixpoint singleSpaced (s : jsstring) : bool :=
match s with
| [] => true
| c :: s' =>
  (if isSpace c
   then N.eqb c 32 && negb (match s' with d :: _ => isSpace d | [] => false end)
   else true)
  && singleSpaced s'
end.

(** No ['<'] is followed, anywhere later, by a ['>']. *)
Fixpoint noTag (s : jsstring) : bool :=
match s with
| [] => true
| c :: s' => (if N.eqb c 60 then negb (existsb (N.eqb 62) s') else true) && noTag s'
end.

(** The replacement of white-space runs by one space, as a scan with a
    flag for "inside a run". *)
Fixpoint collapse (inRun : bool) (s : jsstring) : jsstring :=
match s with
| [] => []
| c :: s' =>
  if isSpace c then (if inRun then collapse true s' else 32%N :: collapse true s')
  else c :: collapse false s'
end.

(** The replacement of three newlines or more by two, as a scan that
    keeps the first two newlines of every run; [run] counts the newlines
    just passed, up to 2. *)
Fixpoint squeeze (run : nat) (s : jsstring) : jsstring :=
match s with
| [] => []
| c :: s' =>
  if N.eqb 10 c
  then (if Nat.ltb run 2 then c :: squeeze (Nat.min 2 (S run)) s'
        else squeeze (Nat.min 2 (S run)) s')
  else c :: squeeze 0%nat s'
end.

Definition threeNewlines : jsstring := [10; 10; 10]%N.

(** A non-empty string of decimal digits. *)
Definition allDigits (s : jsstring) : Prop := s <> [] /\ forallb isDigit s = true.

(** A double without the sign bit, or NaN. *)
Definition notNegative (x : spec_float) : Prop :=
match x with
| S754_zero s | S754_infinity s | S754_finite s _ _ => s = false
| S754_nan => True
end.

(** *** Characters and counts *)

(** A code unit that one of the six counters counts. *)
Definition isClassifiable (c : N) : bool :=
isLatin c || isHangul c || isHiragana c || isKatakana c || isHan c || isCyrillic c.

Definition countOf (p : N -> bool) (s : jsstring) : nat := List.length (filter p s).

Definition b2n (b : bool) : nat := if b then 1%nat else 0%nat.

(** [{ ...c, source }]. *)
Definition withSource (c : LyricsCandidate) (s : Source) : LyricsCandidate :=
mkCandidate (id c) (label c) s (mode c) (lines c) (plainLyrics c) (syncMethod c) (score c).

(** *** Lines and segments *)

(** A line as the parsers emit it: a finite time and a non-empty text in
    the normal form of [cleanCaptionText]. *)
Definition wellFormedLine (l : LyricsLine) : Prop :=
isFiniteQ (t l) = true /\ text l <> []
/\ trim (text l) = text l /\ singleSpaced (text l) = true.

Definition segmentLine (s : WhisperSegment) : LyricsLine := mkLine (start s) (seg_text s).

Definition finiteSegment (s : WhisperSegment) : Prop := isFiniteQ (start s) = true.

(** A segment that [parseWhisperSegments] keeps as it is. *)
Definition cleanSegment (s : WhisperSegment) : bool :=
isFiniteQ (start s) && Qle_bool 0 (start s) && truthy (seg_text s)
&& Js.eqb (cleanCaptionText (seg_text s)) (seg_text s).

(** *** Catalog hits *)

(** A value that is truthy and no string: a string method called on it
    throws a [TypeError]. *)
Definition truthyNonString (v : option json) : bool :=
match v with
| Some (JStr _) => false
| Some j => truthyJ j
| None => false
end.

Definition keyOf {U : Runtime} (e : ScriptType) (c : CatalogCandidate) : jsstring :=
match catalogKey e c with Some key => key | None => [] end.

(** The hits [fetchCatalogLyricsCandidates] makes of what it collected. *)
Definition rankedHits {U : Runtime} (e : ScriptType) (collected : list CatalogCandidate)
  : list CatalogCandidate :=
firstn 6 (sortBy byCatalogScoreDesc (dedupeCatalog e [] (sortBy byCatalogScoreDesc collected))).

Definition goodHits {U : Runtime} (e : ScriptType) (hits : list CatalogCandidate) : Prop :=
(List.length hits <= 6)%nat
/\ StronglySorted (fun a b => (cat_score b <= cat_score a)%Z) hits
/\ Forall (fun c => catalogKey e c <> None) hits
/\ NoDup (List.map (keyOf e) hits).

(** *** Effects *)

(** A computation that returns in every state, with what it returns and
    the events it adds to the trace satisfying [Q]. *)
Definition uses {A : Type} (m : M A) (Q : A -> list Event -> Prop) : Prop :=
forall st, exists a evs,
fst (m st) = Returned a /\ trace (snd (m st)) = trace st ++ evs /\ Q a evs.

(** Whether it returns or throws, the events a computation adds to the
    trace satisfy [Q]. *)
Definition traces {A : Type} (m : M A) (Q : list Event -> Prop) : Prop :=
forall st, exists evs, trace (snd (m st)) = trace st ++ evs /\ Q evs.

(** The world a computation leaves is related by [I] to the one it found. *)
Definition keeps {A : Type} (m : M A) (I : World -> World -> Prop) : Prop :=
forall st, I (world st) (world (snd (m st))).

Definition isCatalogRequest (e : Event) : bool :=
match e with
| CatalogGet _ _ | CatalogSearch _ => true
| _ => false
end.

Definition oneOrNone (e : Event) (evs : list Event) : Prop := evs = [] \/ evs = [e].

(** The calls of one transcription attempt. *)
Definition whisperTrace (vid : jsstring) (evs : list Event) : Prop :=
exists aud tr, evs = aud ++ tr
/\ oneOrNone (AudioFetch vid) aud /\ oneOrNone (Transcription vid) tr.

(** The calls one run of the pipeline for [vid] can make, in their order:
    a subtitle fetch, catalog requests, an audio fetch, a transcription. *)
Definition pipelineTrace (vid : jsstring) (evs : list Event) : Prop :=
exists subs cats aud tr,
evs = subs ++ cats ++ aud ++ tr
/\ oneOrNone (SubtitleFetch vid) subs
/\ forallb isCatalogRequest cats = true /\ (List.length cats <= 8)%nat
/\ oneOrNone (AudioFetch vid) aud
/\ oneOrNone (Transcription vid) tr.

Definition sameTools (w w' : World) : Prop :=
cacheDirReady w' = cacheDirReady w
/\ ytDlpInstalled w' = ytDlpInstalled w /\ whisperInstalled w' = whisperInstalled w
/\ subtitles w' = subtitles w /\ audioDownload w' = audioDownload w
/\ transcribe w' = transcribe w /\ catalogGet w' = catalogGet w
/\ catalogSearch w' = catalogSearch w.

(** What a run for [vid] leaves alone: the tools and the collaborators,
    the directories of the other videos, the metadata of [vid], and an
    audio file of [vid] that is there. *)
Definition pipelineFrame (vid : jsstring) (w w' : World) : Prop :=
sameTools w w'
/\ (forall v, Js.eqb v vid = false -> dirs w' v = dirs w v)
/\ metaFile (dirs w' vid) = metaFile (dirs w vid)
/\ (audioFile (dirs w vid) = true -> audioFile (dirs w' vid) = true).

(** The same, and the cache document of [vid] as well. *)
Definition sourceFrame (vid : jsstring) (w w' : World) : Prop :=
pipelineFrame vid w w' /\ lyricsFile (dirs w' vid) = lyricsFile (dirs w vid).

(** A result in terms of its first candidate. *)
Definition headed (r : LyricsResponse) (selected : LyricsCandidate)
  (rest : list LyricsCandidate) : Prop :=
candidates r = Some (selected :: rest)
/\ selectedCandidateId r = Some (id selected)
/\ r_source r = source selected /\ r_mode r = mode selected
/\ r_lines r = lines selected /\ r_plainLyrics r = plainLyrics selected.

(** ** Inputs of the examples *)

Definition newline : jsstring := [10%N].

(** A music note, U+266A: neither a letter nor a number. *)
Definition musicNote : jsstring := [9834%N].




(** A subtitle file whose third cue starts before its second. *)
Definition outOfOrderVtt : jsstring :=
lit "WEBVTT" ++ newline ++ newline
++ lit "00:00:01.000 --> 00:00:02.000" ++ newline ++ lit "la" ++ newline ++ newline
++ lit "00:00:05.000 --> 00:00:06.000" ++ newline ++ lit "b" ++ newline ++ newline
++ lit "00:00:01.500 --> 00:00:02.500" ++ newline ++ lit "la" ++ newline.

Definition plainCandidate (name body : string) : LyricsCandidate :=
mkCandidate (lit name) (lit name) catalog plain [] (Some (lit body)) (Some sync_none) 0.

(** A captions candidate whose only line is a music note. *)
Definition noteCandidate : LyricsCandidate :=
captionsCandidate [mkLine 1 musicNote].

Definition threeCandidates : list LyricsCandidate :=
[plainCandidate "a" "abc"; plainCandidate "b" "Abc!"; plainCandidate "c" "xyz"].

(** Four lyric lines with the same text, and four segments 0.1s apart. *)
Definition repeatedLyrics : jsstring :=
lit "la" ++ newline ++ lit "la" ++ newline ++ lit "la" ++ newline ++ lit "la".

Definition distinctLyrics : jsstring :=
lit "one" ++ newline ++ lit "two" ++ newline ++ lit "three" ++ newline ++ lit "four".

Definition closeSegments : list WhisperSegment :=
[mkSegment 0 (lit "a"); mkSegment (1 # 10) (lit "b");
 mkSegment (2 # 10) (lit "c"); mkSegment (3 # 10) (lit "d")].

Definition emptyDir : VideoDir := mkVideoDir Missing Missing false.

(** No metadata, no cache, no tool installed, an empty catalog. *)
Definition quietWorld : World :=
mkWorld (fun _ => emptyDir) (fun _ => true) false false (fun _ _ => None) (fun _ => false)
  (fun _ => None) (fun _ _ => JNull) (fun _ => JNull).

Definition quietState : State := mkState quietWorld [].

(** An instrumental piece titled "1979": its captions and the catalog's
    synced lyrics both consist of a music note. *)
Definition noteVtt : jsstring :=
lit "WEBVTT" ++ newline ++ newline
++ lit "00:00:01.000 --> 00:00:04.000" ++ newline ++ musicNote ++ newline.

Definition noteTrack : json :=
JObj [(lit "trackName", JStr (lit "1979")); (lit "artistName", JStr (lit "1979"));
      (lit "plainLyrics", JNull);
      (lit "syncedLyrics", JStr (lit "[00:01.00]" ++ musicNote))].

Definition instrumentalWorld : World :=
mkWorld
  (fun _ =>
     mkVideoDir
       (Holds (JObj [(lit "title", JStr (lit "1979"));
                     (lit "channelTitle", JStr (lit "1979"))]))
       Missing false)
  (fun _ => true) true false (fun _ _ => Some (Some noteVtt)) (fun _ => false)
  (fun _ => None) (fun _ _ => noteTrack) (fun _ => JArr []).

Definition instrumentalState : State := mkState instrumentalWorld [].




(** Three videos the catalog step cannot handle: a title that ends in a
    surrogate without its partner, a catalog reply whose track name is a
    number, and a search result that is [null]. *)
Definition catalogOnlyWorld (title : jsstring) (direct results : json) : World :=
mkWorld
  (fun _ =>
     mkVideoDir
       (Holds (JObj [(lit "title", JStr title);
                     (lit "channelTitle", JStr (lit "Nobody"))]))
       Missing false)
  (fun _ => true) false false (fun _ _ => None) (fun _ => false)
  (fun _ => None) (fun _ _ => direct) (fun _ => results).

Definition loneSurrogateState : State :=
mkState (catalogOnlyWorld (lit "La" ++ [55357%N]) JNull JNull) [].

Definition numericNameState : State :=
mkState
  (catalogOnlyWorld (lit "1979")
     (JObj [(lit "trackName", JNum 1979); (lit "plainLyrics", JStr (lit "la"))])
     JNull)
  [].

Definition nullItemState : State :=
mkState (catalogOnlyWorld (lit "1979") JNull (JArr [JNull])) [].

(** A song with captions in the script of its title. *)
Definition songVtt : jsstring :=
lit "WEBVTT" ++ newline ++ newline
++ lit "00:00:01.000 --> 00:00:03.000" ++ newline ++ lit "Let it be" ++ newline
++ newline
++ lit "00:00:03.000 --> 00:00:05.000" ++ newline ++ lit "Whisper words of wisdom"
++ newline.

Definition songWorld : World :=
mkWorld
  (fun _ =>
     mkVideoDir
       (Holds (JObj [(lit "title", JStr (lit "Let It Be"));
                     (lit "channelTitle", JStr (lit "The Beatles"))]))
       Missing false)
  (fun _ => true) true false (fun _ _ => Some (Some songVtt)) (fun _ => false)
  (fun _ => None) (fun _ _ => JNull) (fun _ => JNull).

Definition songState : State := mkState songWorld [].

Definition songId : jsstring := lit "letitbe".

(** A cache document as [writeCachedLyrics] leaves it for a captions
    result of one line, the result it was written from, and a state of the
    song with that document. *)
Definition cachedDocument : json :=
JObj [(lit "videoId", JStr (lit "letitbe"));
      (lit "source", JStr (lit "captions"));
      (lit "mode", JStr (lit "timed"));
      (lit "lines",
       JArr [JObj [(lit "t", JNum 1); (lit "text", JStr (lit "Let it be"))]]);
      (lit "syncMethod", JStr (lit "native"));
      (lit "selectedCandidateId", JStr (lit "captions_vtt"));
      (lit "candidates",
       JArr [JObj [(lit "id", JStr (lit "captions_vtt"));
                   (lit "label", JStr (lit "YouTube captions"));
                   (lit "source", JStr (lit "captions"));
                   (lit "mode", JStr (lit "timed"));
                   (lit "lines",
                    JArr [JObj [(lit "t", JNum 1);
                                (lit "text", JStr (lit "Let it be"))]]);
                   (lit "syncMethod", JStr (lit "native"));
                   (lit "score", JNum 100)]])].

Definition cachedResult : LyricsResponse :=
mkResponse (lit "letitbe") captions timed [mkLine 1 (lit "Let it be")] None
  (Some native) (Some (lit "captions_vtt"))
  (Some [mkCandidate (lit "captions_vtt") (lit "YouTube captions") captions timed
           [mkLine 1 (lit "Let it be")] None (Some native) 100]).

Definition cachedState : State :=
mkState
  (mkWorld
     (fun _ =>
        mkVideoDir
          (Holds (JObj [(lit "title", JStr (lit "Let It Be"));
                        (lit "channelTitle", JStr (lit "The Beatles"))]))
          (Holds cachedDocument) false)
     (fun _ => false) true true (fun _ _ => Some (Some songVtt)) (fun _ => true)
     (fun _ => None) (fun _ _ => JNull) (fun _ => JNull))
  [].

(** The first resolution of the song, and the state it leaves. *)
Definition songResult : LyricsResponse :=
match fst (getLyrics (U := asciiRuntime) songId songState) with
| Returned r => r
| Thrown => noneResult songId
end.

Definition songStateAfter : State :=
snd (getLyrics (U := asciiRuntime) songId songState).

(** The state a resolution without any source leaves. *)
Definition quietStateAfter : State :=
snd (getLyrics (U := asciiRuntime) (lit "x") quietState).

(** A cache document written by hand: the time of its first line is a
    string, its second line is [null], and most fields are missing. *)
Definition sloppyDocument : json :=
JObj [(lit "videoId", JStr (lit "x"));
      (lit "lines",
       JArr [JObj [(lit "t", JStr (lit "1.5")); (lit "text", JStr (lit "la"))];
             JNull])].

Definition sloppyResult : LyricsResponse :=
match readCachedLyrics (lit "x") (Holds sloppyDocument) with
| Some r => r
| None => noneResult (lit "x")
end.

(** What the catalog source returns for the instrumental piece, and the
    state it leaves. *)
Definition instrumentalHits : list CatalogCandidate :=
match fst (fetchCatalogLyricsCandidates (U := asciiRuntime) (lit "x") unknown
             instrumentalState) with
| Returned hits => hits
| Thrown => []
end.

Definition instrumentalStateAfterCatalog : State :=
snd (fetchCatalogLyricsCandidates (U := asciiRuntime) (lit "x") unknown instrumentalState).

(** A cache directory with an English track, a Korean track marked
    "orig" and a file that is no caption file. *)
Definition captionDirectory : list jsstring :=
[lit "captions.ko-orig.vtt"; lit "notes.txt"; lit "captions.en.vtt"].

(** * Proofs *)

Unset Implicit Arguments.

Open Scope nat_scope.

(** ** Strings *)

Lemma Js_eqb_eq (a b : jsstring) : Js.eqb a b = true <-> a = b.
Proof.
revert b. induction a as [| x a IH]; intros [| y b]; simpl; split; intros H;
  try reflexivity; try discriminate.
- apply andb_true_iff in H. destruct H as [H1 H2].
  apply N.eqb_eq in H1. apply IH in H2. congruence.
- injection H as -> ->. rewrite N.eqb_refl. simpl. apply IH. reflexivity.
Qed.

Lemma Js_eqb_refl (a : jsstring) : Js.eqb a a = true.
Proof. apply Js_eqb_eq. reflexivity. Qed.

Lemma Js_eqb_neq (a b : jsstring) : Js.eqb a b = false <-> a <> b.
Proof.
split.
- intros H E. apply Js_eqb_eq in E. congruence.
- intros H. destruct (Js.eqb a b) eqn:E; [apply Js_eqb_eq in E; contradiction | reflexivity].
Qed.

(** ** Subsequences *)

Section Subseq.

Variable A : Type.

Lemma subseq_refl (l : list A) : subseq l l.
Proof. induction l; constructor; assumption. Qed.

Lemma subseq_nil_l (l : list A) : subseq [] l.
Proof. induction l; constructor; assumption. Qed.

Lemma subseq_trans (l1 l2 l3 : list A) :
subseq l1 l2 -> subseq l2 l3 -> subseq l1 l3.
Proof.
intros H12 H23. revert l1 H12.
induction H23 as [| x la lb H IH | x la lb H IH]; intros l0 H12.
- exact H12.
- constructor. apply IH. exact H12.
- inversion H12 as [| y lc ld H' | y lc ld H']; subst.
  + apply subseq_skip. apply IH. exact H'.
  + apply subseq_take. apply IH. exact H'.
Qed.

Lemma subseq_In (l1 l2 : list A) (x : A) : subseq l1 l2 -> In x l1 -> In x l2.
Proof.
induction 1; simpl; intros Hin.
- assumption.
- right. apply IHsubseq. assumption.
- destruct Hin as [-> | Hin]; [left; reflexivity | right; apply IHsubseq; assumption].
Qed.

Lemma subseq_length (l1 l2 : list A) : subseq l1 l2 -> List.length l1 <= List.length l2.
Proof. induction 1; simpl; lia. Qed.

Lemma subseq_Forall (P : A -> Prop) (l1 l2 : list A) :
subseq l1 l2 -> Forall P l2 -> Forall P l1.
Proof.
intros Hs Hf. apply Forall_forall. intros x Hx.
eapply Forall_forall; [exact Hf |]. eapply subseq_In; eassumption.
Qed.

Lemma subseq_StronglySorted (R : A -> A -> Prop) (l1 l2 : list A) :
subseq l1 l2 -> StronglySorted R l2 -> StronglySorted R l1.
Proof.
induction 1; intros Hs.
- constructor.
- inversion Hs; subst. apply IHsubseq. assumption.
- inversion Hs; subst. constructor.
  + apply IHsubseq. assumption.
  + eapply subseq_Forall; eassumption.
Qed.

Lemma subseq_firstn (n : nat) (l : list A) : subseq (firstn n l) l.
Proof.
revert n. induction l as [| x l IH]; intros [| n]; simpl.
- constructor.
- constructor.
- apply subseq_nil_l.
- apply subseq_take. apply IH.
Qed.

Lemma subseq_app_l (l0 l1 l2 : list A) : subseq l1 l2 -> subseq (l0 ++ l1) (l0 ++ l2).
Proof. intros H. induction l0; simpl; [assumption | constructor; assumption]. Qed.

Lemma subseq_map (B : Type) (f : A -> B) (l1 l2 : list A) :
subseq l1 l2 -> subseq (List.map f l1) (List.map f l2).
Proof. induction 1; simpl; constructor; assumption. Qed.

Lemma subseq_NoDup (l1 l2 : list A) : subseq l1 l2 -> NoDup l2 -> NoDup l1.
Proof.
induction 1; intros Hn.
- constructor.
- inversion Hn; subst. apply IHsubseq. assumption.
- inversion Hn; subst. constructor.
  + intros Hin. apply H2. eapply subseq_In; eassumption.
  + apply IHsubseq. assumption.
Qed.

End Subseq.

(** ** The stable sort *)

Section SortFacts.

Variable A : Type.
Variable before : A -> A -> bool.

Let R (a b : A) : Prop := before a b = true.

Hypothesis before_total : forall a b, before a b = false -> before b a = true.

Lemma insertSorted_perm (x : A) (l : list A) :
Permutation (insertSorted before x l) (x :: l).
Proof.
induction l as [| y l IH]; simpl.
- apply Permutation_refl.
- destruct (before x y).
  + apply Permutation_refl.
  + eapply perm_trans; [apply perm_skip; exact IH | apply perm_swap].
Qed.

Lemma sortBy_perm (l : list A) : Permutation (sortBy before l) l.
Proof.
induction l as [| x l IH]; simpl.
- constructor.
- eapply perm_trans; [apply insertSorted_perm | apply perm_skip; exact IH].
Qed.

Lemma sortBy_length (l : list A) : List.length (sortBy before l) = List.length l.
Proof. apply Permutation_length, sortBy_perm. Qed.

Lemma insertSorted_HdRel (x a : A) (l : list A) :
R a x -> HdRel R a l -> HdRel R a (insertSorted before x l).
Proof.
intros Hax Hal. destruct l as [| y l]; simpl.
- constructor. assumption.
- destruct (before x y); constructor; [assumption | inversion Hal; assumption].
Qed.

Lemma insertSorted_Sorted (x : A) (l : list A) :
Sorted R l -> Sorted R (insertSorted before x l).
Proof.
induction 1 as [| y l Hs IH Hhd]; simpl.
- repeat constructor.
- destruct (before x y) eqn:E.
  + constructor; [constructor; assumption | constructor; exact E].
  + constructor; [exact IH |].
    apply insertSorted_HdRel; [apply before_total; exact E | assumption].
Qed.

Lemma sortBy_Sorted (l : list A) : Sorted R (sortBy before l).
Proof.
induction l as [| x l IH]; simpl; [constructor | apply insertSorted_Sorted; exact IH].
Qed.

End SortFacts.

(** ** The de-duplication loop *)

Section DedupeFacts.

Variable A : Type.
Variable keep : A -> A -> bool.

Lemma dedupe_go_from (l : list A) : forall prev acc,
dedupe_go keep (prev :: acc) l = rev acc ++ prev :: dedupeFrom keep prev l.
Proof.
induction l as [| item l IH]; intros prev acc; simpl.
- reflexivity.
- destruct (keep prev item).
  + rewrite IH. simpl. rewrite <- app_assoc. reflexivity.
  + apply IH.
Qed.

Lemma dedupeAdjacent_cons (x : A) (l : list A) :
dedupeAdjacent keep (x :: l) = x :: dedupeFrom keep x l.
Proof. unfold dedupeAdjacent. simpl. apply (dedupe_go_from l x []). Qed.

Lemma dedupeFrom_subseq (l : list A) : forall prev, subseq (dedupeFrom keep prev l) l.
Proof.
induction l as [| item l IH]; intros prev; simpl.
- constructor.
- destruct (keep prev item); constructor; apply IH.
Qed.

Lemma dedupeAdjacent_subseq (l : list A) : subseq (dedupeAdjacent keep l) l.
Proof.
destruct l as [| x l].
- constructor.
- rewrite dedupeAdjacent_cons. apply subseq_take. apply dedupeFrom_subseq.
Qed.

Lemma dedupeFrom_adjacent (l : list A) : forall prev,
adjacentAll keep (prev :: dedupeFrom keep prev l) = true.
Proof.
induction l as [| item l IH]; intros prev.
- reflexivity.
- simpl dedupeFrom. destruct (keep prev item) eqn:E.
  + change (keep prev item && adjacentAll keep (item :: dedupeFrom keep item l) = true).
    rewrite E, IH. reflexivity.
  + apply IH.
Qed.

Lemma dedupeAdjacent_adjacent (l : list A) : adjacentAll keep (dedupeAdjacent keep l) = true.
Proof.
destruct l as [| x l].
- reflexivity.
- rewrite dedupeAdjacent_cons. apply dedupeFrom_adjacent.
Qed.

Lemma dedupeFrom_id (l : list A) : forall prev,
adjacentAll keep (prev :: l) = true -> dedupeFrom keep prev l = l.
Proof.
induction l as [| item l IH]; intros prev H.
- reflexivity.
- change (keep prev item && adjacentAll keep (item :: l) = true) in H.
  apply andb_true_iff in H. destruct H as [H1 H2].
  simpl. rewrite H1. f_equal. apply IH. exact H2.
Qed.

Lemma dedupeAdjacent_id (l : list A) :
adjacentAll keep l = true -> dedupeAdjacent keep l = l.
Proof.
destruct l as [| x l]; intros H.
- reflexivity.
- rewrite dedupeAdjacent_cons. f_equal. apply dedupeFrom_id. exact H.
Qed.

Lemma dedupeAdjacent_nonempty (l : list A) : l <> [] -> dedupeAdjacent keep l <> [].
Proof.
destruct l as [| x l]; intros H.
- contradiction.
- rewrite dedupeAdjacent_cons. discriminate.
Qed.

End DedupeFacts.

(** ** Ordering by time *)

Lemma byTime_le (a b : LyricsLine) : byTime a b = true <-> (t a <= t b)%Q.
Proof. unfold byTime. apply Qle_bool_iff. Qed.

Lemma byTime_total (a b : LyricsLine) : byTime a b = false -> byTime b a = true.
Proof.
intros H. apply byTime_le.
destruct (Qlt_le_dec (t a) (t b)) as [Hlt | Hle]; [| exact Hle].
assert (E : byTime a b = true) by (apply byTime_le, Qlt_le_weak, Hlt).
congruence.
Qed.

Lemma sortBy_byTime_sorted (l : list LyricsLine) : sortedByTime (sortBy byTime l).
Proof.
unfold sortedByTime.
assert (S : Sorted (fun a b => (t a <= t b)%Q) (sortBy byTime l)).
{ generalize (sortBy_Sorted _ byTime byTime_total l).
  generalize (sortBy byTime l). intros l0 H.
  induction H as [| x l1 Hs IH Hhd]; constructor.
  - exact IH.
  - destruct Hhd; constructor. apply byTime_le. assumption. }
apply Sorted_StronglySorted; [| exact S].
intros a b c Hab Hbc. eapply Qle_trans; eassumption.
Qed.

(** [parseLrc] sorts before it de-duplicates: its output is ascending by
    time and de-jittered at 0.8s, whatever the input. *)
Lemma parseLrc_sorted_dejittered (content : jsstring) :
sortedByTime (parseLrc content) /\ dejittered (8 # 10) (parseLrc content).
Proof.
unfold parseLrc, dejittered. cbv zeta. split.
- eapply subseq_StronglySorted; [apply dedupeAdjacent_subseq | apply sortBy_byTime_sorted].
- apply dedupeAdjacent_adjacent.
Qed.

(** [parseVtt] sorts last: its output is ascending by time. *)
Lemma parseVtt_sorted (content : jsstring) : sortedByTime (parseVtt content).
Proof. unfold parseVtt. cbv zeta. apply sortBy_byTime_sorted. Qed.

(** ** Script classifier *)

Ltac nat_cases :=
repeat match goal with
| |- context [Nat.leb ?a ?b] => destruct (Nat.leb_spec a b)
| |- context [Nat.ltb ?a ?b] => destruct (Nat.ltb_spec a b)
| |- context [Nat.eqb ?a ?b] => destruct (Nat.eqb_spec a b)
end.






(** X30: for counts below 4096 the binary64 expression [Math.floor(n * 0.6)]
    is the integer part of [3n/5]. *)
Lemma floor06_three_fifths (n : nat) : n < 4096 -> floor06 n = 3 * n / 5.
Proof.
intros H.
assert (A : forallb (fun k => Nat.eqb (floor06 k) (3 * k / 5)) (seq 0 4096) = true)
  by (vm_compute; reflexivity).
rewrite forallb_forall in A. apply Nat.eqb_eq. apply A. apply in_seq. lia.
Qed.

(** ** Rounding in binary64

    What [SFmul] does to the product of two mantissas: it cuts the product
    to 53 digits, rounding to nearest with ties to even. *)

Section Binary64Rounding.

Local Open Scope Z_scope.


Section IterPos.

Variable A : Type.
Variable f : A -> A.


End IterPos.













End Binary64Rounding.



(** ** Alignment *)

Lemma mapi_go_length {A B : Type} (f : A -> nat -> B) (l : list A) : forall i,
List.length (mapi_go f i l) = List.length l.
Proof. induction l as [| x l IH]; intros i; simpl; [reflexivity | rewrite IH; reflexivity]. Qed.

Lemma mapi_go_text (g : nat -> Q) (l : list jsstring) : forall i,
List.map text (mapi_go (fun line idx => mkLine (g idx) line) i l) = l.
Proof. induction l as [| x l IH]; intros i; simpl; [reflexivity | rewrite IH; reflexivity]. Qed.

Lemma distinct_texts_kept (gap : Q) (l : list LyricsLine) :
NoDup (List.map text l) -> adjacentAll (keepLine gap) l = true.
Proof.
induction l as [| a l IH]; intros H.
- reflexivity.
- destruct l as [| b l]; [reflexivity |].
  inversion H as [| x xs Hnotin Hnd]; subst.
  change (keepLine gap a b && adjacentAll (keepLine gap) (b :: l) = true).
  rewrite (IH Hnd). unfold keepLine.
  assert (E : Js.eqb (text a) (text b) = false).
  { apply Js_eqb_neq. intros E. apply Hnotin. simpl. left. symmetry. exact E. }
  rewrite E. reflexivity.
Qed.

(** C9 (as the code has it): with fewer than 4 lyric lines or fewer than 4
    segments the alignment is empty.  With at least 4 of each it is not
    empty, ascending by time, made of lyric lines of the text, and has at
    most as many lines as the plain text; it has exactly as many when the
    lyric lines are pairwise different, since only a line repeating the
    text of the line kept before it within 0.5s is dropped. *)
Theorem alignPlainLyricsWithSegments_shape (plainText : jsstring) (segs : list WhisperSegment) :
let lyricLines := splitPlainLyrics plainText in
let aligned := alignPlainLyricsWithSegments plainText segs in
(List.length lyricLines < 4 \/ List.length segs < 4 -> aligned = [])
/\ (4 <= List.length lyricLines -> 4 <= List.length segs ->
    aligned <> []
    /\ sortedByTime aligned
    /\ List.length aligned <= List.length lyricLines
    /\ (forall l, In l aligned -> In (text l) lyricLines)
    /\ (NoDup lyricLines -> List.length aligned = List.length lyricLines)).
Proof.
cbv zeta. unfold alignPlainLyricsWithSegments. cbv zeta.
set (lyricLines := splitPlainLyrics plainText).
set (g := fun idx => nth (segIndex (List.length lyricLines) (List.length segs) idx)
                         (List.map start segs) 0%Q).
set (timedLines := mapi (fun line idx => mkLine (g idx) line) lyricLines).
assert (Hlen : List.length timedLines = List.length lyricLines)
  by apply mapi_go_length.
assert (Htxt : List.map text timedLines = lyricLines) by apply mapi_go_text.
assert (Hperm : Permutation (sortBy byTime timedLines) timedLines)
  by apply sortBy_perm.
split.
- intros [H | H].
  + apply Nat.ltb_lt in H. rewrite H. reflexivity.
  + apply Nat.ltb_lt in H. rewrite H, orb_true_r. reflexivity.
- intros H1 H2.
  assert (E1 : Nat.ltb (List.length lyricLines) 4 = false) by (apply Nat.ltb_ge; exact H1).
  assert (E2 : Nat.ltb (List.length segs) 4 = false) by (apply Nat.ltb_ge; exact H2).
  rewrite E1, E2. cbn [orb].
  change (dedupeAdjacent (keepLine (5 # 10)) (sortBy byTime timedLines) <> []
    /\ sortedByTime (dedupeAdjacent (keepLine (5 # 10)) (sortBy byTime timedLines))
    /\ List.length (dedupeAdjacent (keepLine (5 # 10)) (sortBy byTime timedLines))
       <= List.length lyricLines
    /\ (forall l, In l (dedupeAdjacent (keepLine (5 # 10)) (sortBy byTime timedLines)) ->
        In (text l) lyricLines)
    /\ (NoDup lyricLines ->
        List.length (dedupeAdjacent (keepLine (5 # 10)) (sortBy byTime timedLines))
        = List.length lyricLines)).
  assert (Hsub := dedupeAdjacent_subseq _ (keepLine (5 # 10)) (sortBy byTime timedLines)).
  repeat split.
  + apply dedupeAdjacent_nonempty. intros E.
    apply (f_equal (@List.length _)) in E.
    change (List.length (sortBy byTime timedLines) = 0) in E.
    rewrite (sortBy_length _ byTime timedLines), Hlen in E.
    simpl in E. lia.
  + eapply subseq_StronglySorted; [exact Hsub | apply sortBy_byTime_sorted].
  + rewrite <- Hlen, <- (sortBy_length _ byTime timedLines).
    apply subseq_length. exact Hsub.
  + intros l Hl. rewrite <- Htxt. apply in_map.
    eapply Permutation_in; [exact Hperm |]. eapply subseq_In; eassumption.
  + intros Hnd. rewrite dedupeAdjacent_id.
    * rewrite (sortBy_length _ byTime timedLines). exact Hlen.
    * apply distinct_texts_kept.
      apply (Permutation_NoDup (l := List.map text timedLines)).
      -- apply Permutation_sym, Permutation_map. exact Hperm.
      -- rewrite Htxt. exact Hnd.
Qed.

(** ** The top set *)

Section TopSet.

Context {U : Runtime}.

(** How many candidates the loop keeps at most: the limit rounded up to a
    whole number, and at least one. *)
Lemma reaches_ceiling (count : nat) (q : Q) :
reaches count (Some q) = true <-> (Qceiling q <= Z.of_nat count)%Z.
Proof.
unfold reaches. rewrite Qle_bool_iff. split; intros H.
- pose proof (Qceiling_lt q) as Hc.
  assert (Hlt : (inject_Z (Qceiling q - 1) < inject_Z (Z.of_nat count))%Q)
    by (eapply Qlt_le_trans; eassumption).
  rewrite <- Zlt_Qlt in Hlt. lia.
- eapply Qle_trans; [apply Qle_ceiling |]. rewrite <- Zle_Qle. exact H.
Qed.

Lemma pickTop_go_firstn (q : Q) (cands : list LyricsCandidate) : forall seen out,
pickTop_go (Some q) seen out cands =
rev out ++ firstn (Z.to_nat (Z.max 1 (Qceiling q - Z.of_nat (List.length out))))
             (distinctByFingerprint seen cands).
Proof.
induction cands as [| c rest IH]; intros seen out.
- simpl. rewrite firstn_nil, app_nil_r. reflexivity.
- cbn [pickTop_go distinctByFingerprint].
  destruct (negb (truthy (fingerprintOf c))); cbn [orb]; [apply IH |].
  destruct (existsb (Js.eqb (fingerprintOf c)) seen); [apply IH |].
  destruct (reaches (List.length (c :: out)) (Some q)) eqn:Er.
  + apply reaches_ceiling in Er. cbn [List.length] in Er.
    replace (Z.to_nat (Z.max 1 (Qceiling q - Z.of_nat (List.length out)))) with 1 by lia.
    reflexivity.
  + assert (Hgt : (Z.of_nat (List.length (c :: out)) < Qceiling q)%Z).
    { destruct (Z_lt_le_dec (Z.of_nat (List.length (c :: out))) (Qceiling q)) as [H | H];
        [exact H |].
      apply reaches_ceiling in H. congruence. }
    rewrite IH. cbn [List.length rev] in *.
    replace (Z.to_nat (Z.max 1 (Qceiling q - Z.of_nat (List.length out))))
      with (S (Z.to_nat (Z.max 1 (Qceiling q - Z.of_nat (S (List.length out)))))) by lia.
    cbn [firstn]. rewrite <- app_assoc. reflexivity.
Qed.

(** Against a NaN limit the loop never stops early. *)
Lemma pickTop_go_all (cands : list LyricsCandidate) : forall seen out,
pickTop_go None seen out cands = rev out ++ distinctByFingerprint seen cands.
Proof.
induction cands as [| c rest IH]; intros seen out.
- simpl. rewrite app_nil_r. reflexivity.
- cbn [pickTop_go distinctByFingerprint reaches].
  destruct (negb (truthy (fingerprintOf c))); cbn [orb]; [apply IH |].
  destruct (existsb (Js.eqb (fingerprintOf c)) seen); [apply IH |].
  rewrite IH. cbn [rev]. rewrite <- app_assoc. reflexivity.
Qed.

Lemma distinct_subseq (cands : list LyricsCandidate) : forall seen,
subseq (distinctByFingerprint seen cands) cands.
Proof.
induction cands as [| c rest IH]; intros seen; simpl.
- constructor.
- destruct (negb (truthy (fingerprintOf c)) || existsb (Js.eqb (fingerprintOf c)) seen).
  + apply subseq_skip, IH.
  + apply subseq_take, IH.
Qed.

Lemma existsb_eqb_In (x : jsstring) (l : list jsstring) :
existsb (Js.eqb x) l = true <-> In x l.
Proof.
rewrite existsb_exists. split.
- intros [y [Hy E]]. apply Js_eqb_eq in E. subst. exact Hy.
- intros H. exists x. split; [exact H | apply Js_eqb_refl].
Qed.

Lemma distinct_fresh (cands : list LyricsCandidate) : forall seen c,
In c (distinctByFingerprint seen cands) ->
fingerprintOf c <> [] /\ ~ In (fingerprintOf c) seen.
Proof.
induction cands as [| x rest IH]; intros seen c Hin; simpl in Hin.
- contradiction.
- destruct (truthy (fingerprintOf x)) eqn:Et; cbn [negb orb] in Hin.
  + destruct (existsb (Js.eqb (fingerprintOf x)) seen) eqn:Es.
    * apply IH. exact Hin.
    * destruct Hin as [-> | Hin].
      -- split.
         ++ intros E. rewrite E in Et. discriminate.
         ++ intros Hs. apply existsb_eqb_In in Hs. congruence.
      -- destruct (IH _ _ Hin) as [H1 H2]. split; [exact H1 |].
         intros Hs. apply H2. right. exact Hs.
  + apply IH. exact Hin.
Qed.

Lemma distinct_NoDup (cands : list LyricsCandidate) : forall seen,
NoDup (List.map fingerprintOf (distinctByFingerprint seen cands)).
Proof.
induction cands as [| x rest IH]; intros seen; simpl.
- constructor.
- destruct (negb (truthy (fingerprintOf x)) || existsb (Js.eqb (fingerprintOf x)) seen).
  + apply IH.
  + simpl. constructor; [| apply IH].
    intros Hin. apply in_map_iff in Hin. destruct Hin as [c [E Hc]].
    apply distinct_fresh in Hc. destruct Hc as [_ Hc]. apply Hc.
    left. symmetry. exact E.
Qed.

Lemma distinct_first (cands : list LyricsCandidate) : forall seen c,
In c (distinctByFingerprint seen cands) ->
find (fun x => Js.eqb (fingerprintOf x) (fingerprintOf c)) cands = Some c.
Proof.
induction cands as [| x rest IH]; intros seen c Hin; simpl in Hin.
- contradiction.
- simpl.
  destruct (truthy (fingerprintOf x)) eqn:Et; cbn [negb orb] in Hin.
  + destruct (existsb (Js.eqb (fingerprintOf x)) seen) eqn:Es.
    * destruct (distinct_fresh _ _ _ Hin) as [_ Hfresh].
      destruct (Js.eqb (fingerprintOf x) (fingerprintOf c)) eqn:E.
      -- apply Js_eqb_eq in E. apply existsb_eqb_In in Es. rewrite E in Es. contradiction.
      -- eapply IH. exact Hin.
    * destruct Hin as [-> | Hin].
      -- rewrite Js_eqb_refl. reflexivity.
      -- destruct (distinct_fresh _ _ _ Hin) as [_ Hfresh].
         destruct (Js.eqb (fingerprintOf x) (fingerprintOf c)) eqn:E.
         ++ apply Js_eqb_eq in E. exfalso. apply Hfresh. left. exact E.
         ++ eapply IH. exact Hin.
  + destruct (distinct_fresh _ _ _ Hin) as [Hne _].
    destruct (Js.eqb (fingerprintOf x) (fingerprintOf c)) eqn:E.
    * apply Js_eqb_eq in E. rewrite <- E in Hne.
      destruct (fingerprintOf x); [contradiction | discriminate].
    * eapply IH. exact Hin.
Qed.

Lemma pickTopCandidates_many (cands : list LyricsCandidate) (q : Q) :
2 <= List.length cands ->
pickTopCandidates cands (Some q) =
firstn (Z.to_nat (Z.max 1 (Qceiling q))) (distinctByFingerprint [] cands).
Proof.
intros H. unfold pickTopCandidates.
destruct (Nat.leb_spec (List.length cands) 1); [lia |].
rewrite pickTop_go_firstn. simpl. rewrite Z.sub_0_r. reflexivity.
Qed.

Lemma pickTopCandidates_nan (cands : list LyricsCandidate) :
2 <= List.length cands ->
pickTopCandidates cands None = distinctByFingerprint [] cands.
Proof.
intros H. unfold pickTopCandidates.
destruct (Nat.leb_spec (List.length cands) 1); [lia |].
apply pickTop_go_all.
Qed.

(** Whatever the limit, the loop returns the first distinct candidates. *)
Lemma pickTopCandidates_prefix (cands : list LyricsCandidate) (limit : number) :
2 <= List.length cands ->
exists k, pickTopCandidates cands limit = firstn k (distinctByFingerprint [] cands).
Proof.
intros H. destruct limit as [q |].
- eexists. apply pickTopCandidates_many. exact H.
- exists (List.length (distinctByFingerprint [] cands)).
  rewrite firstn_all. apply pickTopCandidates_nan. exact H.
Qed.

Lemma pickTopCandidates_subseq (cands : list LyricsCandidate) (limit : number) :
subseq (pickTopCandidates cands limit) cands.
Proof.
destruct (Nat.le_gt_cases (List.length cands) 1) as [H | H].
- unfold pickTopCandidates. destruct (Nat.leb_spec (List.length cands) 1); [| lia].
  unfold sliceEnd. cbv zeta. destruct (toInteger limit <? 0)%Z; apply subseq_firstn.
- destruct (pickTopCandidates_prefix cands limit H) as [k E]. rewrite E.
  eapply subseq_trans; [apply subseq_firstn | apply distinct_subseq].
Qed.

(** C8 (as the code has it): a list of at most one candidate is returned
    as it is, cut to the limit as [slice] cuts, without a look at its
    fingerprint.  For two candidates or more the result holds no
    candidate with an empty fingerprint and no two candidates with the
    same fingerprint, each member being the first candidate of the input
    with its fingerprint, and it keeps the input order.  Its members are
    the first candidates with a fingerprint of their own, as many as the
    limit rounded up to a whole number, and one for a limit below 1; so
    its length is at most the limit when this is a whole number from 1
    on.  A limit that is not a number cuts nothing. *)
Theorem pickTopCandidates_distinct (cands : list LyricsCandidate) (limit : number) :
let top := pickTopCandidates cands limit in
(List.length cands <= 1 -> top = sliceEnd limit cands)
/\ (2 <= List.length cands ->
    (forall c, In c top -> fingerprintOf c <> [])
    /\ NoDup (List.map fingerprintOf top)
    /\ (forall c, In c top ->
        find (fun x => Js.eqb (fingerprintOf x) (fingerprintOf c)) cands = Some c)
    /\ subseq top cands
    /\ (forall q, limit = Some q ->
        top = firstn (Z.to_nat (Z.max 1 (Qceiling q))) (distinctByFingerprint [] cands)
        /\ (Z.of_nat (List.length top) <= Z.max 1 (Qceiling q))%Z)
    /\ (forall n, limit = Some (inject_Z n) -> (1 <= n)%Z ->
        (Z.of_nat (List.length top) <= n)%Z)
    /\ (limit = None -> top = distinctByFingerprint [] cands)).
Proof.
cbv zeta. split.
- intros H. unfold pickTopCandidates.
  destruct (Nat.leb_spec (List.length cands) 1); [reflexivity | lia].
- intros H. destruct (pickTopCandidates_prefix cands limit H) as [k Ek].
  set (D := distinctByFingerprint [] cands) in *.
  assert (Hsub : subseq (pickTopCandidates cands limit) D)
    by (rewrite Ek; apply subseq_firstn).
  assert (Hq : forall q, limit = Some q ->
    pickTopCandidates cands limit
    = firstn (Z.to_nat (Z.max 1 (Qceiling q))) D
    /\ (Z.of_nat (List.length (pickTopCandidates cands limit)) <= Z.max 1 (Qceiling q))%Z).
  { intros q ->. rewrite (pickTopCandidates_many _ _ H). fold D. split; [reflexivity |].
    pose proof (firstn_le_length (Z.to_nat (Z.max 1 (Qceiling q))) D). lia. }
  split; [| split; [| split; [| split; [| split; [| split]]]]].
  + intros c Hc. eapply distinct_fresh. eapply subseq_In; [exact Hsub | exact Hc].
  + eapply subseq_NoDup; [apply subseq_map; exact Hsub | apply distinct_NoDup].
  + intros c Hc. eapply distinct_first. eapply subseq_In; [exact Hsub | exact Hc].
  + eapply subseq_trans; [exact Hsub | apply distinct_subseq].
  + exact Hq.
  + intros n E Hn. destruct (Hq _ E) as [_ Hl]. rewrite Qceiling_Z in Hl. lia.
  + intros ->. apply pickTopCandidates_nan. exact H.
Qed.

End TopSet.

(** ** Orchestrator *)

Lemma ensures_ret {A : Type} (a : A) (P : A -> Prop) : P a -> ensures (ret a) P.
Proof. intros H st b st' E. inversion E; subst. exact H. Qed.

Lemma ensures_bind {A B : Type} (m : M A) (k : A -> M B) (P : A -> Prop) (Q : B -> Prop) :
ensures m P -> (forall a, P a -> ensures (k a) Q) -> ensures (bind m k) Q.
Proof.
intros Hm Hk st b st' E. unfold bind in E.
destruct (m st) as [[a |] st1] eqn:Em; [| discriminate].
eapply Hk; [eapply Hm; exact Em | exact E].
Qed.

Lemma ensures_any {A : Type} (m : M A) : ensures m (fun _ => True).
Proof. intros st a st' _. exact I. Qed.

Lemma ensures_weaken {A : Type} (m : M A) (P Q : A -> Prop) :
(forall a, P a -> Q a) -> ensures m P -> ensures m Q.
Proof. intros H Hm st a st' E. apply H. eapply Hm. exact E. Qed.

Section Orchestrator.

Context {U : Runtime}.

Lemma ensureVideoCacheDir_run (vid : jsstring) (st : State) :
ensureVideoCacheDir vid st
= (if dirReady (world st) vid then Returned tt else Thrown, st).
Proof.
unfold ensureVideoCacheDir, dirReady, bind, getDir, ask, guard.
destruct (hasFiles (dirs (world st) vid)); [reflexivity |].
destruct (cacheDirReady (world st) vid); reflexivity.
Qed.

Lemma readCachedLyrics_holds (vid : jsstring) (f : FileState) (r : LyricsResponse) :
readCachedLyrics vid f = Some r -> isPresent f = true.
Proof. destruct f; [discriminate | discriminate | reflexivity]. Qed.

Lemma reusableCache_ready (vid : jsstring) (w : World) (e : ScriptType) (r : LyricsResponse) :
reusableCache vid (dirs w vid) e = Some r -> dirReady w vid = true.
Proof.
unfold reusableCache, dirReady, hasFiles.
destruct (readCachedLyrics vid (lyricsFile (dirs w vid))) as [c |] eqn:E; [| discriminate].
intros _. rewrite (readCachedLyrics_holds _ _ _ E).
destruct (isPresent (metaFile (dirs w vid))); reflexivity.
Qed.

Lemma getLyrics_cached (vid : jsstring) (st : State) (cached : LyricsResponse) :
reusableCache vid (dirs (world st) vid) (expectedScriptOf (dirs (world st) vid)) = Some cached ->
getLyrics vid st = (Returned cached, st).
Proof.
intros H. unfold getLyrics. unfold bind at 1.
rewrite ensureVideoCacheDir_run, (reusableCache_ready _ _ _ _ H).
unfold bind, getDir, ask. rewrite H. reflexivity.
Qed.

Lemma getLyrics_fresh (vid : jsstring) (st : State) :
reusableCache vid (dirs (world st) vid) (expectedScriptOf (dirs (world st) vid)) = None ->
dirReady (world st) vid = true ->
getLyrics vid st =
bind (collectRawCandidates vid (expectedScriptOf (dirs (world st) vid)))
     (finalize vid (expectedScriptOf (dirs (world st) vid))) st.
Proof.
intros H Hd. unfold getLyrics at 1. unfold bind at 1.
rewrite ensureVideoCacheDir_run, Hd.
unfold bind at 1. unfold getDir, ask. rewrite H. reflexivity.
Qed.

(** Without the directory [getLyrics] ends where it starts. *)
Lemma getLyrics_without_dir (vid : jsstring) (st : State) :
dirReady (world st) vid = false -> getLyrics vid st = (Thrown, st).
Proof.
intros Hd. unfold getLyrics. unfold bind at 1.
rewrite ensureVideoCacheDir_run, Hd. reflexivity.
Qed.

Lemma getLyrics_ready (vid : jsstring) (st st' : State) (r : LyricsResponse) :
getLyrics vid st = (Returned r, st') -> dirReady (world st) vid = true.
Proof.
intros E. destruct (dirReady (world st) vid) eqn:Hd; [reflexivity |].
rewrite (getLyrics_without_dir _ _ Hd) in E. discriminate.
Qed.

Lemma readCachedLyrics_videoId (vid : jsstring) (f : FileState) (r : LyricsResponse) :
readCachedLyrics vid f = Some r -> videoId r = vid.
Proof.
unfold readCachedLyrics. destruct f as [| | parsed]; try discriminate.
destruct (negb (truthyJ parsed)); [discriminate |].
destruct (prop "videoId" parsed) as [[| | | v | |] |]; try discriminate.
destruct (arrayOf (prop "lines" parsed)); [| discriminate].
destruct (Js.eqb v vid); [| discriminate].
intros E. inversion E. reflexivity.
Qed.


Lemma writeCachedLyrics_returns (r : LyricsResponse) (st : State) :
dirReady (world st) (videoId r) = true ->
exists st', writeCachedLyrics r st = (Returned tt, st')
/\ lyricsFile (dirs (world st') (videoId r)) = Holds (responseToJson r)
/\ trace st' = trace st.
Proof.
intros Hd. eexists. unfold writeCachedLyrics. unfold bind at 1.
rewrite ensureVideoCacheDir_run, Hd. unfold bind, getDir, ask, setDir.
split; [reflexivity |]. cbn [world dirs trace]. rewrite Js_eqb_refl. split; reflexivity.
Qed.

Lemma writeCachedLyrics_throws (r : LyricsResponse) (st : State) :
dirReady (world st) (videoId r) = false -> writeCachedLyrics r st = (Thrown, st).
Proof.
intros Hd. unfold writeCachedLyrics. unfold bind at 1.
rewrite ensureVideoCacheDir_run, Hd. reflexivity.
Qed.

(** What a write that returns leaves. *)
Lemma writeCachedLyrics_returned (r : LyricsResponse) (st st' : State) (u : unit) :
writeCachedLyrics r st = (Returned u, st') ->
lyricsFile (dirs (world st') (videoId r)) = Holds (responseToJson r)
/\ trace st' = trace st.
Proof.
intros E. destruct (dirReady (world st) (videoId r)) eqn:Hd.
- destruct (writeCachedLyrics_returns r st Hd) as [st1 [E1 H]].
  rewrite E1 in E. inversion E; subst. exact H.
- rewrite (writeCachedLyrics_throws r st Hd) in E. discriminate.
Qed.

Lemma writeCachedLyrics_trace (r : LyricsResponse) (st : State) :
trace (snd (writeCachedLyrics r st)) = trace st.
Proof.
destruct (dirReady (world st) (videoId r)) eqn:Hd.
- destruct (writeCachedLyrics_returns r st Hd) as [st1 [E1 [_ H]]]. rewrite E1. exact H.
- rewrite (writeCachedLyrics_throws r st Hd). reflexivity.
Qed.


(** What [finalize] returns for no raw candidate. *)
Lemma finalize_none_returned (vid : jsstring) (e : ScriptType) (st st' : State)
  (r : LyricsResponse) :
finalize vid e [] st = (Returned r, st') ->
r = noneResult vid
/\ lyricsFile (dirs (world st') vid) = Holds (responseToJson (noneResult vid))
/\ trace st' = trace st.
Proof.
unfold finalize, bind. intros E.
destruct (writeCachedLyrics (noneResult vid) st) as [[u |] st1] eqn:Ew; [| discriminate].
inversion E; subst. split; [reflexivity |].
apply (writeCachedLyrics_returned _ _ _ _ Ew).
Qed.

(** What [finalize] returns for at least one raw candidate. *)
Lemma finalize_some (vid : jsstring) (e : ScriptType) (raw : list LyricsCandidate) :
raw <> [] ->
ensures (finalize vid e raw) (fun r =>
  videoId r = vid
  /\ exists selected rest,
     pickTopCandidates
       (sortBy byScoreDesc
          (List.map (fun c => withScore c (inject_Z (scoreLyricsCandidate c e))) raw))
       (Some 3%Q)
     = selected :: rest
     /\ candidates r = Some (selected :: rest)
     /\ selectedCandidateId r = Some (id selected)
     /\ r_source r = source selected /\ r_mode r = mode selected
     /\ r_lines r = lines selected /\ r_plainLyrics r = plainLyrics selected).
Proof.
intros Hne st r st' E. destruct raw as [| c0 raw0]; [contradiction |].
unfold finalize in E. cbv zeta in E.
destruct (pickTopCandidates _ (Some 3%Q)) as [| selected rest] eqn:Etop; [discriminate |].
unfold bind in E.
destruct (writeCachedLyrics _ st) as [[u |] st1]; [| discriminate].
inversion E; subst. cbn.
split; [reflexivity |]. exists selected, rest. repeat split; reflexivity.
Qed.




(** The "none" result reads back from its document as itself. *)
Lemma readCachedLyrics_none (vid : jsstring) :
readCachedLyrics vid (Holds (responseToJson (noneResult vid))) = Some (noneResult vid).
Proof.
pose proof (Js_eqb_refl vid) as E.
vm_compute in E |- *. rewrite E. reflexivity.
Qed.

Lemma reusableCache_none (vid : jsstring) (d : VideoDir) (e : ScriptType) :
lyricsFile d = Holds (responseToJson (noneResult vid)) ->
reusableCache vid d e = Some (noneResult vid).
Proof.
intros H. unfold reusableCache. rewrite H, readCachedLyrics_none. reflexivity.
Qed.

(** C10: once the cache document of a video holds the "none" result,
    every call of [getLyrics] for that video, however many follow and
    whatever the metadata, returns the "none" result and leaves the state,
    trace included, as it was: no source is tried again. *)
Theorem getLyrics_none_is_final (vid : jsstring) (st : State) (n : nat) :
lyricsFile (dirs (world st) vid) = Holds (responseToJson (noneResult vid)) ->
getLyricsTimes n vid st = (Returned (repeat (noneResult vid) n), st).
Proof.
intros H. induction n as [| n IH].
- reflexivity.
- cbn [getLyricsTimes repeat]. unfold bind at 1.
  rewrite (getLyrics_cached vid st _ (reusableCache_none vid _ _ H)).
  unfold bind at 1. rewrite IH. reflexivity.
Qed.

End Orchestrator.

Section ModeInvariant.

Context {U : Runtime}.

Lemma nonEmpty_true {A : Type} (l : list A) : nonEmpty l = true -> l <> [].
Proof. destruct l; [discriminate | intros _; discriminate]. Qed.

Lemma truthy_true (s : jsstring) : truthy s = true -> s <> [].
Proof. destruct s; [discriminate | intros _; discriminate]. Qed.

Lemma catalogCandidate_modeInvariant (c : CatalogCandidate) (i : nat) :
Forall modeInvariant (catalogCandidate c i).
Proof.
unfold catalogCandidate. cbv zeta.
destruct (extractSyncedLines (track c)) as [| l ls].
- destruct (truthy (extractPlainLyrics (track c))) eqn:E; constructor; [| constructor].
  unfold modeInvariant. cbn. split; [apply truthy_true; exact E | reflexivity].
- constructor; [| constructor]. unfold modeInvariant. cbn. discriminate.
Qed.

Lemma alignedCandidate_modeInvariant (segs : list WhisperSegment) (c : LyricsCandidate) :
Forall modeInvariant (alignedCandidate segs c).
Proof.
unfold alignedCandidate.
destruct (alignPlainLyricsWithSegments (orEmpty (plainLyrics c)) segs) as [| l ls].
- constructor.
- constructor; [| constructor]. unfold modeInvariant. cbn. discriminate.
Qed.

Lemma Forall_concat {A : Type} (P : A -> Prop) (ls : list (list A)) :
Forall (Forall P) ls -> Forall P (List.concat ls).
Proof.
induction 1; simpl; [constructor | apply Forall_app; split; assumption].
Qed.

Lemma Forall_mapi_go {A B : Type} (P : B -> Prop) (f : A -> nat -> B) (l : list A) :
(forall x i, P (f x i)) -> forall i, Forall P (mapi_go f i l).
Proof.
intros H. induction l as [| x l IH]; intros i; simpl; constructor; [apply H | apply IH].
Qed.

Lemma Forall_flat_map {A B : Type} (P : B -> Prop) (f : A -> list B) (l : list A) :
(forall x, Forall P (f x)) -> Forall P (flat_map f l).
Proof.
intros H. induction l as [| x l IH]; simpl; [constructor | apply Forall_app; split; [apply H | exact IH]].
Qed.

Lemma collectRawCandidates_modeInvariant (vid : jsstring) (e : ScriptType) :
ensures (collectRawCandidates vid e) (Forall modeInvariant).
Proof.
unfold collectRawCandidates.
apply (ensures_bind _ _ (fun _ => True)); [apply ensures_any |].
intros subtitleFile _. cbv zeta.
set (raw1 := match subtitleFile with
             | Some (Some raw) => _
             | _ => []
             end).
assert (H1 : Forall modeInvariant raw1).
{ unfold raw1. destruct subtitleFile as [[raw |] |]; try constructor.
  destruct (nonEmpty (parseVtt raw)) eqn:En; cbn [andb]; [| constructor].
  destruct (isScriptCompatible _ e); constructor; [| constructor].
  unfold modeInvariant. cbn. apply nonEmpty_true. exact En. }
apply (ensures_bind _ _ (fun _ => True)); [apply ensures_any |].
intros catalogCandidates _.
set (raw2 := raw1 ++ List.concat (mapi catalogCandidate catalogCandidates)).
assert (H2 : Forall modeInvariant raw2).
{ apply Forall_app. split; [exact H1 |].
  apply Forall_concat. apply Forall_mapi_go. apply catalogCandidate_modeInvariant. }
apply (ensures_bind _ _ (Forall modeInvariant)).
- destruct (firstn 2 (filter isCatalogPlain raw2)) as [| p ps].
  + apply ensures_ret. exact H2.
  + apply (ensures_bind _ _ (fun _ => True)); [apply ensures_any |].
    intros segs _. destruct segs as [| s segs].
    * apply ensures_ret. exact H2.
    * apply ensures_ret. apply Forall_app. split; [exact H2 |].
      apply Forall_flat_map. apply alignedCandidate_modeInvariant.
- intros raw3 H3. destruct raw3 as [| c raw3].
  + apply (ensures_bind _ _ (fun _ => True)); [apply ensures_any |].
    intros sttSegments _. destruct sttSegments as [| s ss].
    * apply ensures_ret. constructor.
    * destruct (parseWhisperJson (stringifySegments (s :: ss))) as [| l ls].
      -- apply ensures_ret. constructor.
      -- apply ensures_ret. constructor; [| constructor].
         unfold modeInvariant. cbn. discriminate.
  + apply ensures_ret. exact H3.
Qed.

Lemma scored_modeInvariant (e : ScriptType) (raw : list LyricsCandidate) :
Forall modeInvariant raw ->
Forall modeInvariant
  (pickTopCandidates
     (sortBy byScoreDesc
        (List.map (fun c => withScore c (inject_Z (scoreLyricsCandidate c e))) raw))
     (Some 3%Q)).
Proof.
intros H. eapply subseq_Forall; [apply pickTopCandidates_subseq |].
eapply Permutation_Forall; [apply Permutation_sym, sortBy_perm |].
apply Forall_map. eapply Forall_impl; [| exact H].
intros c Hc. exact Hc.
Qed.

(** C4 (as the code has it): a result that [getLyrics] computes itself,
    no cached result being reused, is the "none" result or has a
    non-empty list of candidates that all satisfy the mode invariant:
    [timed] with lines, [plain] with text and without lines. *)
Theorem getLyrics_fresh_modeInvariant (vid : jsstring) (st st' : State) (r : LyricsResponse) :
reusableCache vid (dirs (world st) vid) (expectedScriptOf (dirs (world st) vid)) = None ->
getLyrics vid st = (Returned r, st') ->
r = noneResult vid
\/ (exists top, candidates r = Some top /\ top <> [] /\ Forall modeInvariant top).
Proof.
intros Hc E. rewrite (getLyrics_fresh _ _ Hc (getLyrics_ready _ _ _ _ E)) in E. revert E.
set (e := expectedScriptOf (dirs (world st) vid)).
intros E.
assert (Hens : ensures (bind (collectRawCandidates vid e) (finalize vid e))
  (fun r => r = noneResult vid
            \/ (exists top, candidates r = Some top /\ top <> [] /\ Forall modeInvariant top))).
{ apply (ensures_bind _ _ (Forall modeInvariant));
    [apply collectRawCandidates_modeInvariant |].
  intros raw Hraw. destruct raw as [| c raw].
  - intros st0 r0 st1 E0. left. apply (finalize_none_returned _ _ _ _ _ E0).
  - eapply ensures_weaken; [| apply finalize_some; discriminate].
    intros a [_ [selected [rest [Htop [Hcs _]]]]]. right.
    exists (selected :: rest). split; [exact Hcs |]. split; [discriminate |].
    rewrite <- Htop. apply scored_modeInvariant. exact Hraw. }
eapply Hens. exact E.
Qed.

End ModeInvariant.

(** ** When the orchestrator throws *)

Section Throws.

Context {U : Runtime}.

Lemma distinct_nil_iff (cands : list LyricsCandidate) :
distinctByFingerprint [] cands = [] <-> Forall (fun c => fingerprintOf c = []) cands.
Proof.
induction cands as [| c rest IH]; simpl.
- split; [intros _; constructor | reflexivity].
- destruct (fingerprintOf c) as [| x fp] eqn:E; cbn [truthy negb orb].
  + rewrite IH. split.
    * intros H. constructor; [exact E | exact H].
    * intros H. inversion H; assumption.
  + split; [discriminate |]. intros H. inversion H; subst. congruence.
Qed.

Lemma pickTopCandidates_nil_iff (cands : list LyricsCandidate) :
pickTopCandidates cands (Some 3%Q) = [] <->
cands = [] \/ (2 <= List.length cands /\ Forall (fun c => fingerprintOf c = []) cands).
Proof.
destruct (Nat.le_gt_cases (List.length cands) 1) as [H | H].
- unfold pickTopCandidates. destruct (Nat.leb_spec (List.length cands) 1); [| lia].
  replace (sliceEnd (Some 3%Q) cands) with (firstn 3 cands) by reflexivity.
  destruct cands as [| c [| c' rest]]; cbn [firstn].
  + split; [left; reflexivity | reflexivity].
  + split; [discriminate | intros [E | [E _]]; [discriminate | simpl in E; lia]].
  + simpl in H. lia.
- rewrite (pickTopCandidates_many _ _ H).
  change (Z.to_nat (Z.max 1 (Qceiling 3))) with 3.
  rewrite <- distinct_nil_iff.
  destruct (distinctByFingerprint [] cands) as [| d ds]; cbn [firstn].
  + split; [intros _; right; split; [exact H | reflexivity] | reflexivity].
  + split; [discriminate |]. intros [E | [_ E]]; [subst; simpl in H; lia | discriminate].
Qed.

(** The scored and sorted candidates of [finalize]. *)
Lemma scored_without_fingerprint (e : ScriptType) (raw : list LyricsCandidate) :
Forall (fun c => fingerprintOf c = [])
  (sortBy byScoreDesc
     (List.map (fun c => withScore c (inject_Z (scoreLyricsCandidate c e))) raw))
<-> Forall (fun c => fingerprintOf c = []) raw.
Proof.
set (scored := List.map _ raw).
assert (Hs : Forall (fun c => fingerprintOf c = []) scored
             <-> Forall (fun c => fingerprintOf c = []) raw).
{ unfold scored. rewrite Forall_map. reflexivity. }
rewrite <- Hs. split; apply Permutation_Forall.
- apply sortBy_perm.
- apply Permutation_sym, sortBy_perm.
Qed.

(** The top set of [finalize] is empty exactly for two or more raw
    candidates that all have an empty fingerprint. *)
Lemma topCandidates_nil_iff (e : ScriptType) (raw : list LyricsCandidate) :
pickTopCandidates
  (sortBy byScoreDesc
     (List.map (fun c => withScore c (inject_Z (scoreLyricsCandidate c e))) raw))
  (Some 3%Q) = []
<-> raw = [] \/ (2 <= List.length raw /\ Forall (fun c => fingerprintOf c = []) raw).
Proof.
set (scored := sortBy byScoreDesc _).
assert (Hlen : List.length scored = List.length raw).
{ unfold scored. rewrite sortBy_length, length_map. reflexivity. }
rewrite pickTopCandidates_nil_iff, Hlen.
unfold scored. rewrite scored_without_fingerprint. fold scored.
split; (intros [E | H]; [left | right; exact H]).
- destruct raw; [reflexivity |]. rewrite E in Hlen. discriminate.
- subst raw. reflexivity.
Qed.

Lemma finalize_throws (vid : jsstring) (e : ScriptType) (raw : list LyricsCandidate)
  (st : State) :
2 <= List.length raw -> Forall (fun c => fingerprintOf c = []) raw ->
finalize vid e raw st = (Thrown, st).
Proof.
intros H1 H2. destruct raw as [| c0 raw0]; [simpl in H1; lia |].
unfold finalize. cbv zeta.
rewrite (proj2 (topCandidates_nil_iff e (c0 :: raw0)) (or_intror (conj H1 H2))).
reflexivity.
Qed.

End Throws.

(** ** The cache document read back *)

Lemma parseLines_lineToJson (ls : list LyricsLine) :
Forall finiteLine ls -> parseLines (List.map lineToJson ls) = ls.
Proof.
induction 1 as [| l ls Hl Hls IH].
- reflexivity.
- destruct l as [q s]. unfold finiteLine in Hl. cbn [t] in Hl.
  cbn [List.map]. unfold parseLines in *. cbn [flat_map]. rewrite IH.
  unfold lineToJson. cbn [t text truthyJ].
  replace (prop "t" (JObj [(lit "t", JNum q); (lit "text", JStr s)])) with (Some (JNum q))
    by (vm_compute; reflexivity).
  replace (prop "text" (JObj [(lit "t", JNum q); (lit "text", JStr s)])) with (Some (JStr s))
    by (vm_compute; reflexivity).
  cbn [toNumberU toNumber]. rewrite Hl. reflexivity.
Qed.

Lemma parseCandidate_candidateToJson (c : LyricsCandidate) :
persistable c -> parseCandidate (candidateToJson c) = [c].
Proof.
intros [Hl [Hs Hm]].
destruct c as [cid clabel csrc cmode cls cplain csync csc].
cbn [lines score syncMethod] in Hl, Hs, Hm.
destruct csync as [m |]; [| contradiction].
unfold parseCandidate, candidateToJson.
cbn [id label source mode lines plainLyrics syncMethod score truthyJ option_map optField].
assert (Hitems : parseLines (List.map lineToJson cls) = cls)
  by (apply parseLines_lineToJson; exact Hl).
revert Hitems. generalize (List.map lineToJson cls). intros items Hitems.
destruct cplain as [pl |]; destruct csrc; destruct cmode; destruct m;
  cbn [optField app];
  repeat match goal with
  | |- context [prop ?k (JObj ?f)] =>
    let v := eval vm_compute in (prop k (JObj f)) in
    change (prop k (JObj f)) with v
  end;
  cbn [arrayOf stringOr toNumberU toNumber];
  rewrite Hitems, Hs; reflexivity.
Qed.

Lemma parseCandidates_roundtrip (cs : list LyricsCandidate) :
Forall persistable cs -> flat_map parseCandidate (List.map candidateToJson cs) = cs.
Proof.
induction 1 as [| c cs Hc Hcs IH].
- reflexivity.
- cbn [List.map flat_map]. rewrite (parseCandidate_candidateToJson c Hc), IH. reflexivity.
Qed.

Lemma readCachedLyrics_roundtrip (r : LyricsResponse) :
persistableResponse r ->
readCachedLyrics (videoId r) (Holds (responseToJson r)) = Some r.
Proof.
intros [Hl [Hm [cs [Hcs Hp]]]].
destruct r as [vid rsrc rmode rls rplain rsync rsel rcands].
cbn [videoId r_lines r_syncMethod candidates] in *. subst rcands.
destruct rsync as [m |]; [| contradiction].
unfold readCachedLyrics, responseToJson.
cbn [videoId r_source r_mode r_lines r_plainLyrics r_syncMethod selectedCandidateId
     candidates truthyJ negb option_map].
assert (Hitems : parseLines (List.map lineToJson rls) = rls)
  by (apply parseLines_lineToJson; exact Hl).
assert (Hcands : flat_map parseCandidate (List.map candidateToJson cs) = cs)
  by (apply parseCandidates_roundtrip; exact Hp).
revert Hitems Hcands.
generalize (List.map lineToJson rls) (List.map candidateToJson cs).
intros items citems Hitems Hcands.
destruct rplain as [pl |]; destruct rsel as [sel |]; destruct rsrc; destruct rmode;
  destruct m;
  cbn [optField app];
  repeat match goal with
  | |- context [prop ?k (JObj ?f)] =>
    let v := eval vm_compute in (prop k (JObj f)) in
    change (prop k (JObj f)) with v
  end;
  cbn [arrayOf stringOr]; rewrite Js_eqb_refl, Hitems, Hcands; reflexivity.
Qed.

Section Persisted.

Context {U : Runtime}.

(** The cache document of a persistable result that passes the script
    check and has a candidate is returned as the result it was written
    from. *)
Lemma getLyrics_reuses_persisted (st : State) (r : LyricsResponse)
  (c : LyricsCandidate) (cs : list LyricsCandidate) :
persistableResponse r ->
lyricsFile (dirs (world st) (videoId r)) = Holds (responseToJson r) ->
hasCompatibleLyricsPayload r (expectedScriptOf (dirs (world st) (videoId r))) = true ->
candidates r = Some (c :: cs) ->
getLyrics (videoId r) st = (Returned r, st).
Proof.
intros Hp Hf Hc Hn. apply getLyrics_cached. unfold reusableCache.
rewrite Hf, (readCachedLyrics_roundtrip r Hp), Hc, Hn. reflexivity.
Qed.

(** C3: a cached result that passes the script check against the expected
    script and carries at least one candidate is returned as it is, and the
    state is left as it was: no event is added to the trace, so no
    subtitle fetch, catalog request, audio fetch or transcription run
    takes place, and nothing is written.  The cached result is what
    [readCachedLyrics] makes of the cache document; for a result that
    [writeCachedLyrics] has persisted, finite times and scores and a
    [syncMethod] given, that is the result itself, unchanged. *)
Theorem getLyrics_reuses_cache (vid : jsstring) (st : State) (r : LyricsResponse)
  (c : LyricsCandidate) (cs : list LyricsCandidate) :
hasCompatibleLyricsPayload r (expectedScriptOf (dirs (world st) vid)) = true ->
candidates r = Some (c :: cs) ->
(readCachedLyrics vid (lyricsFile (dirs (world st) vid)) = Some r ->
 getLyrics vid st = (Returned r, st))
/\ (persistableResponse r -> videoId r = vid ->
    (lyricsFile (dirs (world st) vid) = Holds (responseToJson r)
     \/ exists st0, writeCachedLyrics r st0 = (Returned tt, st)) ->
    getLyrics vid st = (Returned r, st)).
Proof.
intros Hc Hn. split.
- intros Hr. apply getLyrics_cached. unfold reusableCache.
  rewrite Hr, Hc, Hn. reflexivity.
- intros Hp Hv Hw. subst vid.
  apply (getLyrics_reuses_persisted st r c cs Hp); [| exact Hc | exact Hn].
  destruct Hw as [Hf | [st0 Hw]]; [exact Hf |].
  apply (writeCachedLyrics_returned _ _ _ _ Hw).
Qed.

End Persisted.

(** ** Text in normal form *)

Section DropWhile.

Variable p : N -> bool.

Lemma dropWhile_suffix (s : jsstring) : exists pre, s = pre ++ dropWhile p s /\ forallb p pre = true.
Proof.
induction s as [| c s IH]; simpl.
- exists []. split; reflexivity.
- destruct (p c) eqn:E.
  + destruct IH as [pre [H1 H2]]. exists (c :: pre). simpl. rewrite E, H2. split; [congruence | reflexivity].
  + exists []. split; reflexivity.
Qed.

Lemma dropWhile_head (s : jsstring) (c : N) (r : jsstring) :
dropWhile p s = c :: r -> p c = false.
Proof.
induction s as [| x s IH]; simpl; [discriminate |].
destruct (p x) eqn:E; [exact IH |]. intros H. inversion H; subst. exact E.
Qed.

Lemma dropWhile_stop (c : N) (s : jsstring) : p c = false -> dropWhile p (c :: s) = c :: s.
Proof. intros E. simpl. rewrite E. reflexivity. Qed.

Lemma dropWhile_idem (s : jsstring) : dropWhile p (dropWhile p s) = dropWhile p s.
Proof.
destruct (dropWhile p s) as [| c r] eqn:E; [reflexivity |].
apply dropWhile_stop. eapply dropWhile_head. exact E.
Qed.

Lemma dropWhile_app_stop (a : jsstring) (c : N) (b : jsstring) :
p c = false -> dropWhile p (a ++ c :: b) = dropWhile p a ++ c :: b.
Proof.
intros E. induction a as [| x a IH]; simpl.
- rewrite E. reflexivity.
- destruct (p x); [exact IH | reflexivity].
Qed.

End DropWhile.

Lemma trimEnd_prefix (s : jsstring) : exists suf, s = trimEnd s ++ suf /\ forallb isSpace suf = true.
Proof.
unfold trimEnd. destruct (dropWhile_suffix isSpace (rev s)) as [pre [H1 H2]].
exists (rev pre). split.
- rewrite <- rev_app_distr, <- H1, rev_involutive. reflexivity.
- rewrite forallb_forall in *. intros x Hx. apply H2. apply in_rev. exact Hx.
Qed.

Lemma trimStart_suffix (s : jsstring) : exists pre, s = pre ++ trimStart s /\ forallb isSpace pre = true.
Proof. apply dropWhile_suffix. Qed.

Lemma trimEnd_cons (c : N) (s : jsstring) :
isSpace c = false -> exists r, trimEnd (c :: s) = c :: r.
Proof.
intros E. unfold trimEnd. simpl rev.
destruct (dropWhile_suffix isSpace (rev s ++ [c])) as [pre [H1 H2]].
destruct (dropWhile isSpace (rev s ++ [c])) as [| x r] eqn:Ed.
- rewrite app_nil_r in H1. subst pre.
  rewrite forallb_app in H2. simpl in H2. rewrite E in H2.
  rewrite andb_false_r in H2. discriminate.
- assert (Hrev : c :: s = rev (x :: r) ++ rev pre).
  { rewrite <- rev_app_distr, <- H1, rev_app_distr. simpl. rewrite rev_involutive. reflexivity. }
  destruct (rev (x :: r)) as [| y r'] eqn:Er.
  + apply (f_equal (@List.length N)) in Er. rewrite length_rev in Er. discriminate.
  + simpl in Hrev. inversion Hrev; subst. exists r'. reflexivity.
Qed.

Lemma trimEnd_idem (s : jsstring) : trimEnd (trimEnd s) = trimEnd s.
Proof. unfold trimEnd. rewrite rev_involutive, dropWhile_idem. reflexivity. Qed.

Lemma trim_head (s : jsstring) (c : N) (r : jsstring) : trim s = c :: r -> isSpace c = false.
Proof.
unfold trim. destruct (trimStart s) as [| x u] eqn:E.
- discriminate.
- assert (Hx : isSpace x = false) by (eapply dropWhile_head; exact E).
  destruct (trimEnd_cons x u Hx) as [r' Hr]. rewrite Hr. intros H. inversion H; subst. exact Hx.
Qed.

(** [trim] is idempotent. *)
Lemma trim_idem (s : jsstring) : trim (trim s) = trim s.
Proof.
destruct (trim s) as [| c r] eqn:E; [reflexivity |].
assert (Hc : isSpace c = false) by (eapply trim_head; exact E).
unfold trim at 1. unfold trimStart. rewrite (dropWhile_stop isSpace c r Hc).
rewrite <- E. unfold trim. apply trimEnd_idem.
Qed.

Lemma trim_nonspace (c : N) (a b : jsstring) :
isSpace c = false -> trim (a ++ c :: b) = trimStart a ++ c :: trimEnd b.
Proof.
intros E. unfold trim, trimStart. rewrite (dropWhile_app_stop isSpace a c b E).
unfold trimEnd. rewrite rev_app_distr. simpl rev. rewrite <- app_assoc. simpl.
rewrite (dropWhile_app_stop isSpace (rev b) c _ E).
rewrite rev_app_distr. simpl. rewrite rev_involutive, <- app_assoc. reflexivity.
Qed.

(** A contiguous part of a string. *)
Lemma trim_part (s : jsstring) : exists pre suf,
s = pre ++ trim s ++ suf /\ forallb isSpace pre = true /\ forallb isSpace suf = true.
Proof.
destruct (trimStart_suffix s) as [pre [H1 H2]].
destruct (trimEnd_prefix (trimStart s)) as [suf [H3 H4]].
exists pre, suf. unfold trim. rewrite <- H3. repeat split; assumption.
Qed.

Lemma singleSpaced_app (a b : jsstring) :
singleSpaced (a ++ b) = true -> singleSpaced a = true /\ singleSpaced b = true.
Proof.
induction a as [| c a IH]; simpl.
- intros H. split; [reflexivity | exact H].
- intros H. apply andb_true_iff in H. destruct H as [H1 H2].
  destruct (IH H2) as [Ha Hb]. split; [| exact Hb].
  rewrite Ha, andb_true_r.
  destruct (isSpace c); [| reflexivity].
  apply andb_true_iff in H1. destruct H1 as [H3 H4]. rewrite H3. simpl.
  destruct a as [| d a']; [reflexivity |]. exact H4.
Qed.

Lemma singleSpaced_trim (s : jsstring) : singleSpaced s = true -> singleSpaced (trim s) = true.
Proof.
intros H. destruct (trim_part s) as [pre [suf [E _]]].
rewrite E in H. apply singleSpaced_app in H. destruct H as [_ H].
apply singleSpaced_app in H. destruct H as [H _]. exact H.
Qed.

Lemma gsub_collapse (s : jsstring) : forall prev,
gsub_go (mRun isSpace 1) (lit " ") prev (spanLen isSpace s) s = collapse true s
/\ gsub_go (mRun isSpace 1) (lit " ") prev 0 s = collapse false s.
Proof.
induction s as [| c s IH]; intros prev.
- split; reflexivity.
- destruct (IH (Some c)) as [IH1 IH2].
  assert (Em : mRun isSpace 1 prev (c :: s)
               = if isSpace c then Some (S (spanLen isSpace s)) else None).
  { unfold mRun. cbn [spanLen]. destruct (isSpace c); reflexivity. }
  cbn [gsub_go collapse spanLen]. rewrite Em.
  destruct (isSpace c) eqn:E.
  + rewrite IH1. split; reflexivity.
  + rewrite IH2. split; reflexivity.
Qed.

Lemma collapse_spaced (s : jsstring) : forall b,
singleSpaced (collapse b s) = true
/\ (b = true -> match collapse b s with d :: _ => isSpace d = false | [] => True end).
Proof.
induction s as [| c s IH]; intros b.
- split; [reflexivity | intros _; exact I].
- cbn [collapse]. destruct (isSpace c) eqn:E.
  + destruct (IH true) as [H1 H2]. destruct b.
    * split; [exact H1 | intros _; apply H2; reflexivity].
    * split; [| discriminate]. cbn [singleSpaced].
      change (isSpace 32) with true. rewrite H1. cbn.
      specialize (H2 eq_refl). destruct (collapse true s); [reflexivity |]. rewrite H2. reflexivity.
  + destruct (IH false) as [H1 _]. split.
    * cbn [singleSpaced]. rewrite E, H1. reflexivity.
    * intros _. exact E.
Qed.

Lemma gsub_spaces_singleSpaced (s : jsstring) :
singleSpaced (gsub (mRun isSpace 1) (lit " ") s) = true.
Proof.
unfold gsub. rewrite (proj2 (gsub_collapse s None)). apply collapse_spaced.
Qed.

Lemma cleanCaptionText_tidy0 (input : jsstring) :
singleSpaced (cleanCaptionText input) = true
/\ trim (cleanCaptionText input) = cleanCaptionText input.
Proof.
unfold cleanCaptionText. split.
- apply singleSpaced_trim, gsub_spaces_singleSpaced.
- apply trim_idem.
Qed.

(** Every code unit of a replacement result comes from the replacement
    text or from the input. *)
Lemma gsub_go_In (m : matcher) (rep : jsstring) (x : N) (s : jsstring) : forall prev k,
In x (gsub_go m rep prev k s) -> In x rep \/ In x s.
Proof.
induction s as [| c s IH]; intros prev k H.
- contradiction.
- cbn [gsub_go] in H. destruct k as [| k].
  + destruct (m prev (c :: s)) as [[| n] |].
    * destruct H as [H | H]; [right; left; exact H |].
      destruct (IH _ _ H) as [H' | H']; [left; exact H' | right; right; exact H'].
    * apply in_app_or in H. destruct H as [H | H]; [left; exact H |].
      destruct (IH _ _ H) as [H' | H']; [left; exact H' | right; right; exact H'].
    * destruct H as [H | H]; [right; left; exact H |].
      destruct (IH _ _ H) as [H' | H']; [left; exact H' | right; right; exact H'].
  + destruct (IH _ _ H) as [H' | H']; [left; exact H' | right; right; exact H'].
Qed.

Lemma existsb_eqb_false (x : N) (s : jsstring) :
existsb (N.eqb x) s = false <-> ~ In x s.
Proof.
split.
- intros H Hin. assert (E : existsb (N.eqb x) s = true).
  { apply existsb_exists. exists x. split; [exact Hin | apply N.eqb_refl]. }
  congruence.
- intros H. apply not_true_is_false. intros E. apply existsb_exists in E.
  destruct E as [y [Hy E]]. apply N.eqb_eq in E. subst. contradiction.
Qed.

Lemma indexWhere_None (p : N -> bool) (s : jsstring) :
indexWhere p s = None -> existsb p s = false.
Proof.
induction s as [| c s IH]; simpl; [reflexivity |].
destruct (p c); [discriminate |]. destruct (indexWhere p s); [discriminate |].
intros _. apply IH. reflexivity.
Qed.

Lemma gsub_tags_noTag (s : jsstring) : forall prev k,
noTag (gsub_go (mDelimited 60 62 0) (lit " ") prev k s) = true.
Proof.
induction s as [| c s IH]; intros prev k.
- reflexivity.
- cbn [gsub_go]. destruct k as [| k]; [| apply IH].
  destruct (mDelimited 60 62 0 prev (c :: s)) as [[| n] |] eqn:Em.
  + unfold mDelimited in Em. destruct (N.eqb c 60); [| discriminate].
    destruct (indexWhere (N.eqb 62) s) as [i |]; [| discriminate].
    cbn [Nat.leb] in Em. inversion Em. lia.
  + change (lit " ") with [32%N]. cbn [app noTag]. change (N.eqb 32 60) with false.
    cbn [andb]. apply IH.
  + cbn [noTag]. rewrite IH, andb_true_r.
    destruct (N.eqb c 60) eqn:Ec; [| reflexivity].
    unfold mDelimited in Em. rewrite Ec in Em.
    destruct (indexWhere (N.eqb 62) s) as [i |] eqn:Ei; [discriminate |].
    apply indexWhere_None in Ei. apply existsb_eqb_false in Ei.
    apply negb_true_iff. apply existsb_eqb_false. intros Hin.
    apply gsub_go_In in Hin. destruct Hin as [Hin | Hin].
    * destruct Hin as [Hin | []]. discriminate.
    * contradiction.
Qed.

Lemma collapse_keeps (x : N) (s : jsstring) : forall b,
isSpace x = false -> existsb (N.eqb x) (collapse b s) = existsb (N.eqb x) s.
Proof.
intros b Hx. revert b. induction s as [| c s IH]; intros b; [reflexivity |].
cbn [collapse existsb]. destruct (isSpace c) eqn:E.
- assert (Exc : N.eqb x c = false).
  { apply N.eqb_neq. intros ->. congruence. }
  rewrite Exc. cbn [orb]. destruct b; [apply IH |].
  cbn [existsb]. rewrite IH.
  assert (E32 : N.eqb x 32 = false).
  { apply N.eqb_neq. intros ->. discriminate. }
  rewrite E32. reflexivity.
- cbn [existsb]. rewrite IH. reflexivity.
Qed.

Lemma collapse_noTag (s : jsstring) : forall b,
noTag s = true -> noTag (collapse b s) = true.
Proof.
induction s as [| c s IH]; intros b H; [reflexivity |].
cbn [noTag] in H. apply andb_true_iff in H. destruct H as [H1 H2].
cbn [collapse]. destruct (isSpace c) eqn:E.
- destruct b; [apply IH; exact H2 |].
  cbn [noTag]. change (N.eqb 32 60) with false. cbn [andb]. apply IH. exact H2.
- cbn [noTag]. rewrite (IH false H2), andb_true_r.
  destruct (N.eqb c 60); [| reflexivity].
  rewrite (collapse_keeps 62 s false eq_refl). exact H1.
Qed.

Lemma noTag_app (a b : jsstring) :
noTag (a ++ b) = true -> noTag a = true /\ noTag b = true.
Proof.
induction a as [| c a IH]; simpl.
- intros H. split; [reflexivity | exact H].
- intros H. apply andb_true_iff in H. destruct H as [H1 H2].
  destruct (IH H2) as [Ha Hb]. split; [| exact Hb].
  rewrite Ha, andb_true_r. destruct (N.eqb c 60); [| reflexivity].
  rewrite existsb_app in H1. apply negb_true_iff in H1. apply orb_false_iff in H1.
  apply negb_true_iff. apply H1.
Qed.

Lemma noTag_trim (s : jsstring) : noTag s = true -> noTag (trim s) = true.
Proof.
intros H. destruct (trim_part s) as [pre [suf [E _]]].
rewrite E in H. apply noTag_app in H. destruct H as [_ H].
apply noTag_app in H. destruct H as [H _]. exact H.
Qed.

(** X1: what [cleanCaptionText] returns is in normal form, whatever the
    input: it has no white space at either end, its white space is single
    U+0020 characters, and no ['<'] is followed by a ['>']. *)
Theorem cleanCaptionText_normal_form (input : jsstring) :
trim (cleanCaptionText input) = cleanCaptionText input
/\ singleSpaced (cleanCaptionText input) = true
/\ noTag (cleanCaptionText input) = true.
Proof.
split; [apply cleanCaptionText_tidy0 |]. split; [apply cleanCaptionText_tidy0 |].
unfold cleanCaptionText. apply noTag_trim. unfold gsub at 1.
rewrite (proj2 (gsub_collapse _ None)). apply collapse_noTag. apply gsub_tags_noTag.
Qed.

Lemma gsub_squeeze (s : jsstring) :
(forall prev, gsub_go (mRun (N.eqb 10) 3) [10%N; 10%N] prev 0 s = squeeze 0 s)
/\ (forall prev r, r + spanLen (N.eqb 10) s <= 2 ->
    gsub_go (mRun (N.eqb 10) 3) [10%N; 10%N] prev 0 s = squeeze r s)
/\ (forall prev, gsub_go (mRun (N.eqb 10) 3) [10%N; 10%N] prev (spanLen (N.eqb 10) s) s
                 = squeeze 2 s).
Proof.
induction s as [| c s IH].
- repeat split.
- destruct IH as [IHA [IHB IHC]].
  assert (Em : forall prev, mRun (N.eqb 10) 3 prev (c :: s)
               = if N.eqb 10 c
                 then (if Nat.leb 2 (spanLen (N.eqb 10) s)
                       then Some (S (spanLen (N.eqb 10) s)) else None)
                 else None).
  { intros prev. unfold mRun. cbn [spanLen]. destruct (N.eqb 10 c); [| reflexivity].
    destruct (spanLen (N.eqb 10) s) as [| [| k]]; reflexivity. }
  split; [| split].
  + intros prev. cbn [gsub_go squeeze]. rewrite Em.
    destruct (N.eqb 10 c) eqn:Ec.
    * apply N.eqb_eq in Ec. subst c.
      destruct (Nat.leb_spec 2 (spanLen (N.eqb 10) s)) as [H | H].
      -- rewrite IHC. cbn [Nat.ltb Nat.leb Nat.min app].
         destruct s as [| d s']; [simpl in H; lia |].
         cbn [spanLen] in H. destruct (N.eqb 10 d) eqn:Ed; [| lia].
         apply N.eqb_eq in Ed. subst d. cbn [squeeze]. change (N.eqb 10 10) with true.
         cbn [Nat.ltb Nat.leb Nat.min]. reflexivity.
      -- cbn [Nat.ltb Nat.leb Nat.min]. f_equal. apply IHB. lia.
    * f_equal. apply IHA.
  + intros prev r Hr. cbn [gsub_go squeeze]. rewrite Em.
    cbn [spanLen] in Hr. destruct (N.eqb 10 c) eqn:Ec.
    * destruct (Nat.leb_spec 2 (spanLen (N.eqb 10) s)) as [H | H]; [lia |].
      destruct (Nat.ltb_spec r 2) as [H2 | H2]; [| lia].
      f_equal. apply IHB. lia.
    * f_equal. apply IHA.
  + intros prev. cbn [spanLen squeeze]. destruct (N.eqb 10 c) eqn:Ec.
    * cbn [gsub_go Nat.ltb Nat.leb Nat.min]. apply IHC.
    * cbn [gsub_go]. rewrite Em. rewrite ?Ec. f_equal. apply IHA.
Qed.

Lemma startsWith_three (s : jsstring) :
startsWith threeNewlines s = true -> 3 <= spanLen (N.eqb 10) s.
Proof.
unfold threeNewlines.
destruct s as [| a [| b [| c s]]]; cbn [startsWith spanLen];
  repeat match goal with
  | |- context [N.eqb 10%N ?x] => destruct (N.eqb 10%N x)
  end; cbn [andb]; intros H; try discriminate H; lia.
Qed.

Lemma squeeze_no_three (s : jsstring) : forall r, r <= 2 ->
spanLen (N.eqb 10) (squeeze r s) <= 2 - r
/\ includes threeNewlines (squeeze r s) = false.
Proof.
induction s as [| c s IH]; intros r Hr.
- split; [simpl; lia | reflexivity].
- cbn [squeeze]. destruct (N.eqb 10 c) eqn:Ec.
  + destruct (Nat.ltb_spec r 2) as [H | H].
    * destruct (IH (Nat.min 2 (S r))) as [H1 H2]; [lia |].
      assert (Hs : spanLen (N.eqb 10) (c :: squeeze (Nat.min 2 (S r)) s) <= 2 - r).
      { cbn [spanLen]. rewrite Ec. lia. }
      split; [exact Hs |].
      cbn [includes]. rewrite H2, orb_false_r.
      apply not_true_is_false. intros E. apply startsWith_three in E. lia.
    * destruct (IH (Nat.min 2 (S r))) as [H1 H2]; [lia |].
      split; [lia | exact H2].
  + destruct (IH 0) as [H1 H2]; [lia |].
    split; [cbn [spanLen]; rewrite Ec; lia |].
    cbn [includes]. rewrite H2, orb_false_r.
    apply not_true_is_false. intros E. apply startsWith_three in E.
    cbn [spanLen] in E. rewrite Ec in E. lia.
Qed.

Lemma startsWith_app (p a b : jsstring) :
startsWith p a = true -> startsWith p (a ++ b) = true.
Proof.
revert a. induction p as [| x p IH]; intros a H; [reflexivity |].
destruct a as [| y a]; [discriminate |]. simpl in *.
apply andb_true_iff in H. destruct H as [H1 H2]. rewrite H1, (IH _ H2). reflexivity.
Qed.

Lemma includes_app_l (p a b : jsstring) :
includes p a = true -> includes p (a ++ b) = true.
Proof.
induction a as [| y a IH]; intros H.
- simpl in H. rewrite orb_false_r in H. destruct p; [| discriminate].
  destruct b; reflexivity.
- cbn [includes] in H. apply orb_true_iff in H. cbn [app includes].
  apply orb_true_iff. destruct H as [H | H].
  + left. apply (startsWith_app p (y :: a) b H).
  + right. apply IH. exact H.
Qed.

Lemma includes_app_r (p a b : jsstring) :
includes p b = true -> includes p (a ++ b) = true.
Proof.
intros H. induction a as [| y a IH]; [exact H |].
cbn [app includes]. rewrite IH. apply orb_true_r.
Qed.

Lemma includes_trim (p s : jsstring) : includes p s = false -> includes p (trim s) = false.
Proof.
intros H. apply not_true_is_false. intros E.
destruct (trim_part s) as [pre [suf [Es _]]].
assert (E' : includes p s = true).
{ rewrite Es. apply includes_app_r. apply includes_app_l. exact E. }
congruence.
Qed.

Lemma gsub_cr_gone (s : jsstring) : forall prev k,
~ In 13%N (gsub_go (mLit [13%N]) [] prev k s).
Proof.
induction s as [| c s IH]; intros prev k H.
- contradiction.
- cbn [gsub_go] in H. destruct k as [| k]; [| exact (IH _ _ H)].
  unfold mLit in H. cbn [startsWith List.length] in H.
  destruct (N.eqb 13 c) eqn:Ec; cbn [andb app] in H.
  + exact (IH _ _ H).
  + destruct H as [H | H]; [| exact (IH _ _ H)].
    subst c. discriminate.
Qed.

Lemma In_trim (x : N) (s : jsstring) : In x (trim s) -> In x s.
Proof.
intros H. destruct (trim_part s) as [pre [suf [Es _]]]. rewrite Es.
apply in_or_app. right. apply in_or_app. left. exact H.
Qed.

(** X2: what [normalizePlainLyrics] returns has no carriage return, never
    three newlines in a row, and no white space at either end. *)
Theorem normalizePlainLyrics_normal_form (input : jsstring) :
trim (normalizePlainLyrics input) = normalizePlainLyrics input
/\ ~ In 13%N (normalizePlainLyrics input)
/\ includes threeNewlines (normalizePlainLyrics input) = false.
Proof.
unfold normalizePlainLyrics. split; [apply trim_idem |]. split.
- intros H. apply In_trim in H. apply gsub_go_In in H. destruct H as [H | H].
  + destruct H as [H | [H | []]]; discriminate.
  + exact (gsub_cr_gone _ _ _ H).
- apply includes_trim. unfold gsub at 1.
  rewrite (proj1 (gsub_squeeze _) None). apply squeeze_no_three. lia.
Qed.

(** X3: every line [splitPlainLyrics] returns is non-empty, in the normal
    form of [cleanCaptionText] (so without a newline), and not a
    bracket-only annotation. *)
Theorem splitPlainLyrics_lines (input : jsstring) :
Forall (fun line =>
  line <> [] /\ trim line = line /\ singleSpaced line = true
  /\ isBracketLine line = false)
  (splitPlainLyrics input).
Proof.
unfold splitPlainLyrics. apply Forall_forall. intros line H.
apply filter_In in H. destruct H as [Hin Hf].
apply andb_true_iff in Hf. destruct Hf as [Ht Hb].
apply in_map_iff in Hin. destruct Hin as [raw [E _]]. subst line.
split; [destruct (cleanCaptionText raw); [discriminate | discriminate] |].
split; [apply cleanCaptionText_tidy0 |]. split; [apply cleanCaptionText_tidy0 |].
apply negb_true_iff. exact Hb.
Qed.

(** ** Signs in binary64 *)

Lemma binary_round_aux_sign (s : bool) (m e : Z) (l : location) :
match binary_round_aux 53 1024 s m e l with
| S754_zero s' | S754_infinity s' | S754_finite s' _ _ => s' = s
| S754_nan => True
end.
Proof.
unfold binary_round_aux.
destruct (shr_fexp 53 1024 m e l) as [mrs' e'].
destruct (shr_fexp 53 1024 _ e' loc_Exact) as [mrs'' e''].
destruct (shr_m mrs''); [reflexivity | | exact I].
destruct (e'' <=? 1024 - 53)%Z; reflexivity.
Qed.

Lemma binary_round_aux_notNegative (m e : Z) (l : location) :
notNegative (binary_round_aux 53 1024 false m e l).
Proof.
pose proof (binary_round_aux_sign false m e l) as H. unfold notNegative.
destruct (binary_round_aux 53 1024 false m e l); auto.
Qed.

Lemma SFdiv_notNegative (x y : spec_float) :
notNegative x -> notNegative y -> notNegative (SFdiv 53 1024 x y).
Proof.
destruct x as [sx | sx | | sx mx ex]; destruct y as [sy | sy | | sy my ey];
  cbn [notNegative SFdiv]; intros Hx Hy; subst; try exact I; try reflexivity.
destruct (SFdiv_core_binary 53 1024 (Zpos mx) ex (Zpos my) ey) as [[mz ez] lz].
apply binary_round_aux_notNegative.

Qed.

Lemma SFmul_notNegative (x y : spec_float) :
notNegative x -> notNegative y -> notNegative (SFmul 53 1024 x y).
Proof.
destruct x as [sx | sx | | sx mx ex]; destruct y as [sy | sy | | sy my ey];
  cbn [notNegative SFmul]; intros Hx Hy; subst; try exact I; try reflexivity.
apply binary_round_aux_notNegative.
Qed.

Lemma SFadd_notNegative (x y : spec_float) :
notNegative x -> notNegative y -> notNegative (SFadd 53 1024 x y).
Proof.
destruct x as [sx | sx | | sx mx ex]; destruct y as [sy | sy | | sy my ey];
  cbn [notNegative SFadd]; intros Hx Hy; subst; try exact I; try reflexivity.
cbn [cond_Zopp]. unfold binary_normalize.
  match goal with |- context [(Zpos ?a + Zpos ?b)%Z] =>
    change (Zpos a + Zpos b)%Z with (Zpos (a + b)) end.
  unfold binary_round.
  destruct (shl_align _ _ _) as [mz ez].
  apply binary_round_aux_notNegative.
Qed.

Lemma ofQ_notNegative (q : Q) : (0 <= q)%Q -> notNegative (B64.ofQ q).
Proof.
intros H. unfold B64.ofQ.
destruct (Qnum q) as [| n | n] eqn:En.
- reflexivity.
- apply SFdiv_notNegative; reflexivity.
- exfalso. unfold Qle in H. rewrite En in H. simpl in H. lia.
Qed.

Lemma toQ_notNegative (x : spec_float) (q : Q) :
notNegative x -> B64.toQ x = Some q -> (0 <= q)%Q.
Proof.
destruct x as [sx | sx | | sx mx ex]; cbn [notNegative B64.toQ]; intros Hx E;
  try discriminate; inversion E; subst.
- apply Qle_refl.
- unfold infinity, Qle. simpl. lia.
- unfold B64.finiteValue, B64.signed.
  destruct (0 <=? ex)%Z eqn:Ee.
  + apply Z.leb_le in Ee.
    assert (0 < 2 ^ ex)%Z by (apply Z.pow_pos_nonneg; lia).
    change 0%Q with (inject_Z 0). rewrite <- Zle_Qle. nia.
  + rewrite Qred_correct. unfold Qle. cbn [Qnum Qden]. lia.
Qed.

Section Arith.

Variable op : spec_float -> spec_float -> spec_float.
Hypothesis op_notNegative : forall x y, notNegative x -> notNegative y -> notNegative (op x y).

Lemma arith_nonneg (x y : number) (r : Q) :
(forall a, x = Some a -> (0 <= a)%Q) -> (forall b, y = Some b -> (0 <= b)%Q) ->
arith op x y = Some r -> (0 <= r)%Q.
Proof.
intros Hx Hy. unfold arith. destruct x as [a |]; [| discriminate].
destruct y as [b |]; [| discriminate].
apply toQ_notNegative. apply op_notNegative; apply ofQ_notNegative; auto.
Qed.

End Arith.

Lemma round64_nonneg (q r : Q) : (0 <= q)%Q -> round64 q = Some r -> (0 <= r)%Q.
Proof. intros H. apply toQ_notNegative. apply ofQ_notNegative. exact H. Qed.

(** ** What the parsers return *)

Lemma isDigit_bounds (c : N) : isDigit c = true <-> (48 <= c <= 57)%N.
Proof. unfold isDigit. rewrite andb_true_iff, !N.leb_le. reflexivity. Qed.

Ltac decide_cmp :=
repeat match goal with
| |- context [N.eqb ?a ?b] =>
  first [ replace (N.eqb a b) with false by (symmetry; apply N.eqb_neq; lia)
        | replace (N.eqb a b) with true by (symmetry; apply N.eqb_eq; lia) ]
| |- context [N.leb ?a ?b] =>
  first [ replace (N.leb a b) with false by (symmetry; apply N.leb_gt; lia)
        | replace (N.leb a b) with true by (symmetry; apply N.leb_le; lia) ]
end.

Lemma digit_not_space (c : N) : isDigit c = true -> isSpace c = false.
Proof.
intros H. apply isDigit_bounds in H. unfold isSpace. decide_cmp. reflexivity.
Qed.

Lemma spanLen_all (p : N -> bool) (s : jsstring) :
forallb p s = true -> spanLen p s = List.length s.
Proof.
induction s as [| c s IH]; [reflexivity |]. simpl. intros H.
apply andb_true_iff in H. destruct H as [H1 H2]. rewrite H1, (IH H2). reflexivity.
Qed.

Lemma spanLen_firstn (p : N -> bool) (s : jsstring) :
forallb p (firstn (spanLen p s) s) = true.
Proof.
induction s as [| c s IH]; [reflexivity |]. simpl.
destruct (p c) eqn:E; [| reflexivity]. simpl. rewrite E, IH. reflexivity.
Qed.

Lemma spanLen_le (p : N -> bool) (s : jsstring) : spanLen p s <= List.length s.
Proof.
induction s as [| c s IH]; [simpl; lia |]. simpl. destruct (p c); simpl; lia.
Qed.

Lemma digitsValue_nonneg (ds : jsstring) : (0 <= digitsValue 10 decDigit ds)%Z.
Proof.
unfold digitsValue.
assert (H : forall acc, (0 <= acc)%Z ->
  (0 <= fold_left (fun acc c => acc * 10 + decDigit c) ds acc)%Z).
{ induction ds as [| c ds IH]; intros acc Ha; [exact Ha |].
  cbn [fold_left]. apply IH. unfold decDigit. lia. }
apply H. lia.
Qed.

Lemma trim_digits (ds : jsstring) : forallb isDigit ds = true -> trim ds = ds.
Proof.
intros H. destruct ds as [| c ds]; [reflexivity |].
assert (Hc : isSpace c = false).
{ simpl in H. apply andb_true_iff in H. apply digit_not_space, H. }
unfold trim, trimStart. rewrite (dropWhile_stop isSpace c ds Hc).
unfold trimEnd.
assert (Hr : forallb isDigit (rev (c :: ds)) = true).
{ rewrite forallb_forall in *. intros x Hx. apply H. apply in_rev. exact Hx. }
destruct (rev (c :: ds)) as [| y r] eqn:Er.
- apply (f_equal (@rev N)) in Er. rewrite rev_involutive in Er. discriminate.
- assert (Hy : isSpace y = false).
  { simpl in Hr. apply andb_true_iff in Hr. apply digit_not_space, Hr. }
  rewrite (dropWhile_stop isSpace y r Hy). rewrite <- Er. apply rev_involutive.
Qed.

(** [Number(ds)] for a non-empty string of decimal digits. *)
Lemma stringNumericValue_digits (ds : jsstring) :
ds <> [] -> forallb isDigit ds = true ->
exists q, stringNumericValue ds = Some q /\ (q == inject_Z (digitsValue 10 decDigit ds))%Q.
Proof.
intros Hne Hd. unfold stringNumericValue. rewrite (trim_digits ds Hd).
destruct ds as [| c r]; [contradiction |].
assert (Hc : (48 <= c <= 57)%N).
{ simpl in Hd. apply andb_true_iff in Hd. apply isDigit_bounds, Hd. }
assert (Hn : nonDecimal (c :: r) = None).
{ unfold nonDecimal. destruct r as [| p ds]; [reflexivity |].
  assert (Hp : (48 <= p <= 57)%N).
  { simpl in Hd. apply andb_true_iff in Hd. destruct Hd as [_ Hd].
    apply andb_true_iff in Hd. apply isDigit_bounds, Hd. }
  destruct ((c =? 48)%N && truthy ds); [| reflexivity].
  decide_cmp. reflexivity. }
rewrite Hn. decide_cmp.
unfold unsignedDecimal.
assert (Hi : Js.eqb (c :: r) (lit "Infinity") = false).
{ change (lit "Infinity") with (73%N :: lit "nfinity"). cbn [Js.eqb].
  decide_cmp. reflexivity. }
rewrite Hi. rewrite (spanLen_all isDigit (c :: r) Hd).
rewrite firstn_all, skipn_all. cbn [truthy negb andb expPart].
eexists. split; [reflexivity |].
change (digitsValue 10 decDigit []) with 0%Z.
change (Z.of_nat (List.length (@nil N))) with 0%Z.
change (10 ^ 0)%Z with 1%Z. change (Qpower 10 0) with 1%Q.
unfold Qdiv. rewrite Qmult_0_l. rewrite Qmult_1_r, Qplus_0_r. reflexivity.
Qed.

Lemma firstn_nonempty {A : Type} (n : nat) (s : list A) :
0 < n -> n <= List.length s -> firstn n s <> [].
Proof.
intros H1 H2 E. apply (f_equal (@List.length A)) in E.
rewrite length_firstn in E. simpl in E. lia.
Qed.

Lemma lrcGroups_digits (raw g1 g2 : jsstring) (g3 : option jsstring) :
lrcGroups raw = Some (g1, g2, g3) ->
allDigits g1 /\ allDigits g2 /\ match g3 with Some g => allDigits g | None => True end.
Proof.
unfold lrcGroups. cbv zeta.
destruct (skipn (spanLen isDigit raw) raw) as [| c r1] eqn:E1; [discriminate |].
destruct (Nat.ltb_spec 0 (spanLen isDigit raw)) as [H1 | H1]; [| discriminate].
destruct (N.eqb c 58); cbn [andb]; [| discriminate].
destruct (Nat.ltb_spec 0 (spanLen isDigit r1)) as [H2 | H2]; [| discriminate].
assert (A1 : allDigits (firstn (spanLen isDigit raw) raw)).
{ split; [apply firstn_nonempty; [exact H1 | apply spanLen_le] | apply spanLen_firstn]. }
assert (A2 : allDigits (firstn (spanLen isDigit r1) r1)).
{ split; [apply firstn_nonempty; [exact H2 | apply spanLen_le] | apply spanLen_firstn]. }
destruct (skipn (spanLen isDigit r1) r1) as [| d r2] eqn:E2.
- intros H. inversion H; subst. repeat split; try apply A1; try apply A2.
- destruct (N.eqb d 46); cbn [andb]; [| discriminate].
  destruct (truthy r2) eqn:Et; cbn [andb]; [| discriminate].
  destruct (forallb isDigit r2) eqn:Ed; [| discriminate].
  intros H. inversion H; subst. split; [exact A1 |]. split; [exact A2 |].
  split; [destruct r2; [discriminate | discriminate] | exact Ed].
Qed.

(** The number of a digit string is not negative. *)
Lemma strToNumber_digits_nonneg (ds : jsstring) (q : Q) :
allDigits ds -> strToNumber ds = Some q -> (0 <= q)%Q.
Proof.
intros [Hne Hd]. unfold strToNumber.
destruct (stringNumericValue_digits ds Hne Hd) as [v [E Hv]]. rewrite E.
apply round64_nonneg. rewrite Hv.
pose proof (digitsValue_nonneg ds) as H0.
change 0%Q with (inject_Z 0). rewrite <- Zle_Qle. exact H0.
Qed.

Lemma parseLrcTimestamp_nonneg (raw : jsstring) (ts : Q) :
parseLrcTimestamp raw = Some ts -> (0 <= ts)%Q.
Proof.
unfold parseLrcTimestamp.
destruct (lrcGroups raw) as [[[g1 g2] g3] |] eqn:Eg; [| discriminate].
destruct (lrcGroups_digits _ _ _ _ Eg) as [A1 [A2 A3]]. cbv zeta.
destruct (isFinite (strToNumber g1) && isFinite (strToNumber g2) && _); [| discriminate].
assert (H60 : forall b, Some 60%Q = Some b -> (0 <= b)%Q).
{ intros b E. inversion E. unfold Qle. simpl. lia. }
assert (H100 : forall b, Some 100%Q = Some b -> (0 <= b)%Q).
{ intros b E. inversion E. unfold Qle. simpl. lia. }
assert (H3 : forall ff, match g3 with Some g => strToNumber g | None => Some 0%Q end = Some ff
                        -> (0 <= ff)%Q).
{ intros ff E3. destruct g3 as [g |].
  - exact (strToNumber_digits_nonneg g ff A3 E3).
  - inversion E3. apply Qle_refl. }
apply (arith_nonneg _ SFadd_notNegative).
- intros a. apply (arith_nonneg _ SFadd_notNegative).
  + intros b. apply (arith_nonneg _ SFmul_notNegative); [| exact H60].
    intros c. apply strToNumber_digits_nonneg. exact A1.
  + intros b. apply strToNumber_digits_nonneg. exact A2.
- intros b. apply (arith_nonneg _ SFdiv_notNegative); [exact H3 | exact H100].
Qed.

Lemma parseLrcLine_lines (line : jsstring) :
Forall (fun l => wellFormedLine l /\ (0 <= t l)%Q) (parseLrcLine line).
Proof.
unfold parseLrcLine. destruct (lrcTags line) as [| m0 ms]; [constructor |].
cbv zeta. destruct (truthy (cleanCaptionText _)) eqn:Et; [| constructor].
apply Forall_flat_map. intros m.
destruct (parseLrcTimestamp m) as [ts |] eqn:Ep; [| constructor].
destruct (isFiniteQ ts) eqn:Ef; [| constructor].
constructor; [| constructor]. split.
- split; [exact Ef |]. split; [apply truthy_true; exact Et |]. cbn [text].
  split; apply cleanCaptionText_tidy0.
- cbn [t]. eapply parseLrcTimestamp_nonneg. exact Ep.
Qed.

Lemma Forall_sortBy {A : Type} (before : A -> A -> bool) (P : A -> Prop) (l : list A) :
Forall P l -> Forall P (sortBy before l).
Proof.
intros H. eapply Permutation_Forall; [apply Permutation_sym, sortBy_perm | exact H].
Qed.

Lemma Forall_dedupe {A : Type} (keep : A -> A -> bool) (P : A -> Prop) (l : list A) :
Forall P l -> Forall P (dedupeAdjacent keep l).
Proof.
intros H. eapply subseq_Forall; [apply dedupeAdjacent_subseq | exact H].
Qed.

Lemma parseLrc_wellFormed (content : jsstring) :
Forall (fun l => wellFormedLine l /\ (0 <= t l)%Q) (parseLrc content).
Proof.
unfold parseLrc. cbv zeta. apply Forall_dedupe, Forall_sortBy.
apply Forall_flat_map. apply parseLrcLine_lines.
Qed.

(** X4: every line [parseLrc] returns has a finite time that is not
    negative and a non-empty text in the normal form of
    [cleanCaptionText]; the lines are in ascending order of time and
    de-jittered at 0.8s, by the test the code makes in binary64: of two
    equal lines tagged 00:00.57 and 00:01.37 both stay, since the
    difference of the two doubles exceeds the double 0.8. *)
Theorem parseLrc_lines (content : jsstring) :
Forall (fun l => wellFormedLine l /\ (0 <= t l)%Q) (parseLrc content)
/\ sortedByTime (parseLrc content)
/\ dejittered (8 # 10) (parseLrc content)
/\ List.map text (parseLrc (lit "[00:00.57]la" ++ newline ++ lit "[00:01.37]la"))
   = [lit "la"; lit "la"]
/\ List.map text (parseLrc (lit "[00:00.50]la" ++ newline ++ lit "[00:01.25]la"))
   = [lit "la"].
Proof.
split; [apply parseLrc_wellFormed |]. unfold dejittered. split; [| split].
- unfold parseLrc. cbv zeta.
  eapply subseq_StronglySorted; [apply dedupeAdjacent_subseq | apply sortBy_byTime_sorted].
- unfold parseLrc. cbv zeta. apply dedupeAdjacent_adjacent.
- split; vm_compute; reflexivity.
Qed.

Lemma vttCue_lines (ts : Q) (ls : list jsstring) :
isFiniteQ ts = true -> Forall wellFormedLine (vttCue ts ls).
Proof.
intros Hf. unfold vttCue. cbv zeta.
destruct (truthy (cleanCaptionText _)) eqn:Et; constructor; [| constructor].
split; [exact Hf |]. split; [apply truthy_true; exact Et |]. cbn [text].
split; apply cleanCaptionText_tidy0.
Qed.

Lemma vttHeader_finite (line : jsstring) (ts : Q) :
vttHeader line = Some ts -> isFiniteQ ts = true.
Proof.
unfold vttHeader.
destruct (negb (truthy line) || _ || _ || _); [discriminate |].
destruct (negb (includes (lit "-->") line)); [discriminate |]. cbv zeta.
destruct (parseVttTime _) as [q |]; [| discriminate].
destruct (isFiniteQ q) eqn:E; [| discriminate].
intros H. inversion H; subst. exact E.
Qed.

Lemma parseVtt_scan_lines (srcLines : list jsstring) : forall cue,
match cue with Some (ts, _) => isFiniteQ ts = true | None => True end ->
Forall wellFormedLine (parseVtt_scan cue srcLines).
Proof.
induction srcLines as [| l rest IH]; intros cue Hc.
- cbn [parseVtt_scan]. destruct cue as [[ts acc] |]; [| constructor].
  apply vttCue_lines. exact Hc.
- cbn [parseVtt_scan]. cbv zeta. destruct cue as [[ts acc] |].
  + destruct (truthy (trim l)).
    * apply IH. exact Hc.
    * apply Forall_app. split; [apply vttCue_lines; exact Hc | apply IH; exact I].
  + destruct (vttHeader (trim l)) as [ts |] eqn:Eh.
    * apply IH. eapply vttHeader_finite. exact Eh.
    * apply IH. exact I.
Qed.

Lemma parseVtt_wellFormed (content : jsstring) : Forall wellFormedLine (parseVtt content).
Proof.
unfold parseVtt. cbv zeta. apply Forall_sortBy, Forall_dedupe.
apply parseVtt_scan_lines. exact I.
Qed.

(** X5: every line [parseVtt] returns has a finite time and a non-empty
    text in the normal form of [cleanCaptionText], and the lines are in
    ascending order of time. *)
Theorem parseVtt_lines (content : jsstring) :
Forall wellFormedLine (parseVtt content) /\ sortedByTime (parseVtt content).
Proof.
split; [apply parseVtt_wellFormed |].
unfold parseVtt. cbv zeta. apply sortBy_byTime_sorted.
Qed.

Lemma spanLen_app_stop (p : N -> bool) (a : jsstring) (c : N) (b : jsstring) :
forallb p a = true -> p c = false -> spanLen p (a ++ c :: b) = List.length a.
Proof.
intros Ha Hc. induction a as [| x a IH]; simpl.
- rewrite Hc. reflexivity.
- simpl in Ha. apply andb_true_iff in Ha. destruct Ha as [H1 H2].
  rewrite H1, (IH H2). reflexivity.
Qed.

Lemma firstn_length_app {A : Type} (a b : list A) : firstn (List.length a) (a ++ b) = a.
Proof. rewrite firstn_app, Nat.sub_diag, firstn_all. simpl. apply app_nil_r. Qed.

Lemma skipn_length_app {A : Type} (a b : list A) : skipn (List.length a) (a ++ b) = b.
Proof. rewrite skipn_app, Nat.sub_diag, skipn_all. reflexivity. Qed.

Lemma isFiniteQ_small (q : Q) (v : Z) :
(q == inject_Z v)%Q -> (0 <= v < 10 ^ 300)%Z -> isFiniteQ q = true.
Proof.
intros Hq Hv. unfold isFiniteQ, Qltb. apply negb_true_iff.
apply not_true_is_false. intros E. apply Qle_bool_iff in E.
assert (Habs : (Qabs q == inject_Z v)%Q).
{ rewrite Hq. apply Qabs_pos. unfold Qle. simpl. lia. }
rewrite Habs in E. unfold dblLimit in E. rewrite <- Zle_Qle in E.
assert (Hc : (10 ^ 300 <= 2 ^ 1024 - 2 ^ 970)%Z) by (apply Z.leb_le; vm_compute; reflexivity).
lia.
Qed.

Lemma sortBy_map {A B : Type} (f : A -> B) (b1 : A -> A -> bool) (b2 : B -> B -> bool)
  (l : list A) :
(forall x y, b2 (f x) (f y) = b1 x y) ->
List.map f (sortBy b1 l) = sortBy b2 (List.map f l).
Proof.
intros H. induction l as [| x l IH]; [reflexivity |].
cbn [sortBy fold_right List.map]. fold (sortBy b1 l). fold (sortBy b2 (List.map f l)).
rewrite <- IH. generalize (sortBy b1 l). intros s.
induction s as [| y s IHs]; [reflexivity |].
cbn [insertSorted List.map]. rewrite H. destruct (b1 x y); [reflexivity |].
cbn [List.map]. rewrite IHs. reflexivity.
Qed.

Section TranscriptionFacts.

Context {U : Runtime}.

Lemma whisperSegment_each (s : json) :
Forall (fun s => wellFormedLine (segmentLine s) /\ (0 <= start s)%Q) (whisperSegment s).
Proof.
unfold whisperSegment. cbv zeta.
destruct (toNumberU (prop "start" s)) as [st |]; [| constructor].
destruct (isFiniteQ st) eqn:Ef; cbn [andb]; [| constructor].
destruct (Qle_bool 0 st) eqn:Ep; cbn [andb]; [| constructor].
destruct (truthy (cleanCaptionText (stringOrEmpty (prop "text" s)))) eqn:Et;
  constructor; [| constructor].
split; [| apply Qle_bool_iff; exact Ep].
split; [exact Ef |]. split; [apply truthy_true; exact Et |].
cbn [segmentLine text seg_text]. split; apply cleanCaptionText_tidy0.
Qed.

Lemma parseWhisperSegments_each (raw : option json) :
Forall (fun s => wellFormedLine (segmentLine s) /\ (0 <= start s)%Q)
  (parseWhisperSegments raw).
Proof.
unfold parseWhisperSegments. destruct raw as [parsed |]; [| constructor].
destruct (arrayOf (prop "segments" parsed)) as [segs |]; [| constructor].
destruct (existsb isNullJ segs); [constructor |].
apply Forall_sortBy. apply Forall_flat_map. intros s. apply whisperSegment_each.
Qed.

Lemma parseWhisperJson_wellFormed (raw : option json) :
Forall (fun l => wellFormedLine l /\ (0 <= t l)%Q) (parseWhisperJson raw).
Proof.
unfold parseWhisperJson. apply Forall_dedupe. apply Forall_map.
eapply Forall_impl; [| apply parseWhisperSegments_each].
intros s H. exact H.
Qed.

(** X7: whatever document the transcription left, the lines
    [parseWhisperJson] returns are in ascending order of time and
    de-jittered at 0.6s, by the test the code makes in binary64; each has
    a finite time that is not negative and a non-empty text in the normal
    form of [cleanCaptionText].  Fields of other types are converted: a
    start given as the string "1.5" and a text given as the number 7 are
    read as 1.5 and "7", a start [null] as 0; a segment [null] empties
    the result. *)
Theorem parseWhisperJson_lines (raw : option json) :
Forall (fun l => wellFormedLine l /\ (0 <= t l)%Q) (parseWhisperJson raw)
/\ sortedByTime (parseWhisperJson raw)
/\ dejittered (6 # 10) (parseWhisperJson raw)
/\ List.map (fun l => (Qred (t l), text l))
     (parseWhisperJson (U := asciiRuntime)
        (Some (JObj [(lit "segments",
           JArr [JObj [(lit "start", JStr (lit "1.5")); (lit "text", JStr (lit " la "))];
                 JObj [(lit "start", JNum 2); (lit "text", JNum 7)];
                 JObj [(lit "start", JNull); (lit "text", JStr (lit "x"))];
                 JObj [(lit "start", JNum 3); (lit "text", JNull)];
                 JStr (lit "y")])])))
   = [(0%Q, lit "x"); ((3 # 2)%Q, lit "la"); (2%Q, lit "7")]
/\ parseWhisperJson (U := asciiRuntime)
     (Some (JObj [(lit "segments",
        JArr [JObj [(lit "start", JNum 1); (lit "text", JStr (lit "la"))]; JNull])]))
   = [].
Proof.
split; [apply parseWhisperJson_wellFormed |].
split; [| split; [| split; vm_compute; reflexivity]]; unfold parseWhisperJson.
- eapply subseq_StronglySorted; [apply dedupeAdjacent_subseq |].
  unfold parseWhisperSegments. destruct raw as [parsed |]; [| constructor].
  destruct (arrayOf (prop "segments" parsed)) as [segs |]; [| constructor].
  destruct (existsb isNullJ segs); [constructor |].
  rewrite (sortBy_map (fun s => mkLine (start s) (seg_text s)) byStart byTime).
  + apply sortBy_byTime_sorted.
  + intros x y. reflexivity.
- apply dedupeAdjacent_adjacent.
Qed.

Lemma insertSorted_front {A : Type} (before : A -> A -> bool) (x : A) (l : list A) :
Forall (fun y => before x y = true) l -> insertSorted before x l = x :: l.
Proof.
intros H. destruct l as [| y l]; [reflexivity |].
cbn [insertSorted]. inversion H; subst. rewrite H2. reflexivity.
Qed.

Lemma sortBy_sorted_id {A : Type} (before : A -> A -> bool) (l : list A) :
StronglySorted (fun a b => before a b = true) l -> sortBy before l = l.
Proof.
induction 1 as [| x l Hs IH Hx]; [reflexivity |].
cbn [sortBy fold_right]. fold (sortBy before l). rewrite IH.
apply insertSorted_front. exact Hx.
Qed.

Lemma whisperSegment_clean (s : WhisperSegment) :
cleanSegment s = true -> whisperSegment (segmentJson s) = [s].
Proof.
intros H1. unfold cleanSegment in H1.
repeat (apply andb_true_iff in H1; destruct H1 as [H1 ?]).
match goal with H : Js.eqb _ _ = true |- _ => apply Js_eqb_eq in H; rename H into Hc end.
unfold whisperSegment, segmentJson. rewrite H1.
change (prop "start" (JObj [(lit "start", JNum (start s)); (lit "text", JStr (seg_text s))]))
  with (Some (JNum (start s))).
change (prop "text" (JObj [(lit "start", JNum (start s)); (lit "text", JStr (seg_text s))]))
  with (Some (JStr (seg_text s))).
cbn [toNumberU toNumber stringOrEmpty truthyJ jsString]. cbv zeta.
match goal with H : truthy _ = true |- _ => rewrite H end.
rewrite Hc, H1.
repeat match goal with H : _ = true |- _ => rewrite H end.
destruct s. reflexivity.
Qed.

(** X8: segments in ascending order of [start], with finite starts that
    are not negative and non-empty texts that [cleanCaptionText] leaves
    alone, come back unchanged when they are serialised and parsed again,
    as the last step of the pipeline does with the transcription. *)
Theorem parseWhisperSegments_stringify (segs : list WhisperSegment) :
StronglySorted (fun a b => byStart a b = true) segs ->
forallb cleanSegment segs = true ->
parseWhisperSegments (stringifySegments segs) = segs.
Proof.
intros Hs Hc. unfold parseWhisperSegments, stringifySegments.
change (prop "segments" (JObj [(lit "segments", ?x)])) with (Some x).
cbn [arrayOf]. fold segmentJson.
assert (En : existsb isNullJ (List.map segmentJson segs) = false).
{ clear. induction segs as [| s segs IH]; [reflexivity |]. exact IH. }
rewrite En.
assert (E : flat_map whisperSegment (List.map segmentJson segs) = segs).
{ clear Hs En. induction segs as [| s segs IH]; [reflexivity |].
  cbn [forallb] in Hc. apply andb_true_iff in Hc. destruct Hc as [H1 H2].
  cbn [List.map flat_map]. rewrite (IH H2), (whisperSegment_clean s H1). reflexivity. }
rewrite E. apply sortBy_sorted_id. exact Hs.
Qed.

End TranscriptionFacts.

(** ** Characters, scripts and scores *)

Lemma bump_count (p : N -> bool) (ch : N) (s : jsstring) (n : nat) :
bump (p ch) n + countOf p s = n + countOf p (ch :: s).
Proof. unfold countOf, bump. cbn [filter]. destruct (p ch); simpl; lia. Qed.

Lemma fold_countChar (s : jsstring) : forall c0,
fold_left countChar s c0 =
mkCounts (c_latin c0 + countOf isLatin s) (c_hangul c0 + countOf isHangul s)
  (c_hiragana c0 + countOf isHiragana s) (c_katakana c0 + countOf isKatakana s)
  (c_han c0 + countOf isHan s) (c_cyrillic c0 + countOf isCyrillic s).
Proof.
induction s as [| ch s IH]; intros c0.
- destruct c0. unfold countOf. simpl. f_equal; lia.
- cbn [fold_left]. rewrite IH. unfold countChar.
  cbn [c_latin c_hangul c_hiragana c_katakana c_han c_cyrillic].
  rewrite !bump_count. reflexivity.
Qed.

(** Each counter is the number of code units in its ranges. *)
Lemma scriptCharCounts_countOf (s : jsstring) :
scriptCharCounts s =
mkCounts (countOf isLatin s) (countOf isHangul s) (countOf isHiragana s)
  (countOf isKatakana s) (countOf isHan s) (countOf isCyrillic s).
Proof. unfold scriptCharCounts. rewrite fold_countChar. reflexivity. Qed.

Lemma inRange_bounds (lo hi c : N) : inRange lo hi c = true <-> (lo <= c <= hi)%N.
Proof.
unfold inRange. rewrite andb_true_iff, !N.leb_le. reflexivity.
Qed.

(** The six ranges are pairwise disjoint. *)
Lemma classes_disjoint (c : N) :
b2n (isLatin c) + b2n (isHangul c) + b2n (isHiragana c) + b2n (isKatakana c)
+ b2n (isHan c) + b2n (isCyrillic c) = b2n (isClassifiable c).
Proof.
unfold isClassifiable.
destruct (isLatin c) eqn:E1; destruct (isHangul c) eqn:E2;
destruct (isHiragana c) eqn:E3; destruct (isKatakana c) eqn:E4;
destruct (isHan c) eqn:E5; destruct (isCyrillic c) eqn:E6; try reflexivity; exfalso;
unfold isLatin, isHangul, isHiragana, isKatakana, isHan, isCyrillic in *;
repeat match goal with
| H : _ || _ = true |- _ => apply orb_true_iff in H; destruct H as [H | H]
| H : inRange _ _ _ = true |- _ => apply inRange_bounds in H
| H : _ = false |- _ => clear H
end; lia.
Qed.

Lemma countOf_cons (p : N -> bool) (c : N) (s : jsstring) :
countOf p (c :: s) = b2n (p c) + countOf p s.
Proof. unfold countOf. cbn [filter]. destruct (p c); reflexivity. Qed.

Lemma classifiable_countOf (s : jsstring) :
classifiableCount (scriptCharCounts s) = countOf isClassifiable s.
Proof.
rewrite scriptCharCounts_countOf. unfold classifiableCount, c_japanese.
cbn [c_latin c_hangul c_hiragana c_katakana c_han c_cyrillic].
induction s as [| c s IH]; [reflexivity |].
rewrite !countOf_cons. pose proof (classes_disjoint c). lia.
Qed.

Lemma countOf_le (p : N -> bool) (s : jsstring) : countOf p s <= List.length s.
Proof. unfold countOf. apply filter_length_le. Qed.

(** X9: the six ranges of [scriptCharCounts] are disjoint, so that no
    character is counted twice: the counters add up to the number of
    characters in the ranges, which is at most the length of the text. *)
Theorem scriptCharCounts_counts_once (s : jsstring) :
c_latin (scriptCharCounts s) + c_hangul (scriptCharCounts s)
+ c_hiragana (scriptCharCounts s) + c_katakana (scriptCharCounts s)
+ c_han (scriptCharCounts s) + c_cyrillic (scriptCharCounts s)
= countOf isClassifiable s
/\ countOf isClassifiable s <= List.length s.
Proof.
split; [| apply countOf_le].
rewrite <- classifiable_countOf. unfold classifiableCount, c_japanese. lia.
Qed.



Lemma countOf_perm (p : N -> bool) (s1 s2 : jsstring) :
Permutation s1 s2 -> countOf p s1 = countOf p s2.
Proof.
induction 1 as [| x l l' _ IH | x y l | l l' l'' _ IH1 _ IH2].
- reflexivity.
- rewrite !countOf_cons, IH. reflexivity.
- rewrite !countOf_cons. lia.
- congruence.
Qed.

Lemma countOf_filter (p q : N -> bool) (s : jsstring) :
(forall c, p c = true -> q c = true) -> countOf p (filter q s) = countOf p s.
Proof.
intros H. induction s as [| c s IH]; [reflexivity |].
cbn [filter]. destruct (q c) eqn:Eq.
- rewrite !countOf_cons, IH. reflexivity.
- rewrite countOf_cons, IH. destruct (p c) eqn:Ep; [| reflexivity].
  rewrite (H c Ep) in Eq. discriminate.
Qed.

Lemma scriptCharCounts_classifiable (s : jsstring) :
scriptCharCounts (filter isClassifiable s) = scriptCharCounts s.
Proof.
rewrite !scriptCharCounts_countOf.
f_equal; apply countOf_filter; intros c H; unfold isClassifiable; rewrite H;
  rewrite ?orb_true_r; reflexivity.
Qed.

Lemma scriptCharCounts_perm (s1 s2 : jsstring) :
Permutation s1 s2 -> scriptCharCounts s1 = scriptCharCounts s2.
Proof.
intros H. rewrite !scriptCharCounts_countOf. f_equal; apply countOf_perm; exact H.
Qed.

Lemma scriptCharCounts_same (s1 s2 : jsstring) :
Permutation (filter isClassifiable s1) (filter isClassifiable s2) ->
scriptCharCounts s1 = scriptCharCounts s2.
Proof.
intros H. rewrite <- (scriptCharCounts_classifiable s1), <- (scriptCharCounts_classifiable s2).
apply scriptCharCounts_perm. exact H.
Qed.

(** X10: [detectScript] and [isScriptCompatible] see a text only through
    its classifiable characters and not through their order: two texts
    whose letters of the six ranges are the same up to order get the same
    answers, whatever digits, spaces, punctuation or other characters
    they contain. *)
Theorem script_tests_by_letters (s1 s2 : jsstring) :
Permutation (filter isClassifiable s1) (filter isClassifiable s2) ->
detectScript s1 = detectScript s2
/\ forall expected, isScriptCompatible s1 expected = isScriptCompatible s2 expected.
Proof.
intros H. apply scriptCharCounts_same in H. split.
- unfold detectScript. rewrite H. reflexivity.
- intros expected. unfold isScriptCompatible. rewrite H. reflexivity.
Qed.

(** X11: with [cyrillic] expected a text passes exactly when it has two
    Cyrillic letters; [unknown] and [mixed] accept every text; and a text
    without any classifiable character passes for no other expectation. *)
Theorem isScriptCompatible_edges (text : jsstring) :
(isScriptCompatible text cyrillic = true <-> 2 <= c_cyrillic (scriptCharCounts text))
/\ isScriptCompatible text unknown = true
/\ isScriptCompatible text mixed = true
/\ (countOf isClassifiable text = 0 ->
    forall expected, isSettled expected = true -> isScriptCompatible text expected = false).
Proof.
split; [| split; [reflexivity | split; [reflexivity |]]].
- unfold isScriptCompatible.
  generalize (scriptCharCounts text). intros c. unfold c_japanese.
  nat_cases; split; intros E; try discriminate; try reflexivity; lia.
- intros H0 expected He. rewrite <- classifiable_countOf in H0.
  unfold classifiableCount in H0. unfold isScriptCompatible.
  destruct (Nat.eqb_spec
    (c_latin (scriptCharCounts text) + c_hangul (scriptCharCounts text)
     + c_japanese (scriptCharCounts text) + c_cyrillic (scriptCharCounts text)) 0) as [E | E];
    [| lia].
  destruct expected; try reflexivity; discriminate.
Qed.

(** X12: a title without classifiable characters, an absent one for
    instance, leaves the expected script to the channel title alone. *)
Theorem detectExpectedScriptFromMeta_blank_title (title channelTitle : jsstring) :
countOf isClassifiable title = 0 ->
detectExpectedScriptFromMeta title channelTitle = detectScript channelTitle.
Proof.
intros H0.
assert (Hf : filter isClassifiable title = []).
{ unfold countOf in H0. destruct (filter isClassifiable title); [reflexivity | discriminate]. }
assert (Ht : scriptCharCounts title = scriptCharCounts []).
{ apply scriptCharCounts_same. rewrite Hf. reflexivity. }
assert (Hc : scriptCharCounts (title ++ lit " " ++ channelTitle) = scriptCharCounts channelTitle).
{ apply scriptCharCounts_same. rewrite !filter_app, Hf. reflexivity. }
unfold detectExpectedScriptFromMeta.
assert (Hu : detectScript title = unknown).
{ unfold detectScript. rewrite Ht. reflexivity. }
rewrite Hu. cbn [isSettled].
unfold detectScript. rewrite Hc. reflexivity.
Qed.

Section Scores.

Local Open Scope Z_scope.

Lemma score_parts (c : LyricsCandidate) (e : ScriptType) :
exists density script,
0 <= density <= 16 /\ (script = 0 \/ script = 8)
/\ scoreLyricsCandidate c e =
   (match source c with
    | captions => 96
    | catalog => match mode c with timed => 90 | plain => 84 end
    | catalog_aligned => 82
    | stt => 48
    | source_none => 0
    end)
   + (match syncMethod c with Some native => 7 | Some ai => 2 | _ => 0 end)
   + density + script
/\ forall s, scoreLyricsCandidate (withSource c s) e =
   (match s with
    | captions => 96
    | catalog => match mode c with timed => 90 | plain => 84 end
    | catalog_aligned => 82
    | stt => 48
    | source_none => 0
    end)
   + (match syncMethod c with Some native => 7 | Some ai => 2 | _ => 0 end)
   + density + script.
Proof.
unfold scoreLyricsCandidate. cbv zeta. cbn [withSource source mode syncMethod lines plainLyrics].
set (b := truthy _ && isScriptCompatible _ e).
eexists. exists (if b then 8 else 0).
split; [| split; [| split; [reflexivity | intros s; reflexivity]]].
- destruct (mode c).
  + pose proof (Z.div_pos (Z.of_nat (List.length (lines c))) 6). lia.
  + pose proof (Z.div_pos (Z.of_nat (List.length (orEmpty (plainLyrics c)))) 120). lia.
- destruct b; [right | left]; reflexivity.
Qed.

Lemma scoreLyricsCandidate_range (c : LyricsCandidate) (e : ScriptType) :
0 <= scoreLyricsCandidate c e <= 127.
Proof.
destruct (score_parts c e) as [d [s [Hd [Hs [E _]]]]].
rewrite E. destruct (source c), (mode c), (syncMethod c) as [[| |] |]; lia.
Qed.

(** X13: a score lies between 0 and 127; with everything but the source
    kept, captions score above catalog lyrics, these above aligned catalog
    lyrics, these above a transcription, and this above "none"; and
    whatever the other fields are, a transcription scores below every
    candidate from captions or from the catalog. *)
Theorem scoreLyricsCandidate_source_priority (c c' : LyricsCandidate) (e : ScriptType) :
0 <= scoreLyricsCandidate c e <= 127
/\ scoreLyricsCandidate (withSource c source_none) e
   < scoreLyricsCandidate (withSource c stt) e
   < scoreLyricsCandidate (withSource c catalog_aligned) e
/\ scoreLyricsCandidate (withSource c catalog_aligned) e
   < scoreLyricsCandidate (withSource c catalog) e
   < scoreLyricsCandidate (withSource c captions) e
/\ (source c = stt ->
    source c' = captions \/ source c' = catalog \/ source c' = catalog_aligned ->
    scoreLyricsCandidate c e < scoreLyricsCandidate c' e).
Proof.
destruct (score_parts c e) as [d [s [Hd [Hs [E Ew]]]]].
destruct (score_parts c' e) as [d' [s' [Hd' [Hs' [E' _]]]]].
split; [| split; [| split]].
- apply scoreLyricsCandidate_range.
- rewrite !Ew. lia.
- rewrite !Ew. destruct (mode c); lia.
- intros H1 H2. rewrite E, E', H1.
  destruct H2 as [H2 | [H2 | H2]]; rewrite H2;
    destruct (mode c'), (syncMethod c) as [[| |] |], (syncMethod c') as [[| |] |]; lia.
Qed.

End Scores.

(** ** Cache document and catalog, further *)

Lemma parseLines_finite (items : list json) : Forall finiteLine (parseLines items).
Proof.
unfold parseLines. apply Forall_flat_map. intros l.
destruct (truthyJ l); [| constructor].
destruct (toNumberU (prop "t" l)) as [q |]; [| constructor].
destruct (prop "text" l) as [[| | | s | |] |]; try constructor.
destruct (isFiniteQ q) eqn:E; constructor; [exact E | constructor].
Qed.

Lemma parseCandidate_persistable (c : json) : Forall persistable (parseCandidate c).
Proof.
unfold parseCandidate. destruct (truthyJ c); [| constructor].
destruct (prop "id" c) as [[| | | cid | |] |]; try constructor.
destruct (prop "label" c) as [[| | | clabel | |] |]; try constructor.
destruct (arrayOf (prop "lines" c)) as [ls |]; constructor; [| constructor].
unfold persistable. cbn [lines score syncMethod].
split; [apply parseLines_finite |]. split; [| discriminate].
destruct (toNumberU (prop "score" c)) as [q |]; [| reflexivity].
destruct (isFiniteQ q) eqn:E; [exact E | reflexivity].
Qed.

Lemma readCachedLyrics_persistable (vid : jsstring) (f : FileState) (r : LyricsResponse) :
readCachedLyrics vid f = Some r -> persistableResponse r.
Proof.
unfold readCachedLyrics. destruct f as [| | parsed]; try discriminate.
destruct (negb (truthyJ parsed)); [discriminate |].
destruct (prop "videoId" parsed) as [[| | | v | |] |]; try discriminate.
destruct (arrayOf (prop "lines" parsed)) as [ls |]; [| discriminate].
destruct (Js.eqb v vid); [| discriminate].
intros E. inversion E; subst. unfold persistableResponse.
cbn [r_lines r_syncMethod candidates].
split; [apply parseLines_finite |]. split; [discriminate |].
eexists. split; [reflexivity |].
destruct (arrayOf (prop "candidates" parsed)) as [cs |]; [| constructor].
apply Forall_flat_map. apply parseCandidate_persistable.
Qed.

(** X14: whatever the cache document holds, a result that
    [readCachedLyrics] returns carries the requested [videoId], finite
    times and scores, a [syncMethod] and a candidate list, and it is a
    fixed point of writing and reading: its own document reads back as
    itself. *)
Theorem readCachedLyrics_normalises (vid : jsstring) (f : FileState) (r : LyricsResponse) :
readCachedLyrics vid f = Some r ->
videoId r = vid
/\ persistableResponse r
/\ readCachedLyrics vid (Holds (responseToJson r)) = Some r.
Proof.
intros H. pose proof (readCachedLyrics_videoId vid f r H) as Hv.
pose proof (readCachedLyrics_persistable vid f r H) as Hp.
split; [exact Hv |]. split; [exact Hp |].
rewrite <- Hv. apply readCachedLyrics_roundtrip. exact Hp.
Qed.

Section Catalog.

Context {U : Runtime}.

Lemma dedupeQueries_subseq (qs : list Query) : forall seen,
subseq (dedupeQueries seen qs) qs.
Proof.
induction qs as [| q qs IH]; intros seen; cbn [dedupeQueries].
- constructor.
- destruct (existsb _ seen); [apply subseq_skip | apply subseq_take]; apply IH.
Qed.

Lemma dedupeQueries_fresh (qs : list Query) : forall seen q,
In q (dedupeQueries seen qs) -> ~ In (queryKey q) seen.
Proof.
induction qs as [| q0 qs IH]; intros seen q Hin; cbn [dedupeQueries] in Hin.
- contradiction.
- destruct (existsb (Js.eqb (queryKey q0)) seen) eqn:E.
  + apply IH. exact Hin.
  + destruct Hin as [Hq | Hin].
    * subst q0. intros Hs. apply existsb_eqb_In in Hs. congruence.
    * intros Hs. apply (IH _ _ Hin). right. exact Hs.
Qed.

Lemma dedupeQueries_NoDup (qs : list Query) : forall seen,
NoDup (List.map queryKey (dedupeQueries seen qs)).
Proof.
induction qs as [| q0 qs IH]; intros seen; cbn [dedupeQueries].
- constructor.
- destruct (existsb (Js.eqb (queryKey q0)) seen); [apply IH |].
  cbn [List.map]. constructor; [| apply IH].
  intros Hin. apply in_map_iff in Hin. destruct Hin as [q [Ek Hq]].
  apply dedupeQueries_fresh in Hq. apply Hq. left. symmetry. exact Ek.
Qed.

Lemma extractArtistTrackCandidates_blank (title channelTitle : jsstring) :
cleanSearchName title = [] -> extractArtistTrackCandidates title channelTitle = [].
Proof.
intros E. unfold extractArtistTrackCandidates. cbv zeta. rewrite E. reflexivity.
Qed.

Lemma extractArtistTrackCandidates_shape (title channelTitle : jsstring) :
List.length (extractArtistTrackCandidates title channelTitle) <= 4
/\ Forall (fun q => q_track q <> []) (extractArtistTrackCandidates title channelTitle).
Proof.
unfold extractArtistTrackCandidates. cbv zeta.
set (cleanedTitle := cleanSearchName title).
set (cleanedChannel := trim _).
set (bySep := fun sep : jsstring => if includes sep cleanedTitle then _ else []).
set (fallback := if truthy cleanedTitle then _ else []).
assert (Hsep : forall sep, List.length (bySep sep) <= 1
                           /\ Forall (fun q => q_track q <> []) (bySep sep)).
{ intros sep. unfold bySep. destruct (includes sep cleanedTitle); [| split; [simpl; lia | constructor]].
  destruct (breakOn sep cleanedTitle) as [leftPart [rest |]]; [| split; [simpl; lia | constructor]].
  destruct (truthy (trim leftPart)); cbn [andb]; [| split; [simpl; lia | constructor]].
  destruct (truthy (trim rest)) eqn:Er; [| split; [simpl; lia | constructor]].
  split; [simpl; lia |]. constructor; [| constructor]. cbn [q_track].
  apply truthy_true. exact Er. }
assert (Hfb : List.length fallback <= 1 /\ Forall (fun q => q_track q <> []) fallback).
{ unfold fallback. destruct (truthy cleanedTitle) eqn:Et; [| split; [simpl; lia | constructor]].
  split; [simpl; lia |]. constructor; [| constructor]. cbn [q_track].
  apply truthy_true. exact Et. }
split.
- eapply Nat.le_trans; [apply subseq_length, dedupeQueries_subseq |].
  rewrite length_app. cbn [flat_map]. rewrite !length_app. cbn [List.length].
  pose proof (proj1 (Hsep [32; 45; 32]%N)). pose proof (proj1 (Hsep [32; 8211; 32]%N)).
  pose proof (proj1 (Hsep [32; 8212; 32]%N)). pose proof (proj1 Hfb). lia.
- eapply subseq_Forall; [apply dedupeQueries_subseq |].
  apply Forall_app. split; [| apply Hfb].
  apply Forall_flat_map. intros sep. apply Hsep.
Qed.

(** X15: [extractArtistTrackCandidates] returns at most four queries, each
    with a non-empty track, no two with the same artist and track up to
    letter case; and none at all when nothing of the title is left after
    cleaning. *)
Theorem extractArtistTrackCandidates_queries (title channelTitle : jsstring) :
List.length (extractArtistTrackCandidates title channelTitle) <= 4
/\ Forall (fun q => q_track q <> []) (extractArtistTrackCandidates title channelTitle)
/\ NoDup (List.map queryKey (extractArtistTrackCandidates title channelTitle))
/\ (cleanSearchName title = [] -> extractArtistTrackCandidates title channelTitle = []).
Proof.
split; [apply extractArtistTrackCandidates_shape |].
split; [apply extractArtistTrackCandidates_shape |].
split; [apply dedupeQueries_NoDup | apply extractArtistTrackCandidates_blank].
Qed.

Lemma dedupeCatalog_subseq (e : ScriptType) (cs : list CatalogCandidate) : forall seen,
subseq (dedupeCatalog e seen cs) cs.
Proof.
induction cs as [| c cs IH]; intros seen; cbn [dedupeCatalog].
- constructor.
- destruct (catalogKey e c) as [key |]; [| apply subseq_skip, IH].
  destruct (existsb _ seen); [apply subseq_skip | apply subseq_take]; apply IH.
Qed.

Lemma dedupeCatalog_keyed (e : ScriptType) (cs : list CatalogCandidate) : forall seen,
Forall (fun c => exists key, catalogKey e c = Some key /\ ~ In key seen)
  (dedupeCatalog e seen cs).
Proof.
induction cs as [| c cs IH]; intros seen; cbn [dedupeCatalog].
- constructor.
- destruct (catalogKey e c) as [key |] eqn:Ek; [| apply IH].
  destruct (existsb (Js.eqb key) seen) eqn:Es; [apply IH |].
  constructor.
  + exists key. split; [exact Ek |]. intros Hin. apply existsb_eqb_In in Hin. congruence.
  + eapply Forall_impl; [| apply IH]. intros c' [k' [E' Hn]].
    exists k'. split; [exact E' |]. intros Hin. apply Hn. right. exact Hin.
Qed.

Lemma dedupeCatalog_NoDup (e : ScriptType) (cs : list CatalogCandidate) : forall seen,
NoDup (List.map (keyOf e) (dedupeCatalog e seen cs)).
Proof.
induction cs as [| c cs IH]; intros seen; cbn [dedupeCatalog].
- constructor.
- destruct (catalogKey e c) as [key |] eqn:Ek; [| apply IH].
  destruct (existsb (Js.eqb key) seen) eqn:Es; [apply IH |].
  cbn [List.map]. constructor; [| apply IH].
  intros Hin. apply in_map_iff in Hin. destruct Hin as [c' [E' Hc']].
  pose proof (dedupeCatalog_keyed e cs (key :: seen)) as Hk.
  rewrite Forall_forall in Hk. destruct (Hk c' Hc') as [k' [Ek' Hn]].
  unfold keyOf in E'. rewrite Ek, Ek' in E'. apply Hn. left. symmetry. exact E'.
Qed.

Lemma byCatalogScoreDesc_total (a b : CatalogCandidate) :
byCatalogScoreDesc a b = false -> byCatalogScoreDesc b a = true.
Proof. unfold byCatalogScoreDesc. rewrite Z.leb_gt, Z.leb_le. lia. Qed.

Lemma sortBy_catalog_sorted (l : list CatalogCandidate) :
StronglySorted (fun a b => (cat_score b <= cat_score a)%Z) (sortBy byCatalogScoreDesc l).
Proof.
assert (S : Sorted (fun a b => (cat_score b <= cat_score a)%Z) (sortBy byCatalogScoreDesc l)).
{ generalize (sortBy_Sorted _ byCatalogScoreDesc byCatalogScoreDesc_total l).
  generalize (sortBy byCatalogScoreDesc l). intros l0 H.
  induction H as [| x l1 Hs IH Hhd]; constructor.
  - exact IH.
  - destruct Hhd; constructor. apply Z.leb_le. assumption. }
apply Sorted_StronglySorted; [| exact S].
intros a b c Hab Hbc. lia.
Qed.

Lemma rankedHits_good (e : ScriptType) (collected : list CatalogCandidate) :
goodHits e (rankedHits e collected).
Proof.
unfold rankedHits, goodHits.
set (kept := dedupeCatalog e [] (sortBy byCatalogScoreDesc collected)).
split; [apply firstn_le_length |]. split; [| split].
- eapply subseq_StronglySorted; [apply subseq_firstn | apply sortBy_catalog_sorted].
- eapply subseq_Forall; [apply subseq_firstn |]. apply Forall_sortBy.
  eapply Forall_impl; [| apply dedupeCatalog_keyed].
  intros c [k [E _]]. congruence.
- eapply subseq_NoDup; [apply subseq_map, subseq_firstn |].
  eapply Permutation_NoDup; [apply Permutation_map, Permutation_sym, sortBy_perm |].
  apply dedupeCatalog_NoDup.
Qed.

Lemma lowerOrEmpty_none (v : option json) :
lowerOrEmpty v = None <-> truthyNonString v = true.
Proof.
destruct v as [[| b | q | s | l | f] |]; cbn; try destruct b;
  try destruct (negb (Qeq_bool q 0)); split; congruence.
Qed.

Lemma hasText_none (v : option json) :
hasText v = None <-> truthyNonString v = true.
Proof.
destruct v as [[| b | q | s | l | f] |]; cbn; try destruct b;
  try destruct (negb (Qeq_bool q 0)); split; congruence.
Qed.

(** A name that the scoring accepts is a string or falsy, so that
    [nameOrEmpty] is what the key and the label read. *)
Lemma lowerOrEmpty_name (v : option json) (s : jsstring) :
lowerOrEmpty v = Some s -> s = toLowerCase (nameOrEmpty v).
Proof.
destruct v as [[| b | q | x | l | f] |]; cbn; try destruct b;
  try destruct (negb (Qeq_bool q 0)); congruence.
Qed.

Lemma scoreCatalogCandidate_none (tr : json) (artist song : jsstring) :
scoreCatalogCandidate tr artist song = None
<-> tr = JNull
    \/ truthyNonString (prop "trackName" tr) || truthyNonString (prop "artistName" tr)
       || truthyNonString (prop "syncedLyrics" tr)
       || truthyNonString (prop "plainLyrics" tr) = true.
Proof.
assert (H : tr <> JNull ->
  (match lowerOrEmpty (prop "trackName" tr), lowerOrEmpty (prop "artistName" tr),
         hasText (prop "syncedLyrics" tr), hasText (prop "plainLyrics" tr) with
   | Some tn, Some an, Some synced, Some plainText =>
     Some ((if Js.eqb tn (toLowerCase song) then 12
            else if includes (toLowerCase song) tn || includes tn (toLowerCase song)
                 then 8 else 0)
           + (if truthy (toLowerCase artist) && Js.eqb an (toLowerCase artist) then 10
              else if truthy (toLowerCase artist)
                      && (includes (toLowerCase artist) an || includes an (toLowerCase artist))
              then 6 else 0)
           + (if synced then 10 else 0)
           + (if plainText then 3 else 0))%Z
   | _, _, _, _ => None
   end = None)
  <-> tr = JNull
      \/ truthyNonString (prop "trackName" tr) || truthyNonString (prop "artistName" tr)
         || truthyNonString (prop "syncedLyrics" tr)
         || truthyNonString (prop "plainLyrics" tr) = true).
{ intros Hn.
  pose proof (lowerOrEmpty_none (prop "trackName" tr)) as H1.
  pose proof (lowerOrEmpty_none (prop "artistName" tr)) as H2.
  pose proof (hasText_none (prop "syncedLyrics" tr)) as H3.
  pose proof (hasText_none (prop "plainLyrics" tr)) as H4.
  destruct (lowerOrEmpty (prop "trackName" tr)) as [tn |];
  destruct (lowerOrEmpty (prop "artistName" tr)) as [an |];
  destruct (hasText (prop "syncedLyrics" tr)) as [sy |];
  destruct (hasText (prop "plainLyrics" tr)) as [pl |];
  destruct (truthyNonString (prop "trackName" tr));
  destruct (truthyNonString (prop "artistName" tr));
  destruct (truthyNonString (prop "syncedLyrics" tr));
  destruct (truthyNonString (prop "plainLyrics" tr));
  cbn [orb];
  try (split; [intros _; right; reflexivity | reflexivity]);
  try (exfalso; first [ discriminate (proj1 H1 eq_refl) | discriminate (proj1 H2 eq_refl)
                      | discriminate (proj1 H3 eq_refl) | discriminate (proj1 H4 eq_refl)
                      | discriminate (proj2 H1 eq_refl) | discriminate (proj2 H2 eq_refl)
                      | discriminate (proj2 H3 eq_refl) | discriminate (proj2 H4 eq_refl) ]).
  split; [discriminate | intros [E | E]; [contradiction | discriminate]]. }
destruct tr; try (apply H; discriminate).
cbn. split; [intros _; left; reflexivity | reflexivity].
Qed.

Lemma fetchCatalog_result (vid : jsstring) (e : ScriptType) :
ensures (fetchCatalogLyricsCandidates vid e) (goodHits e).
Proof.
unfold fetchCatalogLyricsCandidates.
apply (ensures_bind _ _ (fun _ => True)); [apply ensures_any |]. intros d _.
cbv zeta.
apply (ensures_bind _ _ (fun _ => True)); [apply ensures_any |]. intros collected _.
apply ensures_ret. apply rankedHits_good.
Qed.

Lemma catalogCandidate_one (e : ScriptType) (c : CatalogCandidate) (i : nat) :
catalogKey e c <> None -> List.length (catalogCandidate c i) = 1.
Proof.
unfold catalogKey, catalogCandidate. cbv zeta.
destruct (extractSyncedLines (track c)) as [| l ls]; [| reflexivity].
destruct (extractPlainLyrics (track c)) as [| x p]; [| reflexivity].
intros H. exfalso. apply H. reflexivity.
Qed.

Lemma length_concat_mapi_go {A B : Type} (f : A -> nat -> list B) (l : list A) : forall i,
(forall x j, In x l -> List.length (f x j) = 1) ->
List.length (List.concat (mapi_go f i l)) = List.length l.
Proof.
induction l as [| x l IH]; intros i H; [reflexivity |].
cbn [mapi_go List.concat]. rewrite length_app, IH.
- rewrite (H x i (or_introl eq_refl)). reflexivity.
- intros y j Hy. apply H. right. exact Hy.
Qed.

(** X16: the catalog source returns at most six hits, in descending order
    of score, no two under the same key, each with lyrics that are not
    empty and pass the script check; and every hit becomes exactly one
    candidate of the pipeline. *)
Theorem fetchCatalogLyricsCandidates_hits (vid : jsstring) (e : ScriptType) (st st' : State)
  (hits : list CatalogCandidate) :
fetchCatalogLyricsCandidates vid e st = (Returned hits, st') ->
List.length hits <= 6
/\ StronglySorted (fun a b => (cat_score b <= cat_score a)%Z) hits
/\ Forall (fun c => catalogKey e c <> None) hits
/\ NoDup (List.map (keyOf e) hits)
/\ List.length (List.concat (mapi catalogCandidate hits)) = List.length hits.
Proof.
intros H. destruct (fetchCatalog_result vid e st hits st' H) as [H1 [H2 [H3 H4]]].
repeat split; try assumption.
apply length_concat_mapi_go. intros c j Hc.
apply (catalogCandidate_one e). rewrite Forall_forall in H3. apply H3. exact Hc.
Qed.

(** X17: when nothing of the title is left after cleaning, as without a
    metadata file, the catalog is not contacted: the source returns no
    hit and leaves the state, trace included, as it was. *)
Theorem fetchCatalogLyricsCandidates_without_title (vid : jsstring) (e : ScriptType)
  (st : State) :
cleanSearchName (fst (readMeta (metaFile (dirs (world st) vid)))) = [] ->
fetchCatalogLyricsCandidates vid e st = (Returned [], st).
Proof.
intros H. unfold fetchCatalogLyricsCandidates, bind, getDir, ask. cbv zeta.
rewrite (extractArtistTrackCandidates_blank _ _ H).
reflexivity.
Qed.

End Catalog.

(** ** Effects of the pipeline *)

Lemma uses_ret {A : Type} (a : A) (Q : A -> list Event -> Prop) : Q a [] -> uses (ret a) Q.
Proof. intros H st. exists a, []. cbn. rewrite app_nil_r. repeat split. exact H. Qed.

Lemma uses_bind {A B : Type} (m : M A) (k : A -> M B) (Q1 : A -> list Event -> Prop)
  (Q : B -> list Event -> Prop) :
uses m Q1 ->
(forall a evs1, Q1 a evs1 -> uses (k a) (fun b evs2 => Q b (evs1 ++ evs2))) ->
uses (bind m k) Q.
Proof.
intros Hm Hk st. destruct (Hm st) as [a [evs1 [E1 [T1 H1]]]].
unfold bind. destruct (m st) as [[a' |] st1]; cbn [fst snd] in E1, T1; [| discriminate].
inversion E1; subst a'.
destruct (Hk a evs1 H1 st1) as [b [evs2 [E2 [T2 H2]]]].
exists b, (evs1 ++ evs2). split; [exact E2 |]. split; [| exact H2].
rewrite T2, T1, app_assoc. reflexivity.
Qed.

Lemma uses_ask {A B : Type} (f : World -> A) (k : A -> M B) (Q : B -> list Event -> Prop) :
(forall a, uses (k a) Q) -> uses (bind (ask f) k) Q.
Proof.
intros H st. unfold bind, ask. apply H.
Qed.

Lemma uses_emit {B : Type} (e : Event) (k : M B) (Q : B -> list Event -> Prop) :
uses k (fun b evs => Q b (e :: evs)) -> uses (bind (emit e) (fun _ => k)) Q.
Proof.
intros H st. unfold bind, emit.
destruct (H (mkState (world st) (trace st ++ [e]))) as [b [evs [E [T HQ]]]].
exists b, (e :: evs). split; [exact E |]. split; [| exact HQ].
rewrite T. cbn [trace]. rewrite <- app_assoc. reflexivity.
Qed.

Lemma uses_setDir {B : Type} (vid : jsstring) (d : VideoDir) (k : M B)
  (Q : B -> list Event -> Prop) :
uses k Q -> uses (bind (setDir vid d) (fun _ => k)) Q.
Proof.
intros H st. unfold bind, setDir. cbv zeta.
match goal with |- context [k ?s] => destruct (H s) as [b [evs [E [T HQ]]]] end.
exists b, evs. split; [exact E |]. split; [exact T | exact HQ].
Qed.

Lemma uses_weaken {A : Type} (m : M A) (Q1 Q2 : A -> list Event -> Prop) :
(forall a evs, Q1 a evs -> Q2 a evs) -> uses m Q1 -> uses m Q2.
Proof.
intros H Hm st. destruct (Hm st) as [a [evs [E [T HQ]]]].
exists a, evs. repeat split; try assumption. apply H. exact HQ.
Qed.

Section Frames.

Variable I : World -> World -> Prop.
Hypothesis I_refl : forall w, I w w.
Hypothesis I_trans : forall w1 w2 w3, I w1 w2 -> I w2 w3 -> I w1 w3.

Lemma keeps_ret {A : Type} (a : A) : keeps (ret a) I.
Proof. intros st. apply I_refl. Qed.

Lemma keeps_throw {A : Type} : keeps (@throw A) I.
Proof. intros st. apply I_refl. Qed.

Lemma keeps_ask {A : Type} (f : World -> A) : keeps (ask f) I.
Proof. intros st. apply I_refl. Qed.

Lemma keeps_emit (e : Event) : keeps (emit e) I.
Proof. intros st. apply I_refl. Qed.

Lemma keeps_bind {A B : Type} (m : M A) (k : A -> M B) :
keeps m I -> (forall a, keeps (k a) I) -> keeps (bind m k) I.
Proof.
intros Hm Hk st. specialize (Hm st). unfold bind.
destruct (m st) as [[a |] st1]; cbn [snd] in *; [| exact Hm].
eapply I_trans; [exact Hm | apply Hk].
Qed.

Lemma keeps_forEach {A B : Type} (l : list A) (body : B -> A -> M B) :
(forall acc x, keeps (body acc x) I) -> forall acc, keeps (forEach l acc body) I.
Proof.
intros H. induction l as [| x l IH]; intros acc; cbn [forEach].
- apply keeps_ret.
- apply keeps_bind; [apply H | intros acc'; apply IH].
Qed.

End Frames.

Lemma sameTools_refl (w : World) : sameTools w w.
Proof. repeat split. Qed.

Lemma sameTools_trans (w1 w2 w3 : World) : sameTools w1 w2 -> sameTools w2 w3 -> sameTools w1 w3.
Proof.
unfold sameTools. intros H1 H2.
destruct H1 as [A0 [A1 [A2 [A3 [A4 [A5 [A6 A7]]]]]]].
destruct H2 as [B0 [B1 [B2 [B3 [B4 [B5 [B6 B7]]]]]]].
repeat split; congruence.
Qed.

Lemma pipelineFrame_refl (vid : jsstring) (w : World) : pipelineFrame vid w w.
Proof. split; [apply sameTools_refl |]. repeat split. intros H. exact H. Qed.

Lemma pipelineFrame_trans (vid : jsstring) (w1 w2 w3 : World) :
pipelineFrame vid w1 w2 -> pipelineFrame vid w2 w3 -> pipelineFrame vid w1 w3.
Proof.
intros [T1 [E1 [M1 A1]]] [T2 [E2 [M2 A2]]].
split; [eapply sameTools_trans; eassumption |]. split; [| split].
- intros v Hv. rewrite (E2 v Hv). apply E1. exact Hv.
- congruence.
- intros H. apply A2, A1, H.
Qed.

Lemma sourceFrame_refl (vid : jsstring) (w : World) : sourceFrame vid w w.
Proof. split; [apply pipelineFrame_refl | reflexivity]. Qed.

Lemma sourceFrame_trans (vid : jsstring) (w1 w2 w3 : World) :
sourceFrame vid w1 w2 -> sourceFrame vid w2 w3 -> sourceFrame vid w1 w3.
Proof.
intros [P1 C1] [P2 C2]. split; [eapply pipelineFrame_trans; eassumption | congruence].
Qed.

Lemma uses_ask0 {A : Type} (f : World -> A) (Q : A -> list Event -> Prop) :
(forall a, Q a []) -> uses (ask f) Q.
Proof.
intros H st. exists (f (world st)), []. cbn. rewrite app_nil_r. repeat split. apply H.
Qed.

Lemma keeps_weaken {A : Type} (m : M A) (I J : World -> World -> Prop) :
(forall w w', I w w' -> J w w') -> keeps m I -> keeps m J.
Proof. intros H Hm st. apply H, Hm. Qed.

Lemma traces_ret {A : Type} (a : A) (Q : list Event -> Prop) : Q [] -> traces (ret a) Q.
Proof. intros H st. exists []. cbn. rewrite app_nil_r. split; [reflexivity | exact H]. Qed.

Lemma traces_throw {A : Type} (Q : list Event -> Prop) : Q [] -> traces (@throw A) Q.
Proof. intros H st. exists []. cbn. rewrite app_nil_r. split; [reflexivity | exact H]. Qed.

Lemma traces_uses {A : Type} (m : M A) (Q : list Event -> Prop) :
uses m (fun _ evs => Q evs) -> traces m Q.
Proof.
intros H st. destruct (H st) as [a [evs [_ [T HQ]]]]. exists evs. split; assumption.
Qed.

Lemma traces_bind {A B : Type} (m : M A) (k : A -> M B) (Q1 Q : list Event -> Prop) :
traces m Q1 ->
(forall evs1, Q1 evs1 -> Q evs1) ->
(forall a evs1, Q1 evs1 -> traces (k a) (fun evs2 => Q (evs1 ++ evs2))) ->
traces (bind m k) Q.
Proof.
intros Hm Ht Hk st. destruct (Hm st) as [evs1 [T1 H1]].
unfold bind. destruct (m st) as [[a |] st1]; cbn [snd] in T1 |- *.
- destruct (Hk a evs1 H1 st1) as [evs2 [T2 H2]].
  exists (evs1 ++ evs2). split; [| exact H2]. rewrite T2, T1, app_assoc. reflexivity.
- exists evs1. split; [exact T1 | apply Ht; exact H1].
Qed.

Lemma traces_bind_uses {A B : Type} (m : M A) (k : A -> M B)
  (Q1 : A -> list Event -> Prop) (Q : list Event -> Prop) :
uses m Q1 ->
(forall a evs1, Q1 a evs1 -> traces (k a) (fun evs2 => Q (evs1 ++ evs2))) ->
traces (bind m k) Q.
Proof.
intros Hm Hk st. destruct (Hm st) as [a [evs1 [E1 [T1 H1]]]].
unfold bind. destruct (m st) as [[a' |] st1]; cbn [fst snd] in E1, T1; [| discriminate].
inversion E1; subst a'.
destruct (Hk a evs1 H1 st1) as [evs2 [T2 H2]].
exists (evs1 ++ evs2). split; [| exact H2]. rewrite T2, T1, app_assoc. reflexivity.
Qed.

Lemma traces_ask {A B : Type} (f : World -> A) (k : A -> M B) (Q : list Event -> Prop) :
(forall a, traces (k a) Q) -> traces (bind (ask f) k) Q.
Proof. intros H st. unfold bind, ask. apply H. Qed.

Lemma traces_emit {B : Type} (e : Event) (k : M B) (Q : list Event -> Prop) :
traces k (fun evs => Q (e :: evs)) -> traces (bind (emit e) (fun _ => k)) Q.
Proof.
intros H st. unfold bind, emit.
destruct (H (mkState (world st) (trace st ++ [e]))) as [evs [T HQ]].
exists (e :: evs). split; [| exact HQ].
rewrite T. cbn [trace]. rewrite <- app_assoc. reflexivity.
Qed.

Lemma traces_guard {B : Type} (b : bool) (k : M B) (Q : list Event -> Prop) :
Q [] -> traces k Q -> traces (bind (guard b) (fun _ => k)) Q.
Proof.
intros H0 H st. destruct b; [apply H |].
exists []. cbn. rewrite app_nil_r. split; [reflexivity | exact H0].
Qed.

Lemma traces_orThrow {A B : Type} (v : option A) (k : A -> M B) (Q : list Event -> Prop) :
Q [] -> (forall a, traces (k a) Q) -> traces (bind (orThrow v) k) Q.
Proof.
intros H0 H st. destruct v as [a |]; [apply H |].
exists []. cbn. rewrite app_nil_r. split; [reflexivity | exact H0].
Qed.

Lemma traces_forEach {A B : Type} (l : list A) (body : B -> A -> M B) (n : nat)
  (p : Event -> bool) :
(forall acc x, traces (body acc x)
   (fun evs => forallb p evs = true /\ List.length evs <= n)) ->
forall acc, traces (forEach l acc body)
   (fun evs => forallb p evs = true /\ List.length evs <= n * List.length l).
Proof.
intros H. induction l as [| x l IH]; intros acc; cbn [forEach].
- apply traces_ret. split; [reflexivity | simpl; lia].
- eapply traces_bind; [apply H | |].
  + intros evs1 [P1 L1]. split; [exact P1 |]. cbn [List.length]. lia.
  + intros acc' evs1 [P1 L1]. intros st. destruct (IH acc' st) as [evs2 [T2 [P2 L2]]].
    exists evs2. split; [exact T2 |].
    rewrite forallb_app, P1, P2, length_app. cbn [List.length]. split; [reflexivity | lia].
Qed.

Lemma keeps_guard (I : World -> World -> Prop) (b : bool) :
(forall w, I w w) -> keeps (guard b) I.
Proof. intros H st. destruct b; apply H. Qed.

Lemma keeps_orThrow {A : Type} (I : World -> World -> Prop) (v : option A) :
(forall w, I w w) -> keeps (orThrow v) I.
Proof. intros H st. destruct v; apply H. Qed.

Lemma ensureVideoCacheDir_keeps (I : World -> World -> Prop) (vid : jsstring) :
(forall w, I w w) -> keeps (ensureVideoCacheDir vid) I.
Proof. intros H st. rewrite ensureVideoCacheDir_run. apply H. Qed.


Section Sources.

Context {U : Runtime}.

Lemma fetchCaptionsViaYtDlp_uses (vid : jsstring) (e : ScriptType) :
uses (fetchCaptionsViaYtDlp vid e) (fun _ evs => oneOrNone (SubtitleFetch vid) evs).
Proof.
unfold fetchCaptionsViaYtDlp. apply uses_ask. intros installed.
destruct (negb installed).
- apply uses_ret. left. reflexivity.
- apply uses_emit. apply uses_ask0. intros _. right. reflexivity.
Qed.

Lemma catalogRound_traces (acc : list CatalogCandidate) (q : Query) :
traces (catalogRound acc q)
  (fun evs => forallb isCatalogRequest evs = true /\ List.length evs <= 2).
Proof.
unfold catalogRound.
destruct (negb (truthy (q_track q))); [apply traces_ret; split; [reflexivity | simpl; lia] |].
apply traces_guard; [split; [reflexivity | simpl; lia] |].
apply traces_guard; [split; [reflexivity | simpl; lia] |].
apply traces_emit. apply traces_ask. intros direct.
eapply (traces_bind _ _ (fun evs => evs = [])).
- destruct (truthyJ direct); [| apply traces_ret; reflexivity].
  apply traces_orThrow; [reflexivity |]. intros sc. apply traces_ret. reflexivity.
- intros evs1 E. subst evs1. split; [reflexivity | simpl; lia].
- intros collected1 evs1 E. subst evs1. cbv zeta. cbn [app].
  apply traces_guard; [split; [reflexivity | simpl; lia] |].
  apply traces_emit. apply traces_ask. intros results.
  destruct results as [| b | n | s | [| item items] | fields];
    try (apply traces_ret; split; [reflexivity | simpl; lia]).
  apply traces_orThrow; [split; [reflexivity | simpl; lia] |].
  intros scored. apply traces_ret; split; [reflexivity | simpl; lia].
Qed.

Lemma fetchCatalogLyricsCandidates_traces (vid : jsstring) (e : ScriptType) :
traces (fetchCatalogLyricsCandidates vid e)
  (fun evs => forallb isCatalogRequest evs = true /\ List.length evs <= 8).
Proof.
unfold fetchCatalogLyricsCandidates, getDir. apply traces_ask. intros d. cbv zeta.
pose proof (proj1 (extractArtistTrackCandidates_shape
  (fst (readMeta (metaFile d))) (snd (readMeta (metaFile d))))) as H4.
eapply traces_bind.
- apply (traces_forEach _ _ 2 isCatalogRequest). apply catalogRound_traces.
- intros evs1 [P1 L1]. split; [exact P1 | lia].
- intros collected evs1 [P1 L1]. apply traces_ret. rewrite app_nil_r.
  split; [exact P1 | lia].
Qed.

Lemma ensureAudioSource_uses (vid : jsstring) :
uses (ensureAudioSource vid) (fun _ evs => oneOrNone (AudioFetch vid) evs).
Proof.
unfold ensureAudioSource, getDir. apply uses_ask. intros d.
destruct (audioFile d); [apply uses_ret; left; reflexivity |].
apply uses_ask. intros installed.
destruct (negb installed); [apply uses_ret; left; reflexivity |].
apply uses_emit. apply uses_ask. intros ok. destruct ok.
- apply uses_setDir. apply uses_ret. right. reflexivity.
- apply uses_ret. right. reflexivity.
Qed.

Lemma runWhisperAndGetSegments_uses (vid : jsstring) :
uses (runWhisperAndGetSegments vid) (fun _ evs => whisperTrace vid evs).
Proof.
unfold runWhisperAndGetSegments.
eapply uses_bind; [apply ensureAudioSource_uses |].
intros audioPath aud Haud. cbv beta.
assert (Hnone : whisperTrace vid (aud ++ [])).
{ exists aud, []. split; [reflexivity |]. split; [exact Haud | left; reflexivity]. }
destruct (negb audioPath); [apply uses_ret; exact Hnone |].
apply uses_ask. intros installed.
destruct (negb installed); [apply uses_ret; exact Hnone |].
apply uses_emit. apply uses_ask. intros out.
assert (Hone : whisperTrace vid (aud ++ [Transcription vid])).
{ exists aud, [Transcription vid]. split; [reflexivity |].
  split; [exact Haud | right; reflexivity]. }
destruct out; apply uses_ret; exact Hone.
Qed.

Lemma collectRawCandidates_traces (vid : jsstring) (e : ScriptType) :
traces (collectRawCandidates vid e) (pipelineTrace vid).
Proof.
unfold collectRawCandidates.
eapply traces_bind_uses; [apply fetchCaptionsViaYtDlp_uses |].
intros subtitleFile subs Hsubs. cbv beta zeta.
set (raw1 := match subtitleFile with Some (Some raw) => _ | _ => [] end).
eapply traces_bind; [apply fetchCatalogLyricsCandidates_traces | |].
{ intros cats [Hcats Lcats]. exists subs, cats, [], [].
  split; [rewrite !app_nil_r; reflexivity |].
  repeat split; try assumption; left; reflexivity. }
intros cc cats [Hcats Lcats]. apply traces_uses.
set (raw2 := raw1 ++ List.concat (mapi catalogCandidate cc)).
eapply (uses_bind _ _ (fun raw3 evs3 =>
  whisperTrace vid evs3 /\ (raw3 = [] -> evs3 = []))).
- destruct (firstn 2 (filter isCatalogPlain raw2)) as [| p ps] eqn:Ep.
  + apply uses_ret. split; [| intros _; reflexivity].
    exists [], []. split; [reflexivity |]. split; left; reflexivity.
  + assert (Hne : raw2 <> []).
    { intros E2. rewrite E2 in Ep. discriminate. }
    eapply uses_bind; [apply runWhisperAndGetSegments_uses |].
    intros segs evs Hw. cbv beta. destruct segs as [| s segs].
    * apply uses_ret. rewrite app_nil_r. split; [exact Hw |]. intros E. contradiction.
    * apply uses_ret. rewrite app_nil_r. split; [exact Hw |]. intros E.
      apply app_eq_nil in E. destruct E as [E _]. contradiction.
- intros raw3 evs3 [[aud [tr [E3 [Haud Htr]]]] Hnil]. cbv beta.
  assert (Hdone : pipelineTrace vid (subs ++ cats ++ evs3 ++ [])).
  { exists subs, cats, aud, tr. rewrite app_nil_r, E3. repeat split; assumption. }
  destruct raw3 as [| c raw3]; [| apply uses_ret; exact Hdone].
  rewrite (Hnil eq_refl).
  eapply uses_bind; [apply runWhisperAndGetSegments_uses |].
  intros segs evs4 [aud4 [tr4 [E4 [Haud4 Htr4]]]]. cbv beta.
  assert (Hstt : pipelineTrace vid (subs ++ cats ++ [] ++ evs4 ++ [])).
  { exists subs, cats, aud4, tr4. rewrite app_nil_r, E4. repeat split; assumption. }
  destruct segs as [| s segs]; [apply uses_ret; exact Hstt |].
  destruct (parseWhisperJson _); apply uses_ret; exact Hstt.
Qed.

Lemma ensureAudioSource_keeps (vid : jsstring) :
keeps (ensureAudioSource vid) (sourceFrame vid).
Proof.
intros st. unfold ensureAudioSource, bind, getDir, ask, emit, setDir, ret. cbn [world trace fst snd].
destruct (audioFile (dirs (world st) vid)) eqn:Ea; [apply sourceFrame_refl |].
destruct (ytDlpInstalled (world st)); cbn [negb]; [| apply sourceFrame_refl].
destruct (audioDownload (world st) vid); cbn [world snd]; [| apply sourceFrame_refl].
unfold sourceFrame, pipelineFrame, sameTools.
cbn [dirs cacheDirReady ytDlpInstalled whisperInstalled subtitles audioDownload transcribe
     catalogGet catalogSearch].
rewrite Js_eqb_refl. cbn [metaFile lyricsFile audioFile].
repeat split. intros v Hv. rewrite Hv. reflexivity.
Qed.

Lemma runWhisperAndGetSegments_keeps (vid : jsstring) :
keeps (runWhisperAndGetSegments vid) (sourceFrame vid).
Proof.
unfold runWhisperAndGetSegments.
apply (keeps_bind _ (sourceFrame_trans vid)); [apply ensureAudioSource_keeps |].
intros audioPath. destruct (negb audioPath); [apply keeps_ret, sourceFrame_refl |].
apply (keeps_bind _ (sourceFrame_trans vid)); [apply keeps_ask, sourceFrame_refl |].
intros installed. destruct (negb installed); [apply keeps_ret, sourceFrame_refl |].
apply (keeps_bind _ (sourceFrame_trans vid)); [apply keeps_emit, sourceFrame_refl |].
intros _.
apply (keeps_bind _ (sourceFrame_trans vid)); [apply keeps_ask, sourceFrame_refl |].
intros out. destruct out; apply keeps_ret, sourceFrame_refl.
Qed.

Lemma fetchCaptionsViaYtDlp_keeps (vid : jsstring) (e : ScriptType) :
keeps (fetchCaptionsViaYtDlp vid e) (sourceFrame vid).
Proof.
unfold fetchCaptionsViaYtDlp.
apply (keeps_bind _ (sourceFrame_trans vid)); [apply keeps_ask, sourceFrame_refl |].
intros installed. destruct (negb installed); [apply keeps_ret, sourceFrame_refl |].
apply (keeps_bind _ (sourceFrame_trans vid)); [apply keeps_emit, sourceFrame_refl |].
intros _. apply keeps_ask, sourceFrame_refl.
Qed.

Lemma catalogRound_keeps (vid : jsstring) (acc : list CatalogCandidate) (q : Query) :
keeps (catalogRound acc q) (sourceFrame vid).
Proof.
unfold catalogRound.
destruct (negb (truthy (q_track q))); [apply keeps_ret, sourceFrame_refl |].
apply (keeps_bind _ (sourceFrame_trans vid)); [apply keeps_guard, sourceFrame_refl |].
intros _.
apply (keeps_bind _ (sourceFrame_trans vid)); [apply keeps_guard, sourceFrame_refl |].
intros _.
apply (keeps_bind _ (sourceFrame_trans vid)); [apply keeps_emit, sourceFrame_refl |].
intros _.
apply (keeps_bind _ (sourceFrame_trans vid)); [apply keeps_ask, sourceFrame_refl |].
intros direct.
apply (keeps_bind _ (sourceFrame_trans vid)).
{ destruct (truthyJ direct); [| apply keeps_ret, sourceFrame_refl].
  apply (keeps_bind _ (sourceFrame_trans vid)); [apply keeps_orThrow, sourceFrame_refl |].
  intros sc. apply keeps_ret, sourceFrame_refl. }
intros collected1. cbv zeta.
apply (keeps_bind _ (sourceFrame_trans vid)); [apply keeps_guard, sourceFrame_refl |].
intros _.
apply (keeps_bind _ (sourceFrame_trans vid)); [apply keeps_emit, sourceFrame_refl |].
intros _.
apply (keeps_bind _ (sourceFrame_trans vid)); [apply keeps_ask, sourceFrame_refl |].
intros results.
destruct results as [| b | n | s | [| item items] | fields];
  try (apply keeps_ret, sourceFrame_refl).
apply (keeps_bind _ (sourceFrame_trans vid)); [apply keeps_orThrow, sourceFrame_refl |].
intros scored. apply keeps_ret, sourceFrame_refl.
Qed.

Lemma fetchCatalogLyricsCandidates_keeps (vid : jsstring) (e : ScriptType) :
keeps (fetchCatalogLyricsCandidates vid e) (sourceFrame vid).
Proof.
unfold fetchCatalogLyricsCandidates, getDir.
apply (keeps_bind _ (sourceFrame_trans vid)); [apply keeps_ask, sourceFrame_refl |].
intros d. cbv zeta.
apply (keeps_bind _ (sourceFrame_trans vid)); [| intros c; apply keeps_ret, sourceFrame_refl].
apply (keeps_forEach _ (sourceFrame_refl vid) (sourceFrame_trans vid)).
apply catalogRound_keeps.
Qed.

Lemma collectRawCandidates_keeps (vid : jsstring) (e : ScriptType) :
keeps (collectRawCandidates vid e) (sourceFrame vid).
Proof.
unfold collectRawCandidates.
apply (keeps_bind _ (sourceFrame_trans vid)); [apply fetchCaptionsViaYtDlp_keeps |].
intros subtitleFile. cbv zeta.
apply (keeps_bind _ (sourceFrame_trans vid)); [apply fetchCatalogLyricsCandidates_keeps |].
intros cc.
apply (keeps_bind _ (sourceFrame_trans vid)).
- destruct (firstn 2 _); [apply keeps_ret, sourceFrame_refl |].
  apply (keeps_bind _ (sourceFrame_trans vid)); [apply runWhisperAndGetSegments_keeps |].
  intros segs. destruct segs; apply keeps_ret, sourceFrame_refl.
- intros raw3. destruct raw3; [| apply keeps_ret, sourceFrame_refl].
  apply (keeps_bind _ (sourceFrame_trans vid)); [apply runWhisperAndGetSegments_keeps |].
  intros segs. destruct segs; [apply keeps_ret, sourceFrame_refl |].
  destruct (parseWhisperJson _); apply keeps_ret, sourceFrame_refl.
Qed.


Lemma writeCachedLyrics_keeps (r : LyricsResponse) :
keeps (writeCachedLyrics r) (pipelineFrame (videoId r)).
Proof.
intros st. unfold writeCachedLyrics. unfold bind at 1.
rewrite ensureVideoCacheDir_run.
destruct (dirReady (world st) (videoId r)); [| apply pipelineFrame_refl].
unfold bind, getDir, ask, setDir. cbn [world snd].
unfold pipelineFrame, sameTools.
cbn [dirs cacheDirReady ytDlpInstalled whisperInstalled subtitles audioDownload transcribe
     catalogGet catalogSearch].
rewrite Js_eqb_refl. cbn [metaFile audioFile].
repeat split; try (intros H; exact H). intros v Hv. rewrite Hv. reflexivity.
Qed.

Lemma finalize_keeps (vid : jsstring) (e : ScriptType) (raw : list LyricsCandidate) :
keeps (finalize vid e raw) (pipelineFrame vid).
Proof.
unfold finalize. destruct raw as [| c raw].
- apply (keeps_bind _ (pipelineFrame_trans vid)).
  + apply (writeCachedLyrics_keeps (noneResult vid)).
  + intros _. apply keeps_ret, pipelineFrame_refl.
- cbv zeta. destruct (pickTopCandidates _ (Some 3%Q)) as [| selected rest].
  + apply keeps_throw, pipelineFrame_refl.
  + apply (keeps_bind _ (pipelineFrame_trans vid)).
    * match goal with |- keeps (writeCachedLyrics ?r) _ => apply (writeCachedLyrics_keeps r) end.
    * intros _. apply keeps_ret, pipelineFrame_refl.
Qed.

Lemma getLyrics_keeps (vid : jsstring) : keeps (getLyrics vid) (pipelineFrame vid).
Proof.
unfold getLyrics, getDir.
apply (keeps_bind _ (pipelineFrame_trans vid));
  [apply ensureVideoCacheDir_keeps, pipelineFrame_refl |].
intros _.
apply (keeps_bind _ (pipelineFrame_trans vid)); [apply keeps_ask, pipelineFrame_refl |].
intros d. cbv zeta.
destruct (reusableCache vid d (expectedScriptOf d)); [apply keeps_ret, pipelineFrame_refl |].
apply (keeps_bind _ (pipelineFrame_trans vid)).
- eapply keeps_weaken; [| apply collectRawCandidates_keeps]. intros w w' [H _]. exact H.
- intros raw. apply finalize_keeps.
Qed.

Lemma finalize_thrown (vid : jsstring) (e : ScriptType) (raw : list LyricsCandidate)
  (st : State) :
fst (finalize vid e raw st) = Thrown -> snd (finalize vid e raw st) = st.
Proof.
assert (Hw : forall r, videoId r = vid ->
  fst (bind (writeCachedLyrics r) (fun _ => ret r) st) = Thrown ->
  snd (bind (writeCachedLyrics r) (fun _ => ret r) st) = st).
{ intros r Hv. unfold bind. destruct (dirReady (world st) (videoId r)) eqn:Hd.
  - destruct (writeCachedLyrics_returns r st Hd) as [st' [E _]]. rewrite E. discriminate.
  - rewrite (writeCachedLyrics_throws r st Hd). reflexivity. }
unfold finalize. destruct raw as [| c raw].
- apply Hw. reflexivity.
- cbv zeta. destruct (pickTopCandidates _ (Some 3%Q)) as [| selected rest].
  + reflexivity.
  + apply Hw. reflexivity.
Qed.

Lemma finalize_trace (vid : jsstring) (e : ScriptType) (raw : list LyricsCandidate)
  (st : State) :
trace (snd (finalize vid e raw st)) = trace st.
Proof.
assert (Hw : forall r,
  trace (snd (bind (writeCachedLyrics r) (fun _ => ret r) st)) = trace st).
{ intros r. pose proof (writeCachedLyrics_trace r st) as T. unfold bind.
  destruct (writeCachedLyrics r st) as [[u |] st']; exact T. }
unfold finalize. destruct raw as [| c raw]; [apply Hw |].
cbv zeta. destruct (pickTopCandidates _ (Some 3%Q)) as [| selected rest];
  [reflexivity | apply Hw].
Qed.

Lemma getLyrics_thrown_cache (vid : jsstring) (st : State) :
fst (getLyrics vid st) = Thrown ->
lyricsFile (dirs (world (snd (getLyrics vid st))) vid)
= lyricsFile (dirs (world st) vid).
Proof.
destruct (dirReady (world st) vid) eqn:Hd;
  [| rewrite (getLyrics_without_dir _ _ Hd); reflexivity].
destruct (reusableCache vid (dirs (world st) vid) (expectedScriptOf (dirs (world st) vid)))
  as [cached |] eqn:Ec.
- rewrite (getLyrics_cached _ _ _ Ec). discriminate.
- rewrite (getLyrics_fresh _ _ Ec Hd). unfold bind.
  pose proof (collectRawCandidates_keeps vid (expectedScriptOf (dirs (world st) vid)) st) as Hk.
  destruct (collectRawCandidates vid _ st) as [[raw |] st1]; cbn [snd] in Hk.
  + intros Ht. rewrite (finalize_thrown _ _ _ _ Ht). apply Hk.
  + intros _. apply Hk.
Qed.


(** X19: when [getLyrics] throws, because the cache directory cannot be
    made, in the catalog step or for want of a selected candidate, the
    route handler answers with the "none" result and the cache document
    of the video is as it was before: the substitute answer is not kept,
    and the next request runs the pipeline again. *)
Theorem lyricsRoute_fallback_not_cached (queryVideoId : jsstring) (st : State) :
trim queryVideoId <> [] ->
fst (getLyrics (trim queryVideoId) st) = Thrown ->
fst (lyricsRoute queryVideoId st) = Returned (Json (noneResult (trim queryVideoId)))
/\ lyricsFile (dirs (world (snd (lyricsRoute queryVideoId st))) (trim queryVideoId))
   = lyricsFile (dirs (world st) (trim queryVideoId)).
Proof.
intros Hne Ht. pose proof (getLyrics_thrown_cache _ _ Ht) as Hc.
unfold lyricsRoute. cbv zeta.
destruct (trim queryVideoId) as [| c vid'] eqn:Ev; [contradiction |].
cbn [truthy negb].
destruct (getLyrics (c :: vid') st) as [[r |] st']; [discriminate |].
split; [reflexivity | exact Hc].
Qed.

(** X20: the calls that one call of [getLyrics] makes, in their order: at
    most one subtitle fetch, then at most eight catalog requests, then at
    most one audio fetch and at most one transcription, the fetches and
    the transcription being for the requested video. *)
Theorem getLyrics_external_calls (vid : jsstring) (st : State) :
exists evs,
trace (snd (getLyrics vid st)) = trace st ++ evs /\ pipelineTrace vid evs.
Proof.
assert (Hnil : pipelineTrace vid []).
{ exists [], [], [], []. repeat split; try (left; reflexivity). simpl. lia. }
destruct (dirReady (world st) vid) eqn:Hd;
  [| rewrite (getLyrics_without_dir _ _ Hd); exists []; cbn [snd];
     rewrite app_nil_r; split; [reflexivity | exact Hnil]].
destruct (reusableCache vid (dirs (world st) vid) (expectedScriptOf (dirs (world st) vid)))
  as [cached |] eqn:Ec.
- rewrite (getLyrics_cached _ _ _ Ec). exists []. cbn [snd]. rewrite app_nil_r.
  split; [reflexivity | exact Hnil].
- rewrite (getLyrics_fresh _ _ Ec Hd). unfold bind.
  destruct (collectRawCandidates_traces vid (expectedScriptOf (dirs (world st) vid)) st)
    as [evs [T H]].
  exists evs. split; [| exact H]. rewrite <- T.
  destruct (collectRawCandidates vid _ st) as [[raw |] st1]; cbn [snd];
    [apply finalize_trace | reflexivity].
Qed.

(** X24: when the pipeline runs and ends with two or more raw candidates
    that all have an empty fingerprint, [getLyrics] throws and leaves the
    state as the pipeline left it; and the top set it selects from is
    empty for no other raw candidates than these. *)
Theorem getLyrics_throws_on_empty_top_set (vid : jsstring) (st st1 : State)
  (raw : list LyricsCandidate) :
reusableCache vid (dirs (world st) vid) (expectedScriptOf (dirs (world st) vid)) = None ->
dirReady (world st) vid = true ->
collectRawCandidates vid (expectedScriptOf (dirs (world st) vid)) st = (Returned raw, st1) ->
let top :=
  pickTopCandidates
    (sortBy byScoreDesc
       (List.map
          (fun c => withScore c
             (inject_Z (scoreLyricsCandidate c (expectedScriptOf (dirs (world st) vid)))))
          raw))
    (Some 3%Q) in
(raw <> [] ->
 (top = [] <-> 2 <= List.length raw /\ Forall (fun c => fingerprintOf c = []) raw))
/\ (2 <= List.length raw -> Forall (fun c => fingerprintOf c = []) raw ->
    getLyrics vid st = (Thrown, st1)).
Proof.
intros Hc Hd Hr. cbv zeta. split.
- intros Hne. rewrite topCandidates_nil_iff. split.
  + intros [E | H]; [contradiction | exact H].
  + intros H. right. exact H.
- intros H1 H2. rewrite (getLyrics_fresh _ _ Hc Hd). unfold bind. rewrite Hr.
  apply finalize_throws; assumption.
Qed.

End Sources.

(** ** Selection and the second call *)

Lemma byScoreDesc_total (a b : LyricsCandidate) :
byScoreDesc a b = false -> byScoreDesc b a = true.
Proof.
unfold byScoreDesc. intros H. apply Qle_bool_iff.
destruct (Qlt_le_dec (score a) (score b)) as [Hlt | Hle].
- apply Qlt_le_weak, Hlt.
- apply Qle_bool_iff in Hle. congruence.
Qed.

Lemma sortBy_score_sorted (l : list LyricsCandidate) :
StronglySorted (fun a b => (score b <= score a)%Q) (sortBy byScoreDesc l).
Proof.
assert (S : Sorted (fun a b => (score b <= score a)%Q) (sortBy byScoreDesc l)).
{ generalize (sortBy_Sorted _ byScoreDesc byScoreDesc_total l).
  generalize (sortBy byScoreDesc l). intros l0 H.
  induction H as [| x l1 Hs IH Hhd]; constructor.
  - exact IH.
  - destruct Hhd; constructor. apply Qle_bool_iff. assumption. }
apply Sorted_StronglySorted; [| exact S].
intros a b c Hab Hbc. eapply Qle_trans; eassumption.
Qed.

Section Selection.

Context {U : Runtime}.

Lemma pickTopCandidates_three (cands : list LyricsCandidate) :
List.length (pickTopCandidates cands (Some 3%Q)) <= 3.
Proof.
destruct (Nat.le_gt_cases (List.length cands) 1) as [H | H].
- eapply Nat.le_trans; [apply subseq_length, pickTopCandidates_subseq | lia].
- rewrite (pickTopCandidates_many _ _ H).
  change (Z.to_nat (Z.max 1 (Qceiling 3))) with 3. apply firstn_le_length.
Qed.

Lemma fresh_best (vid : jsstring) (e : ScriptType) :
ensures (bind (collectRawCandidates vid e) (finalize vid e)) (fun r =>
  exists selected rest, headed r selected rest
  /\ List.length rest <= 2
  /\ Forall (fun c => (score c <= score selected)%Q) rest).
Proof.
apply (ensures_bind _ _ (fun _ => True)); [apply ensures_any |].
intros raw _. destruct raw as [| c raw].
- intros st0 r0 st1 E0. destruct (finalize_none_returned _ _ _ _ _ E0) as [E1 _].
  subst r0.
  eexists. exists []. split; [repeat split |]. split; [simpl; lia | constructor].
- eapply ensures_weaken; [| apply finalize_some; discriminate].
  intros r [_ [selected [rest [Htop [H1 [H2 [H3 [H4 [H5 H6]]]]]]]]].
  exists selected, rest. split; [repeat split; assumption |].
  split.
  + pose proof (pickTopCandidates_three
      (sortBy byScoreDesc
         (List.map (fun c0 => withScore c0 (inject_Z (scoreLyricsCandidate c0 e))) (c :: raw))))
      as Hl.
    rewrite Htop in Hl. simpl in Hl. lia.
  + assert (Hs : StronglySorted (fun a b => (score b <= score a)%Q) (selected :: rest)).
    { rewrite <- Htop. eapply subseq_StronglySorted;
        [apply pickTopCandidates_subseq | apply sortBy_score_sorted]. }
    inversion Hs; subst. assumption.
Qed.

(** X21: a result that [getLyrics] computes itself carries one to three
    candidates; the selected one is the first of them, no other candidate
    has a higher score, and the result's id of the selected candidate,
    source, mode, lines and plain lyrics are those of that candidate. *)
Theorem getLyrics_selects_best (vid : jsstring) (st st' : State) (r : LyricsResponse) :
reusableCache vid (dirs (world st) vid) (expectedScriptOf (dirs (world st) vid)) = None ->
getLyrics vid st = (Returned r, st') ->
exists selected rest,
candidates r = Some (selected :: rest)
/\ List.length rest <= 2
/\ Forall (fun c => (score c <= score selected)%Q) rest
/\ selectedCandidateId r = Some (id selected)
/\ r_source r = source selected /\ r_mode r = mode selected
/\ r_lines r = lines selected /\ r_plainLyrics r = plainLyrics selected.
Proof.
intros Hc E. rewrite (getLyrics_fresh _ _ Hc (getLyrics_ready _ _ _ _ E)) in E.
destruct (fresh_best vid _ _ _ _ E) as [selected [rest [[H1 [H2 [H3 [H4 [H5 H6]]]]] [Hl Hs]]]].
exists selected, rest. repeat split; assumption.
Qed.

Lemma wellFormed_finite (ls : list LyricsLine) :
Forall wellFormedLine ls -> Forall finiteLine ls.
Proof. apply Forall_impl. intros l H. apply H. Qed.

Lemma wellFormed_nonneg_finite (ls : list LyricsLine) :
Forall (fun l => wellFormedLine l /\ (0 <= t l)%Q) ls -> Forall finiteLine ls.
Proof. apply Forall_impl. intros l [H _]. apply H. Qed.

Lemma runWhisperAndGetSegments_finite (vid : jsstring) :
ensures (runWhisperAndGetSegments vid) (Forall finiteSegment).
Proof.
unfold runWhisperAndGetSegments.
apply (ensures_bind _ _ (fun _ => True)); [apply ensures_any |]. intros audioPath _.
destruct (negb audioPath); [apply ensures_ret; constructor |].
apply (ensures_bind _ _ (fun _ => True)); [apply ensures_any |]. intros installed _.
destruct (negb installed); [apply ensures_ret; constructor |].
apply (ensures_bind _ _ (fun _ => True)); [apply ensures_any |]. intros _ _.
apply (ensures_bind _ _ (fun _ => True)); [apply ensures_any |]. intros out _.
destruct out as [raw |]; apply ensures_ret; [| constructor].
eapply Forall_impl; [| apply parseWhisperSegments_each].
intros s [H _]. apply H.
Qed.

Lemma alignPlainLyricsWithSegments_finite (plainText : jsstring) (segs : list WhisperSegment) :
Forall finiteSegment segs ->
Forall finiteLine (alignPlainLyricsWithSegments plainText segs).
Proof.
intros Hs. unfold alignPlainLyricsWithSegments. cbv zeta.
destruct (_ || _); [constructor |].
apply Forall_dedupe, Forall_sortBy. unfold mapi. apply Forall_mapi_go.
intros line idx. unfold finiteLine. cbn [t].
generalize (segIndex (List.length (splitPlainLyrics plainText)) (List.length segs) idx).
intros k.
destruct (nth_in_or_default k (List.map start segs) 0%Q) as [Hin | Hd].
- apply in_map_iff in Hin. destruct Hin as [s [Es Hin]]. rewrite <- Es.
  rewrite Forall_forall in Hs. apply Hs. exact Hin.
- rewrite Hd. reflexivity.
Qed.

Lemma persistable_raw (cid clabel : jsstring) (src : Source) (m : Mode)
  (ls : list LyricsLine) (p : option jsstring) (s : SyncMethod) :
Forall finiteLine ls -> persistable (mkCandidate cid clabel src m ls p (Some s) 0).
Proof.
intros H. split; [exact H |]. split; [reflexivity | discriminate].
Qed.

Lemma catalogCandidate_persistable (c : CatalogCandidate) (i : nat) :
Forall persistable (catalogCandidate c i).
Proof.
unfold catalogCandidate. cbv zeta.
destruct (extractSyncedLines (track c)) as [| l ls] eqn:Es.
- destruct (truthy (extractPlainLyrics (track c))); constructor; [| constructor].
  apply persistable_raw. constructor.
- constructor; [| constructor]. apply persistable_raw. rewrite <- Es.
  unfold extractSyncedLines. destruct (negb _); [constructor |].
  apply wellFormed_nonneg_finite, parseLrc_wellFormed.
Qed.

Lemma alignedCandidate_persistable (segs : list WhisperSegment) (c : LyricsCandidate) :
Forall finiteSegment segs -> Forall persistable (alignedCandidate segs c).
Proof.
intros Hs. unfold alignedCandidate.
pose proof (alignPlainLyricsWithSegments_finite (orEmpty (plainLyrics c)) segs Hs) as Hf.
destruct (alignPlainLyricsWithSegments (orEmpty (plainLyrics c)) segs) as [| l ls].
- constructor.
- constructor; [| constructor]. apply persistable_raw. exact Hf.
Qed.

Lemma collectRawCandidates_persistable (vid : jsstring) (e : ScriptType) :
ensures (collectRawCandidates vid e) (Forall persistable).
Proof.
unfold collectRawCandidates.
apply (ensures_bind _ _ (fun _ => True)); [apply ensures_any |].
intros subtitleFile _. cbv zeta.
set (raw1 := match subtitleFile with
             | Some (Some raw) => _
             | _ => []
             end).
assert (H1 : Forall persistable raw1).
{ unfold raw1. destruct subtitleFile as [[raw |] |]; try constructor.
  destruct (nonEmpty (parseVtt raw) && _); constructor; [| constructor].
  apply persistable_raw. apply wellFormed_finite, parseVtt_wellFormed. }
apply (ensures_bind _ _ (fun _ => True)); [apply ensures_any |].
intros catalogCandidates _.
set (raw2 := raw1 ++ List.concat (mapi catalogCandidate catalogCandidates)).
assert (H2 : Forall persistable raw2).
{ apply Forall_app. split; [exact H1 |].
  apply Forall_concat. apply Forall_mapi_go. apply catalogCandidate_persistable. }
apply (ensures_bind _ _ (Forall persistable)).
- destruct (firstn 2 (filter isCatalogPlain raw2)) as [| p ps].
  + apply ensures_ret. exact H2.
  + apply (ensures_bind _ _ (Forall finiteSegment));
      [apply runWhisperAndGetSegments_finite |].
    intros segs Hsegs. destruct segs as [| s segs].
    * apply ensures_ret. exact H2.
    * apply ensures_ret. apply Forall_app. split; [exact H2 |].
      apply Forall_flat_map. intros c. apply alignedCandidate_persistable. exact Hsegs.
- intros raw3 H3. destruct raw3 as [| c raw3].
  + apply (ensures_bind _ _ (fun _ => True)); [apply ensures_any |].
    intros sttSegments _. destruct sttSegments as [| s ss].
    * apply ensures_ret. constructor.
    * pose proof (parseWhisperJson_wellFormed (stringifySegments (s :: ss))) as Hw.
      destruct (parseWhisperJson (stringifySegments (s :: ss))) as [| l ls].
      -- apply ensures_ret. constructor.
      -- apply ensures_ret. constructor; [| constructor].
         apply persistable_raw. apply wellFormed_nonneg_finite. exact Hw.
  + apply ensures_ret. exact H3.
Qed.

Lemma scored_persistable (e : ScriptType) (raw : list LyricsCandidate) :
Forall persistable raw ->
Forall persistable
  (pickTopCandidates
     (sortBy byScoreDesc
        (List.map (fun c => withScore c (inject_Z (scoreLyricsCandidate c e))) raw))
     (Some 3%Q)).
Proof.
intros H. eapply subseq_Forall; [apply pickTopCandidates_subseq |].
apply Forall_sortBy. apply Forall_map. eapply Forall_impl; [| exact H].
intros c [Hl [_ Hm]]. split; [exact Hl |]. split; [| exact Hm].
cbn [withScore score].
apply (isFiniteQ_small _ (scoreLyricsCandidate c e)); [reflexivity |].
pose proof (scoreLyricsCandidate_range c e).
assert (127 < 10 ^ 300)%Z by (apply Z.ltb_lt; vm_compute; reflexivity).
lia.
Qed.

Lemma finalize_written (vid : jsstring) (e : ScriptType) (raw : list LyricsCandidate)
  (st st' : State) (r : LyricsResponse) :
Forall persistable raw ->
finalize vid e raw st = (Returned r, st') ->
videoId r = vid
/\ persistableResponse r
/\ lyricsFile (dirs (world st') vid) = Holds (responseToJson r)
/\ exists c cs, candidates r = Some (c :: cs).
Proof.
intros Hraw E. destruct raw as [| c0 raw0].
- destruct (finalize_none_returned _ _ _ _ _ E) as [E2 [Hf _]]. subst r.
  split; [reflexivity |]. split; [| split; [exact Hf | eexists; eexists; reflexivity]].
  split; [constructor |]. split; [discriminate |].
  eexists. split; [reflexivity |]. constructor; [| constructor].
  apply persistable_raw. constructor.
- pose proof (scored_persistable e _ Hraw) as Hp.
  unfold finalize in E. cbv zeta in E.
  destruct (pickTopCandidates _ (Some 3%Q)) as [| selected rest]; [discriminate |].
  unfold bind in E.
  match type of E with context [writeCachedLyrics ?res st] =>
    destruct (writeCachedLyrics res st) as [[u |] st2] eqn:Ew; [| discriminate];
    destruct (writeCachedLyrics_returned _ _ _ _ Ew) as [Hf _] end.
  inversion E; subst. cbn [videoId] in Hf.
  split; [reflexivity |]. split; [| split; [exact Hf | eexists; eexists; reflexivity]].
  inversion Hp as [| x xs Hsel Hrest]; subst.
  split; [apply Hsel |]. split; [discriminate |].
  eexists. split; [reflexivity | exact Hp].
Qed.

Lemma expectedScriptOf_meta (d d' : VideoDir) :
metaFile d' = metaFile d -> expectedScriptOf d' = expectedScriptOf d.
Proof. intros H. unfold expectedScriptOf. rewrite H. reflexivity. Qed.

(** X22: when a call of [getLyrics] returns a result that passes the
    script check against the expected script of the video, the call that
    follows returns the same result from the cache document and leaves the
    state, trace included, as it is: no source is asked again. *)
Theorem getLyrics_second_call (vid : jsstring) (st st' : State) (r : LyricsResponse) :
getLyrics vid st = (Returned r, st') ->
hasCompatibleLyricsPayload r (expectedScriptOf (dirs (world st) vid)) = true ->
getLyrics vid st' = (Returned r, st').
Proof.
intros E Hc.
destruct (reusableCache vid (dirs (world st) vid) (expectedScriptOf (dirs (world st) vid)))
  as [cached |] eqn:Ec.
- rewrite (getLyrics_cached _ _ _ Ec) in E. inversion E; subst. apply getLyrics_cached.
  exact Ec.
- pose proof (getLyrics_keeps vid st) as Hk. rewrite E in Hk. cbn [snd] in Hk.
  destruct Hk as [_ [_ [Hmeta _]]].
  rewrite (getLyrics_fresh _ _ Ec (getLyrics_ready _ _ _ _ E)) in E. unfold bind in E.
  pose proof (collectRawCandidates_persistable vid
    (expectedScriptOf (dirs (world st) vid)) st) as Hraw.
  destruct (collectRawCandidates vid _ st) as [[raw |] st1]; [| discriminate].
  specialize (Hraw raw st1 eq_refl).
  destruct (finalize_written _ _ _ _ _ _ Hraw E) as [Hv [Hp [Hf [c [cs Hcs]]]]].
  subst vid. apply (getLyrics_reuses_persisted st' r c cs Hp Hf); [| exact Hcs].
  rewrite (expectedScriptOf_meta _ _ Hmeta). exact Hc.
Qed.

End Selection.

(** X23: without a title and a channel title, as when the metadata file
    is absent or cannot be read, the expected script is [unknown], and
    then no text and no cached payload is turned down by the script
    check. *)
Theorem expectedScript_without_metadata (d : VideoDir) :
readMeta (metaFile d) = ([], []) ->
expectedScriptOf d = unknown
/\ (forall text, isScriptCompatible text (expectedScriptOf d) = true)
/\ (forall payload, hasCompatibleLyricsPayload payload (expectedScriptOf d) = true).
Proof.
intros H.
assert (E : expectedScriptOf d = unknown).
{ unfold expectedScriptOf. rewrite H. reflexivity. }
rewrite E. split; [reflexivity |]. split; [reflexivity |].
intros payload. unfold hasCompatibleLyricsPayload. cbv zeta.
destruct (negb _); reflexivity.
Qed.

(** ** Subtitle track selection *)

Section HeadOfSort.

Variable A : Type.
Variable before : A -> A -> bool.
Variable rank : A -> Z.

Hypothesis before_rank : forall a b, before a b = true -> (rank b <= rank a)%Z.
Hypothesis not_before_rank : forall a b, before a b = false -> (rank a <= rank b)%Z.

Lemma sortBy_head (l : list A) (h : A) (r : list A) :
sortBy before l = h :: r -> In h l /\ forall y, In y l -> (rank y <= rank h)%Z.
Proof.
revert h r. induction l as [| x l IH]; intros h r E; [discriminate |].
cbn [sortBy fold_right] in E. fold (sortBy before l) in E.
split.
- eapply Permutation_in; [apply (sortBy_perm _ before (x :: l)) |].
  cbn [sortBy fold_right]. fold (sortBy before l). rewrite E. left. reflexivity.
- destruct (sortBy before l) as [| h0 r0] eqn:Es.
  + assert (l = []).
    { apply Permutation_nil. rewrite <- Es. apply sortBy_perm. }
    subst l. cbn [insertSorted] in E. inversion E; subst.
    intros y [-> | []]. lia.
  + destruct (IH h0 r0 eq_refl) as [_ IHmax].
    intros y Hy.
    cbn [insertSorted] in E. destruct (before x h0) eqn:Eb; inversion E; subst.
    * apply before_rank in Eb. destruct Hy as [-> | Hy]; [lia |].
      specialize (IHmax y Hy). lia.
    * apply not_before_rank in Eb. destruct Hy as [-> | Hy]; [lia |].
      exact (IHmax y Hy).
Qed.

End HeadOfSort.

Section SubtitleFacts.

Context {U : Runtime}.
Variable localeCompare : jsstring -> jsstring -> Z.

Lemma bySubtitleRank_true (a b : jsstring) :
bySubtitleRank localeCompare a b = true -> (subtitleRank b <= subtitleRank a)%Z.
Proof.
unfold bySubtitleRank. destruct (Z.eqb_spec (subtitleRank a) (subtitleRank b)); cbn [negb].
- intros _. lia.
- intros H. apply Z.leb_le in H. lia.
Qed.

Lemma bySubtitleRank_false (a b : jsstring) :
bySubtitleRank localeCompare a b = false -> (subtitleRank a <= subtitleRank b)%Z.
Proof.
unfold bySubtitleRank. destruct (Z.eqb_spec (subtitleRank a) (subtitleRank b)); cbn [negb].
- intros _. lia.
- intros H. apply Z.leb_gt in H. lia.
Qed.

Lemma filter_nil_none {A : Type} (p : A -> bool) (l : list A) :
filter p l = [] <-> forall x, In x l -> p x = false.
Proof.
split.
- intros E x Hx. destruct (p x) eqn:Ep; [| reflexivity].
  assert (H : In x (filter p l)) by (apply filter_In; split; assumption).
  rewrite E in H. contradiction.
- intros H. induction l as [| x l IH]; [reflexivity |].
  cbn [filter]. rewrite (H x (or_introl eq_refl)). apply IH.
  intros y Hy. apply H. right. exact Hy.
Qed.

(** X25: [pickBestSubtitleFile] finds no file exactly when the directory
    holds no caption file.  A file it picks is a caption file of the
    directory; it is language-compatible with the expected script whenever
    some caption file is; and among the files it is chosen from (the
    compatible ones, or all caption files when none is compatible) none
    has a higher rank, the rank being 100 for a track that is not marked
    automatic plus 40, 30, 20 or 10 for English, Korean, Japanese or
    French. *)
Theorem pickBestSubtitleFile_best (names : list jsstring) (expected : ScriptType) :
(pickBestSubtitleFile localeCompare names expected = None
 <-> forall n, In n names -> isCaptionFile n = false)
/\ forall best, pickBestSubtitleFile localeCompare names expected = Some best ->
   In best names /\ isCaptionFile best = true
   /\ ((exists g, In g names /\ isCaptionFile g = true
                  /\ isSubtitleLangCompatible g expected = true) ->
       isSubtitleLangCompatible best expected = true)
   /\ forall g, In g names -> isCaptionFile g = true ->
      isSubtitleLangCompatible g expected = isSubtitleLangCompatible best expected ->
      (subtitleRank g <= subtitleRank best)%Z.
Proof.
unfold pickBestSubtitleFile. cbv zeta.
assert (Hfiles : forall x, In x (filter isCaptionFile names)
                 <-> In x names /\ isCaptionFile x = true).
{ intros x. apply filter_In. }
destruct (filter isCaptionFile names) as [| f0 fs] eqn:Ef.
- split.
  + split; [intros _; apply filter_nil_none; exact Ef | reflexivity].
  + intros best E. discriminate.
- remember (f0 :: fs) as files eqn:Efiles.
  assert (Hcompat : forall x,
            In x (filter (fun f => isSubtitleLangCompatible f expected) files)
            <-> In x files /\ isSubtitleLangCompatible x expected = true).
  { intros x. apply filter_In. }
  remember (filter (fun f => isSubtitleLangCompatible f expected) files) as compatible
    eqn:Ecompatible.
  remember (if nonEmpty compatible then compatible else files) as pool eqn:Epool.
  assert (Hsub : forall x, In x pool -> In x files).
  { intros x Hx. rewrite Epool in Hx. destruct (nonEmpty compatible); [| exact Hx].
    apply Hcompat in Hx. apply Hx. }
  assert (Hne : pool <> []).
  { rewrite Epool. destruct compatible as [| c cs]; cbn [nonEmpty].
    - rewrite Efiles. discriminate.
    - discriminate. }
  destruct (sortBy (bySubtitleRank localeCompare) pool) as [| h r] eqn:Es.
  { exfalso. apply Hne. apply Permutation_nil. rewrite <- Es. apply sortBy_perm. }
  destruct (sortBy_head _ (bySubtitleRank localeCompare) subtitleRank
              bySubtitleRank_true bySubtitleRank_false pool h r Es) as [Hin Hmax].
  split.
  + split; [discriminate |]. intros H. exfalso.
    assert (Hf0 : In f0 files) by (rewrite Efiles; left; reflexivity).
    apply Hfiles in Hf0. destruct Hf0 as [H1 H2]. rewrite (H f0 H1) in H2. discriminate.
  + intros best E. cbn [hd_error] in E. inversion E; subst h.
    split; [apply Hfiles, Hsub, Hin |]. split; [apply Hfiles, Hsub, Hin |].
    split.
    * intros [g [Hg1 [Hg2 Hg3]]].
      assert (Hgc : In g compatible)
        by (apply Hcompat; split; [apply Hfiles; split |]; assumption).
      rewrite Epool in Hin. destruct compatible as [| c cs]; [contradiction |].
      cbn [nonEmpty] in Hin. apply Hcompat in Hin. apply Hin.
    * intros g Hg1 Hg2 Hg3. apply Hmax.
      assert (Hgf : In g files) by (apply Hfiles; split; assumption).
      rewrite Epool in Hin |- *. destruct compatible as [| c cs]; cbn [nonEmpty] in *.
      -- exact Hgf.
      -- apply Hcompat. split; [exact Hgf |].
         apply Hcompat in Hin. rewrite Hg3. apply Hin.
Qed.

End SubtitleFacts.

(** *** The language part of a caption file *)

Lemma splitChar_go_acc (c : N) (s : jsstring) : forall cur,
splitChar_go c cur s =
match splitChar_go c [] s with
| h :: tl => (rev cur ++ h) :: tl
| [] => []
end.
Proof.
induction s as [| x s IH]; intros cur.
- cbn [splitChar_go]. rewrite app_nil_r. reflexivity.
- cbn [splitChar_go]. destruct (N.eqb x c).
  + cbn [rev app]. rewrite app_nil_r. reflexivity.
  + rewrite (IH (x :: cur)), (IH [x]).
    destruct (splitChar_go c [] s) as [| h tl]; [reflexivity |].
    cbn [rev app]. rewrite <- app_assoc. reflexivity.
Qed.

Lemma splitChar_cons (c x : N) (s : jsstring) :
splitChar c (x :: s) =
if N.eqb x c then [] :: splitChar c s
else match splitChar c s with
     | h :: tl => (x :: h) :: tl
     | [] => []
     end.
Proof.
unfold splitChar. cbn [splitChar_go]. destruct (N.eqb x c); [reflexivity |].
rewrite splitChar_go_acc. reflexivity.
Qed.

Lemma splitChar_nonempty (c : N) (s : jsstring) : splitChar c s <> [].
Proof.
destruct s as [| x s]; [discriminate |]. rewrite splitChar_cons.
destruct (N.eqb x c); [discriminate |].
unfold splitChar. rewrite splitChar_go_acc.
destruct (splitChar_go c [] s) eqn:E; [| discriminate].
exfalso. clear -E. revert E. generalize (@nil N) at 1.
induction s as [| y s IH]; intros cur E; cbn [splitChar_go] in E; [discriminate |].
destruct (N.eqb y c); [discriminate | exact (IH _ E)].
Qed.

(** A name cut at [c]: the first part, and what follows the separator. *)
Lemma splitChar_parts (c : N) (s : jsstring) : forall p q ps,
splitChar c s = p :: q :: ps ->
exists s', s = p ++ c :: s' /\ splitChar c s' = q :: ps
           /\ forallb (fun x => negb (N.eqb x c)) p = true.
Proof.
induction s as [| x s IH]; intros p q ps E.
- discriminate.
- rewrite splitChar_cons in E. destruct (N.eqb x c) eqn:Ex.
  + inversion E; subst. apply N.eqb_eq in Ex. subst x.
    exists s. repeat split.
  + destruct (splitChar c s) as [| h tl] eqn:Es; [discriminate |].
    inversion E; subst. destruct (IH h q ps eq_refl) as [s' [E1 [E2 E3]]].
    exists s'. split; [rewrite E1; reflexivity |]. split; [exact E2 |].
    cbn [forallb]. rewrite Ex, E3. reflexivity.
Qed.

Lemma splitChar_single (c : N) (s : jsstring) : forall p,
splitChar c s = [p] -> s = p /\ forallb (fun x => negb (N.eqb x c)) p = true.
Proof.
induction s as [| x s IH]; intros p E.
- inversion E. split; reflexivity.
- rewrite splitChar_cons in E. destruct (N.eqb x c) eqn:Ex.
  + inversion E as [[Hp Hs]]. exfalso. exact (splitChar_nonempty c s Hs).
  + destruct (splitChar c s) as [| h tl] eqn:Es; [discriminate |].
    inversion E; subst. destruct (IH h eq_refl) as [E1 E2].
    split; [rewrite E1; reflexivity |]. cbn [forallb]. rewrite Ex, E2. reflexivity.
Qed.

Lemma startsWithCI_app (a p b s : jsstring) :
List.length a = List.length p -> startsWithCI a p = true ->
startsWithCI (a ++ b) (p ++ s) = startsWithCI b s.
Proof.
revert p. induction a as [| x a IH]; intros p Hl Hs.
- destruct p; [reflexivity | discriminate].
- destruct p as [| y p]; [discriminate |]. cbn [startsWithCI app] in *.
  apply andb_true_iff in Hs. destruct Hs as [H1 H2]. rewrite H1. cbn [andb].
  apply IH; [simpl in Hl; lia | exact H2].
Qed.

(** The first part of what follows "captions." in a caption file. *)
Lemma second_part (rest : list jsstring) (lastPart : jsstring) (middle : list jsstring) :
rev rest = lastPart :: middle -> lastPart <> [] -> forallb truthy middle = true ->
exists q ps, rest = q :: ps /\ q <> [].
Proof.
intros Er Hl Hm.
assert (E : rest = rev middle ++ [lastPart]).
{ rewrite <- (rev_involutive rest), Er. reflexivity. }
destruct (rev middle) as [| q ps] eqn:Em.
- exists lastPart, []. split; [exact E | exact Hl].
- exists q, (ps ++ [lastPart]). split; [exact E |].
  assert (Hq : In q middle).
  { apply in_rev. rewrite Em. left. reflexivity. }
  rewrite forallb_forall in Hm. specialize (Hm q Hq). apply truthy_true. exact Hm.
Qed.

(** X26: in the name of a caption file, one that passes the directory
    filter, the pattern of [subtitleLanguageCode] matches at the very
    start, and what it captures is the second dot-separated part of the
    name, which is not empty: the language for "captions.en.vtt" is "en",
    and for a plain "captions.vtt" it is "vtt". *)
Theorem languageCapture_of_caption_file (name : jsstring) :
isCaptionFile name = true ->
languageCapture name = Some (nth 1 (splitChar 46 name) [])
/\ nth 1 (splitChar 46 name) [] <> [].
Proof.
unfold isCaptionFile. intros H.
destruct (splitChar 46 name) as [| first rest] eqn:Es; [discriminate |].
apply andb_true_iff in H. destruct H as [Hfirst Hrest].
destruct (rev rest) as [| lastPart middle] eqn:Er; [discriminate |].
apply andb_true_iff in Hrest. destruct Hrest as [Hlast Hmid].
assert (Hlast_ne : lastPart <> []).
{ unfold eqCI in Hlast. apply andb_true_iff in Hlast. destruct Hlast as [Hl _].
  apply Nat.eqb_eq in Hl. destruct lastPart; [discriminate | discriminate]. }
destruct (second_part rest lastPart middle Er Hlast_ne Hmid) as [q [ps [Erest Hq]]].
subst rest. cbn [nth]. split; [| exact Hq].
destruct (splitChar_parts 46 name first q ps Es) as [s' [En [Es' _]]].
unfold eqCI in Hfirst. apply andb_true_iff in Hfirst. destruct Hfirst as [Hlen Hci].
apply Nat.eqb_eq in Hlen.
assert (Hspan : spanLen notDot s' = List.length q /\ firstn (List.length q) s' = q).
{ destruct ps as [| q2 ps2].
  - destruct (splitChar_single 46 s' q Es') as [E1 E2]. subst s'.
    split; [apply spanLen_all; exact E2 | apply firstn_all].
  - destruct (splitChar_parts 46 s' q q2 ps2 Es') as [s'' [E1 [_ E3]]]. subst s'.
    split; [apply spanLen_app_stop; [exact E3 | reflexivity] | apply firstn_length_app]. }
assert (Hstart : startsWithCI (lit "captions.") name = true).
{ rewrite En. change (lit "captions.") with (lit "captions" ++ [46%N]).
  change (first ++ 46%N :: s') with (first ++ [46%N] ++ s').
  rewrite (startsWithCI_app _ _ _ _ Hlen Hci). reflexivity. }
assert (Hafter : skipn 9 name = s').
{ rewrite En. change (first ++ 46%N :: s') with (first ++ [46%N] ++ s').
  rewrite app_assoc.
  replace 9 with (List.length (first ++ [46%N]))
    by (rewrite length_app, <- Hlen; reflexivity).
  apply skipn_length_app. }
destruct Hspan as [Hn Hf].
destruct name as [| x name']; [discriminate |].
cbn [languageCapture]. rewrite Hstart. cbv zeta. rewrite Hafter, Hn, Hf.
destruct (Nat.ltb_spec 0 (List.length q)) as [Hpos | Hzero]; [reflexivity |].
destruct q; [contradiction | simpl in Hzero; lia].
Qed.

(** ** The client's active line *)

Lemma startedAt_none (now : Q) (l : LyricsLine) (rest : list LyricsLine) :
Qle_bool (t l) now = false ->
Forall (fun l' => (t l <= t l')%Q) rest ->
startedAt now rest = [].
Proof.
intros Hl Hs. unfold startedAt. apply filter_nil_none.
intros l' Hin. rewrite Forall_forall in Hs. specialize (Hs l' Hin).
apply not_true_is_false. intros E. apply Qle_bool_iff in E.
assert (Hc : Qle_bool (t l) now = true).
{ apply Qle_bool_iff. eapply Qle_trans; eassumption. }
congruence.
Qed.

Lemma findIdx_go_sorted (now : Q) (ls : list LyricsLine) :
sortedByTime ls ->
forall i k,
findIdx_go i k ls now =
match startedAt now ls with
| [] => i
| _ :: _ => (Z.of_nat (k + List.length (startedAt now ls)) - 1)%Z
end.
Proof.
induction 1 as [| l rest Hs IH Hl]; intros i k; [reflexivity |].
cbn [findIdx_go]. unfold startedAt at 1 2. cbn [filter].
fold (startedAt now rest). destruct (Qle_bool (t l) now) eqn:E.
- rewrite IH. cbn [List.length]. destruct (startedAt now rest); cbn [List.length]; lia.
- rewrite (startedAt_none now l rest E Hl). reflexivity.
Qed.

(** X27: on lines in ascending order of time, as the parsers and the
    service deliver them, the client's [findIdx] returns the index of the
    last line that has started: the number of lines with a time up to the
    current one, less one, which is -1 before the first line. *)
Theorem findIdx_last_started (ls : list LyricsLine) (now : Q) :
sortedByTime ls ->
findIdx ls now = (Z.of_nat (List.length (startedAt now ls)) - 1)%Z.
Proof.
intros Hs. unfold findIdx. rewrite (findIdx_go_sorted now ls Hs).
destruct (startedAt now ls); cbn [List.length]; lia.
Qed.

(** ** The metadata of a prepared video *)

(** X28: the metadata file that the prepare route writes reads back in
    the lyrics service as the title and the channel title the route
    stored, "Unknown" standing for a missing one; so for a video that was
    prepared without a title the expected script is Latin, whatever the
    channel title is.  The cache document is left as it was. *)
Theorem prepared_metadata (vid preparedAt : jsstring) (title channelTitle : option jsstring)
  (st : State) :
let st' := snd (writeMeta vid (safeName title) (safeName channelTitle) preparedAt st) in
readMeta (metaFile (dirs (world st') vid)) = (safeName title, safeName channelTitle)
/\ (orEmpty title = [] -> expectedScriptOf (dirs (world st') vid) = latin)
/\ lyricsFile (dirs (world st') vid) = lyricsFile (dirs (world st) vid).
Proof.
cbv zeta. unfold writeMeta, bind, getDir, ask, setDir. cbn [snd world dirs].
rewrite Js_eqb_refl. cbn [metaFile lyricsFile].
assert (Hr : readMeta (Holds (metaDocument vid (safeName title) (safeName channelTitle)
                                preparedAt))
             = (safeName title, safeName channelTitle)).
{ unfold readMeta, metaDocument.
  generalize (safeName title) (safeName channelTitle). intros a b.
  repeat match goal with
  | |- context [prop ?k (JObj ?f)] =>
    let v := eval vm_compute in (prop k (JObj f)) in
    change (prop k (JObj f)) with v
  end.
  reflexivity. }
split; [exact Hr |]. split; [| reflexivity].
intros Ht. unfold expectedScriptOf. cbn [metaFile]. rewrite Hr. cbn [fst snd].
unfold safeName at 1. rewrite Ht. reflexivity.
Qed.

(** ** The list of recent songs *)

Lemma clamp_bounds (q : Q) : (1 <= qmax 1 (qmin q 50) <= 50)%Q.
Proof.
unfold qmax, qmin.
destruct (Qle_bool q 50) eqn:E1.
- apply Qle_bool_iff in E1. destruct (Qle_bool 1 q) eqn:E2.
  + apply Qle_bool_iff in E2. split; assumption.
  + split; [apply Qle_refl | unfold Qle; simpl; lia].
- replace (Qle_bool 1 50) with true by reflexivity. split; [unfold Qle; simpl; lia | apply Qle_refl].
Qed.

Lemma clamp_inside (q : Q) : (1 <= q <= 50)%Q -> qmax 1 (qmin q 50) = q.
Proof.
intros [H1 H2]. unfold qmax, qmin.
apply Qle_bool_iff in H1, H2. rewrite H2, H1. reflexivity.
Qed.

Lemma toInteger_clamped (c : Q) :
(1 <= c <= 50)%Q -> toInteger (Some c) = Qfloor c /\ (1 <= Qfloor c <= 50)%Z.
Proof.
intros [H1 H2]. unfold toInteger.
assert (H0 : Qle_bool 0 c = true).
{ apply Qle_bool_iff. eapply Qle_trans; [| exact H1]. unfold Qle; simpl; lia. }
rewrite H0. split; [reflexivity |].
pose proof (Qfloor_resp_le _ _ H1) as F1. pose proof (Qfloor_resp_le _ _ H2) as F2.
change (Qfloor 1) with 1%Z in F1. change (Qfloor 50) with 50%Z in F2. lia.
Qed.

(** X29: [GET /api/activity/recent] answers with a prefix of the sorted
    items, of at most 50 of them: the first 12 without a [limit], none at
    all for a [limit] that is not a number, and otherwise at least one
    (if there is one), namely the whole part of the limit, read as a
    double, when this lies between 1 and 50: [limit=1.9] gives one item
    and [limit=1.9999999999999999999], which reads as the double 2, gives
    two. *)
Theorem recentItems_count {A : Type} (limitRaw : option jsstring) (sorted : list A) :
(exists n,
 recentItems limitRaw sorted = firstn n sorted /\ n <= 50
 /\ (orEmpty limitRaw = [] -> n = 12)
 /\ (orEmpty limitRaw <> [] -> strToNumber (orEmpty limitRaw) = None -> n = 0)
 /\ (forall q, orEmpty limitRaw <> [] -> strToNumber (orEmpty limitRaw) = Some q ->
     1 <= n /\ ((1 <= q <= 50)%Q -> n = Z.to_nat (Qfloor q))))
/\ recentItems (Some (lit "1.9999999999999999999")) [1; 2; 3] = [1; 2]
/\ recentItems (Some (lit "1.9")) [1; 2; 3] = [1].
Proof.
split; [| split; vm_compute; reflexivity].
unfold recentItems, recentLimit, sliceEnd. cbv zeta.
destruct (orEmpty limitRaw) as [| c0 raw] eqn:Er.
- cbn [truthy].
  destruct (toInteger_clamped (qmax 1 (qmin 12 50)) (clamp_bounds 12)) as [E B].
  exists 12. split; [reflexivity |]. split; [lia |].
  split; [reflexivity |]. split; [intros H; contradiction | intros q H; contradiction].
- cbn [truthy]. destruct (strToNumber (c0 :: raw)) as [q |] eqn:En.
  + destruct (toInteger_clamped (qmax 1 (qmin q 50)) (clamp_bounds q)) as [E B].
    rewrite E. destruct (Z.ltb_spec (Qfloor (qmax 1 (qmin q 50))) 0) as [Hneg | Hpos]; [lia |].
    exists (Z.to_nat (Qfloor (qmax 1 (qmin q 50)))).
    split; [reflexivity |]. split; [lia |]. split; [discriminate |].
    split; [intros _ H; discriminate |].
    intros q' _ Hq'. inversion Hq'; subst q'. split; [lia |].
    intros Hin. rewrite (clamp_inside q Hin). reflexivity.
  + exists 0. cbn [toInteger Z.ltb Z.compare Z.to_nat]. split; [reflexivity |].
    split; [lia |]. split; [discriminate |]. split; [reflexivity |].
    intros q _ H. discriminate.
Qed.

(** ** Examples *)

(** C5, at a subtitle file whose third cue starts before its second:
    [parseVtt] de-duplicates in file order and sorts afterwards, so the two
    "la" lines, 0.5s apart, both stay and end up next to each other; the
    output is sorted but not de-jittered.  [parseLrc], which sorts first,
    keeps one of them for the same lines. *)
Theorem parseVtt_out_of_order_cues :
List.map (fun l => (Qred (t l), text l)) (parseVtt outOfOrderVtt)
= [(1%Q, lit "la"); ((3 # 2)%Q, lit "la"); (5%Q, lit "b")]
/\ ~ dejittered (8 # 10) (parseVtt outOfOrderVtt)
/\ List.map (fun l => (Qred (t l), text l))
     (parseLrc (lit "[00:01.00]la" ++ newline ++ lit "[00:05.00]b" ++ newline
                ++ lit "[00:01.50]la"))
   = [(1%Q, lit "la"); (5%Q, lit "b")].
Proof.
split; [vm_compute; reflexivity |]. split; [| vm_compute; reflexivity].
unfold dejittered. vm_compute. discriminate.
Qed.


(** C8, counterexample: a single candidate whose text is a music note has
    an empty fingerprint, and [pickTopCandidates] returns it; and of three
    candidates with two fingerprints it returns two for the limit 1.5. *)
Lemma pickTopCandidates_keeps_single_without_fingerprint :
In noteCandidate (pickTopCandidates (U := asciiRuntime) [noteCandidate] (Some 3%Q))
/\ fingerprintOf (U := asciiRuntime) noteCandidate = []
/\ (3 # 2 < inject_Z (Z.of_nat (List.length
       (pickTopCandidates (U := asciiRuntime) threeCandidates (Some (3 # 2)%Q)))))%Q.
Proof.
split; [left; reflexivity |]. split; [vm_compute; reflexivity |].
vm_compute. reflexivity.
Qed.

(** C8 at three candidates of which the second repeats the first up to
    case and punctuation: the first and the third remain. *)
Lemma pickTopCandidates_distinct_witness :
2 <= List.length threeCandidates
/\ List.map id (pickTopCandidates (U := asciiRuntime) threeCandidates (Some 3%Q))
   = [lit "a"; lit "c"]
/\ NoDup (List.map (fingerprintOf (U := asciiRuntime))
            (pickTopCandidates (U := asciiRuntime) threeCandidates (Some 3%Q)))
/\ subseq (pickTopCandidates (U := asciiRuntime) threeCandidates (Some 3%Q)) threeCandidates
/\ (Z.of_nat (List.length (pickTopCandidates (U := asciiRuntime) threeCandidates (Some 3%Q)))
    <= 3)%Z.
Proof.
assert (H : 2 <= List.length threeCandidates) by (vm_compute; lia).
split; [exact H |]. split; [vm_compute; reflexivity |].
destruct (proj2 (pickTopCandidates_distinct (U := asciiRuntime) threeCandidates (Some 3%Q)) H)
  as [_ [Hnd [_ [Hsub [_ [Hlen _]]]]]].
split; [exact Hnd |]. split; [exact Hsub |].
apply (Hlen 3%Z); [reflexivity | lia].
Defined.

(** C9, counterexample: four lyric lines with the same text against four
    ascending segments 0.1s apart align to a single line. *)
Lemma alignPlainLyricsWithSegments_drops_repeated_lines :
List.length (splitPlainLyrics repeatedLyrics) = 4
/\ List.length closeSegments = 4
/\ StronglySorted (fun a b => (start a <= start b)%Q) closeSegments
/\ List.length (alignPlainLyricsWithSegments repeatedLyrics closeSegments) = 1
/\ List.length (alignPlainLyricsWithSegments repeatedLyrics closeSegments)
   <> List.length (splitPlainLyrics repeatedLyrics).
Proof.
split; [reflexivity |]. split; [reflexivity |].
split; [| split; vm_compute; [reflexivity | discriminate]].
unfold closeSegments.
repeat (constructor; [| repeat (constructor; [cbn; discriminate |]); try constructor]).
constructor.
Qed.

(** C9 at four different lyric lines and four segments: four timed lines. *)
Lemma alignPlainLyricsWithSegments_shape_witness :
4 <= List.length (splitPlainLyrics distinctLyrics)
/\ 4 <= List.length closeSegments
/\ NoDup (splitPlainLyrics distinctLyrics)
/\ sortedByTime (alignPlainLyricsWithSegments distinctLyrics closeSegments)
/\ List.length (alignPlainLyricsWithSegments distinctLyrics closeSegments)
   = List.length (splitPlainLyrics distinctLyrics).
Proof.
assert (H1 : 4 <= List.length (splitPlainLyrics distinctLyrics)) by (vm_compute; lia).
assert (H2 : 4 <= List.length closeSegments) by (vm_compute; lia).
assert (H3 : NoDup (splitPlainLyrics distinctLyrics)).
{ vm_compute. repeat (constructor; [simpl; intuition discriminate |]). constructor. }
destruct (proj2 (alignPlainLyricsWithSegments_shape distinctLyrics closeSegments) H1 H2)
  as [_ [Hs [_ [_ Hn]]]].
split; [exact H1 |]. split; [exact H2 |]. split; [exact H3 |].
split; [exact Hs | exact (Hn H3)].
Defined.

(** C1, the failing input: an instrumental piece titled "1979" whose
    captions and whose synced lyrics in the catalog both consist of a music
    note.  The two raw candidates have an empty fingerprint, the top set
    is empty and [getLyrics] throws at [selected.source].  The route
    handler catches that and answers with the "none" result, which it does
    not keep: the cache document is still missing.  A blank [videoId] gets
    the "bad request" response, not a [LyricsResponse]. *)
Theorem getLyrics_throws_without_fingerprints :
let raw :=
  match fst (collectRawCandidates (U := asciiRuntime) (lit "x") unknown
               instrumentalState) with
  | Returned raw => raw
  | Thrown => []
  end in
expectedScriptOf (dirs (world instrumentalState) (lit "x")) = unknown
/\ List.map id raw = [lit "captions_vtt"; lit "catalog_synced_1"]
/\ List.map (fingerprintOf (U := asciiRuntime)) raw = [[]; []]
/\ fst (getLyrics (U := asciiRuntime) (lit "x") instrumentalState) = Thrown
/\ fst (lyricsRoute (U := asciiRuntime) (lit "x") instrumentalState)
   = Returned (Json
       (mkResponse (lit "x") source_none plain [] (Some []) (Some sync_none)
          (Some (lit "none"))
          (Some [mkCandidate (lit "none") (lit "No lyrics") source_none plain []
                   (Some []) (Some sync_none) 0%Q])))
/\ lyricsFile
     (dirs (world (snd (lyricsRoute (U := asciiRuntime) (lit "x") instrumentalState)))
        (lit "x"))
   = Missing
/\ lyricsRoute (U := asciiRuntime) (lit "  ") instrumentalState
   = (Returned BadRequest, instrumentalState).
Proof. cbv zeta. repeat split; vm_compute; reflexivity. Qed.



(** C3 at a song whose cache document holds a captions result: the call
    returns the result the document was written from and leaves the state
    as it was, without a trace; the cache directory could not even be
    made again. *)
Lemma getLyrics_reuses_cache_witness :
hasCompatibleLyricsPayload cachedResult
  (expectedScriptOf (dirs (world cachedState) songId)) = true
/\ candidates cachedResult
   = Some [mkCandidate (lit "captions_vtt") (lit "YouTube captions") captions timed
             [mkLine 1 (lit "Let it be")] None (Some native) 100%Q]
/\ lyricsFile (dirs (world cachedState) songId) = Holds cachedDocument
/\ responseToJson cachedResult = cachedDocument
/\ readCachedLyrics songId (Holds cachedDocument) = Some cachedResult
/\ trace cachedState = []
/\ getLyrics (U := asciiRuntime) songId cachedState = (Returned cachedResult, cachedState).
Proof.
assert (H1 : hasCompatibleLyricsPayload cachedResult
  (expectedScriptOf (dirs (world cachedState) songId)) = true) by (vm_compute; reflexivity).
assert (H2 : candidates cachedResult
   = Some [mkCandidate (lit "captions_vtt") (lit "YouTube captions") captions timed
             [mkLine 1 (lit "Let it be")] None (Some native) 100%Q]) by reflexivity.
assert (H3 : readCachedLyrics songId (lyricsFile (dirs (world cachedState) songId))
             = Some cachedResult) by (vm_compute; reflexivity).
split; [exact H1 |]. split; [exact H2 |]. split; [reflexivity |].
split; [vm_compute; reflexivity |]. split; [exact H3 |]. split; [reflexivity |].
exact (proj1 (getLyrics_reuses_cache (U := asciiRuntime) songId cachedState cachedResult
                _ [] H1 H2) H3).
Defined.

(** C4, counterexample: in the quiet world [getLyrics] returns a result
    whose one candidate, the placeholder, has mode [plain] and an empty
    [plainLyrics]. *)
Lemma getLyrics_none_placeholder_breaks_invariant :
exists r st' c,
getLyrics (U := asciiRuntime) (lit "x") quietState = (Returned r, st')
/\ candidates r = Some [c]
/\ mode c = plain /\ plainLyrics c = Some []
/\ ~ modeInvariant c.
Proof.
eexists. eexists. eexists. split; [vm_compute; reflexivity |].
split; [reflexivity |]. split; [reflexivity |]. split; [reflexivity |].
unfold modeInvariant. cbn. intros [H _]. apply H. reflexivity.
Qed.

(** C4 at the song: its result is computed from the captions, and its
    candidates satisfy the invariant. *)
Lemma getLyrics_fresh_modeInvariant_witness :
reusableCache songId (dirs (world songState) songId)
  (expectedScriptOf (dirs (world songState) songId)) = None
/\ getLyrics (U := asciiRuntime) songId songState = (Returned songResult, songStateAfter)
/\ (songResult = noneResult songId
    \/ exists top, candidates songResult = Some top /\ top <> []
                   /\ Forall modeInvariant top).
Proof.
assert (H1 : reusableCache songId (dirs (world songState) songId)
  (expectedScriptOf (dirs (world songState) songId)) = None) by (vm_compute; reflexivity).
assert (H2 : getLyrics (U := asciiRuntime) songId songState
             = (Returned songResult, songStateAfter)) by (vm_compute; reflexivity).
split; [exact H1 |]. split; [exact H2 |].
exact (getLyrics_fresh_modeInvariant (U := asciiRuntime) songId songState songStateAfter
         songResult H1 H2).
Defined.

(** C10 in the quiet world after a first call: three more calls return
    "none" and add nothing to the trace. *)
Lemma getLyrics_none_is_final_witness :
lyricsFile (dirs (world quietStateAfter) (lit "x"))
= Holds (responseToJson (noneResult (lit "x")))
/\ getLyricsTimes (U := asciiRuntime) 3 (lit "x") quietStateAfter
   = (Returned (repeat (noneResult (lit "x")) 3), quietStateAfter).
Proof.
assert (H : lyricsFile (dirs (world quietStateAfter) (lit "x"))
            = Holds (responseToJson (noneResult (lit "x")))) by (vm_compute; reflexivity).
split; [exact H |].
exact (getLyrics_none_is_final (U := asciiRuntime) (lit "x") quietStateAfter 3 H).
Defined.

(** ** Examples, further *)

(** X8 at four segments 0.1s apart. *)
Lemma parseWhisperSegments_stringify_witness :
StronglySorted (fun a b => byStart a b = true) closeSegments
/\ forallb cleanSegment closeSegments = true
/\ parseWhisperSegments (U := asciiRuntime) (stringifySegments closeSegments)
   = closeSegments.
Proof.
assert (Hs : StronglySorted (fun a b => byStart a b = true) closeSegments).
{ unfold closeSegments. repeat constructor. }
split; [exact Hs |]. split; [reflexivity |].
apply (parseWhisperSegments_stringify (U := asciiRuntime) closeSegments Hs). reflexivity.
Defined.

(** X10 at "a1b" and "b a!": the same two letters. *)
Lemma script_tests_by_letters_witness :
Permutation (filter isClassifiable (lit "a1b")) (filter isClassifiable (lit "b a!"))
/\ detectScript (lit "a1b") = detectScript (lit "b a!")
/\ forall expected,
   isScriptCompatible (lit "a1b") expected = isScriptCompatible (lit "b a!") expected.
Proof.
assert (P : Permutation (filter isClassifiable (lit "a1b"))
                        (filter isClassifiable (lit "b a!"))).
{ vm_compute. apply perm_swap. }
split; [exact P |]. exact (script_tests_by_letters (lit "a1b") (lit "b a!") P).
Defined.

(** X11 at a music note: no expectation of a script accepts it. *)
Lemma isScriptCompatible_edges_witness :
countOf isClassifiable musicNote = 0
/\ isScriptCompatible musicNote latin = false
/\ isScriptCompatible musicNote korean = false.
Proof.
assert (H : countOf isClassifiable musicNote = 0) by reflexivity.
split; [exact H |].
split; apply (proj2 (proj2 (proj2 (isScriptCompatible_edges musicNote))) H); reflexivity.
Defined.

(** X12 at the title "1979" and the channel "abc". *)
Lemma detectExpectedScriptFromMeta_blank_title_witness :
countOf isClassifiable (lit "1979") = 0
/\ detectExpectedScriptFromMeta (lit "1979") (lit "abc") = detectScript (lit "abc").
Proof.
assert (H : countOf isClassifiable (lit "1979") = 0) by reflexivity.
split; [exact H |].
exact (detectExpectedScriptFromMeta_blank_title (lit "1979") (lit "abc") H).
Defined.

(** X13 at a transcription and captions without lines. *)
Lemma scoreLyricsCandidate_source_priority_witness :
(scoreLyricsCandidate (sttCandidate []) latin
 < scoreLyricsCandidate (captionsCandidate []) latin)%Z.
Proof.
apply (proj2 (proj2 (proj2 (scoreLyricsCandidate_source_priority
         (sttCandidate []) (captionsCandidate []) latin)))).
- reflexivity.
- left. reflexivity.
Defined.

(** X14 at a cache document written by hand. *)
Lemma readCachedLyrics_normalises_witness :
readCachedLyrics (lit "x") (Holds sloppyDocument) = Some sloppyResult
/\ videoId sloppyResult = lit "x"
/\ persistableResponse sloppyResult
/\ readCachedLyrics (lit "x") (Holds (responseToJson sloppyResult)) = Some sloppyResult.
Proof.
assert (H : readCachedLyrics (lit "x") (Holds sloppyDocument) = Some sloppyResult)
  by (vm_compute; reflexivity).
split; [exact H |].
exact (readCachedLyrics_normalises (lit "x") (Holds sloppyDocument) sloppyResult H).
Defined.

(** X15 at a title that is nothing but a bracketed tag. *)
Lemma extractArtistTrackCandidates_queries_witness :
cleanSearchName (lit "[MV]") = []
/\ extractArtistTrackCandidates (U := asciiRuntime) (lit "[MV]") (lit "Some Channel") = [].
Proof.
assert (H : cleanSearchName (lit "[MV]") = []) by (vm_compute; reflexivity).
split; [exact H |].
exact (proj2 (proj2 (proj2 (extractArtistTrackCandidates_queries (U := asciiRuntime)
         (lit "[MV]") (lit "Some Channel")))) H).
Defined.

(** X16 at the instrumental piece: one hit, one candidate. *)
Lemma fetchCatalogLyricsCandidates_hits_witness :
fetchCatalogLyricsCandidates (U := asciiRuntime) (lit "x") unknown instrumentalState
= (Returned instrumentalHits, instrumentalStateAfterCatalog)
/\ List.length instrumentalHits = 1
/\ List.length (List.concat (mapi catalogCandidate instrumentalHits))
   = List.length instrumentalHits.
Proof.
assert (H : fetchCatalogLyricsCandidates (U := asciiRuntime) (lit "x") unknown instrumentalState
            = (Returned instrumentalHits, instrumentalStateAfterCatalog))
  by (vm_compute; reflexivity).
split; [exact H |]. split; [vm_compute; reflexivity |].
exact (proj2 (proj2 (proj2 (proj2
  (fetchCatalogLyricsCandidates_hits (U := asciiRuntime) (lit "x") unknown instrumentalState
     instrumentalStateAfterCatalog instrumentalHits H))))).
Defined.

(** X17 in the quiet world, which has no metadata. *)
Lemma fetchCatalogLyricsCandidates_without_title_witness :
cleanSearchName
  (fst (readMeta (metaFile (dirs (world quietState) (lit "x"))))) = []
/\ fetchCatalogLyricsCandidates (U := asciiRuntime) (lit "x") unknown quietState
   = (Returned [], quietState).
Proof.
assert (H : cleanSearchName
  (fst (readMeta (metaFile (dirs (world quietState) (lit "x"))))) = [])
  by (vm_compute; reflexivity).
split; [exact H |].
exact (fetchCatalogLyricsCandidates_without_title (U := asciiRuntime) (lit "x") unknown
         quietState H).
Defined.

(** X18: the catalog step is not guarded.  The scoring of a catalog
    reply throws exactly when the reply is [null] or one of its fields
    [trackName], [artistName], [syncedLyrics] and [plainLyrics] is truthy
    and no string.  So [getLyrics] throws for a title that ends in a
    surrogate without its partner, before any request is sent; for a
    reply with a number as track name, after the request by name; and for
    a search result that is [null], after both requests. *)
Theorem fetchCatalogLyricsCandidates_throws (tr : json) (artist song : jsstring) :
(scoreCatalogCandidate (U := asciiRuntime) tr artist song = None
 <-> tr = JNull
     \/ truthyNonString (prop "trackName" tr) || truthyNonString (prop "artistName" tr)
        || truthyNonString (prop "syncedLyrics" tr)
        || truthyNonString (prop "plainLyrics" tr) = true)
/\ getLyrics (U := asciiRuntime) (lit "x") loneSurrogateState
   = (Thrown, loneSurrogateState)
/\ fst (getLyrics (U := asciiRuntime) (lit "x") numericNameState) = Thrown
/\ trace (snd (getLyrics (U := asciiRuntime) (lit "x") numericNameState))
   = [CatalogGet (lit "1979") (lit "Nobody")]
/\ fst (getLyrics (U := asciiRuntime) (lit "x") nullItemState) = Thrown
/\ trace (snd (getLyrics (U := asciiRuntime) (lit "x") nullItemState))
   = [CatalogGet (lit "1979") (lit "Nobody"); CatalogSearch (lit "Nobody 1979")].
Proof.
split; [apply scoreCatalogCandidate_none |].
repeat split; vm_compute; reflexivity.
Qed.

(** X24 at the instrumental piece. *)
Lemma getLyrics_throws_on_empty_top_set_witness :
let raw := [noteCandidate;
            mkCandidate (lit "catalog_synced_1")
              (lit "1979" ++ [32; 8212; 32]%N ++ lit "1979") catalog timed
              [mkLine 1 musicNote] None (Some native) 0%Q] in
let st1 := snd (collectRawCandidates (U := asciiRuntime) (lit "x") unknown
                  instrumentalState) in
reusableCache (lit "x") (dirs (world instrumentalState) (lit "x"))
  (expectedScriptOf (dirs (world instrumentalState) (lit "x"))) = None
/\ dirReady (world instrumentalState) (lit "x") = true
/\ collectRawCandidates (U := asciiRuntime) (lit "x")
     (expectedScriptOf (dirs (world instrumentalState) (lit "x"))) instrumentalState
   = (Returned raw, st1)
/\ 2 <= List.length raw
/\ Forall (fun c => fingerprintOf (U := asciiRuntime) c = []) raw
/\ getLyrics (U := asciiRuntime) (lit "x") instrumentalState = (Thrown, st1).
Proof.
cbv zeta.
assert (H1 : reusableCache (lit "x") (dirs (world instrumentalState) (lit "x"))
  (expectedScriptOf (dirs (world instrumentalState) (lit "x"))) = None)
  by (vm_compute; reflexivity).
assert (H2 : dirReady (world instrumentalState) (lit "x") = true)
  by (vm_compute; reflexivity).
match goal with |- _ /\ _ /\ ?E /\ _ => assert (H3 : E) by (vm_compute; reflexivity) end.
match goal with |- _ /\ _ /\ _ /\ ?L /\ _ => assert (H4 : L) by (simpl; lia) end.
match goal with |- _ /\ _ /\ _ /\ _ /\ ?F /\ _ =>
  assert (H5 : F) by (repeat constructor; vm_compute; reflexivity) end.
split; [exact H1 |]. split; [exact H2 |]. split; [exact H3 |].
split; [exact H4 |]. split; [exact H5 |].
exact (proj2 (getLyrics_throws_on_empty_top_set (U := asciiRuntime) (lit "x")
                instrumentalState _ _ H1 H2 H3) H4 H5).
Defined.

(** X19 at the instrumental piece, asked for as " x ": the handler
    answers "none" and the cache document stays absent. *)
Lemma lyricsRoute_fallback_not_cached_witness :
trim (lit " x ") <> []
/\ fst (getLyrics (U := asciiRuntime) (trim (lit " x ")) instrumentalState) = Thrown
/\ fst (lyricsRoute (U := asciiRuntime) (lit " x ") instrumentalState)
   = Returned (Json (noneResult (trim (lit " x "))))
/\ lyricsFile (dirs (world (snd (lyricsRoute (U := asciiRuntime) (lit " x ")
                                   instrumentalState))) (trim (lit " x ")))
   = lyricsFile (dirs (world instrumentalState) (trim (lit " x "))).
Proof.
assert (H1 : trim (lit " x ") <> []) by (vm_compute; discriminate).
assert (H2 : fst (getLyrics (U := asciiRuntime) (trim (lit " x ")) instrumentalState) = Thrown)
  by (vm_compute; reflexivity).
split; [exact H1 |]. split; [exact H2 |].
exact (lyricsRoute_fallback_not_cached (U := asciiRuntime) (lit " x ") instrumentalState H1 H2).
Defined.

(** X21 at the song: one candidate, the captions, which is the selected
    one. *)
Lemma getLyrics_selects_best_witness :
reusableCache songId (dirs (world songState) songId)
  (expectedScriptOf (dirs (world songState) songId)) = None
/\ getLyrics (U := asciiRuntime) songId songState = (Returned songResult, songStateAfter)
/\ exists selected rest,
   candidates songResult = Some (selected :: rest)
   /\ selectedCandidateId songResult = Some (id selected)
   /\ r_lines songResult = lines selected.
Proof.
assert (H1 : reusableCache songId (dirs (world songState) songId)
  (expectedScriptOf (dirs (world songState) songId)) = None) by (vm_compute; reflexivity).
assert (H2 : getLyrics (U := asciiRuntime) songId songState
             = (Returned songResult, songStateAfter)) by (vm_compute; reflexivity).
split; [exact H1 |]. split; [exact H2 |].
destruct (getLyrics_selects_best (U := asciiRuntime) songId songState songStateAfter
            songResult H1 H2) as [selected [rest [Hc [_ [_ [Hi [_ [_ [Hl _]]]]]]]]].
exists selected, rest. split; [exact Hc |]. split; [exact Hi | exact Hl].
Defined.

(** X22 at the song: the second call answers from the cache document. *)
Lemma getLyrics_second_call_witness :
getLyrics (U := asciiRuntime) songId songState = (Returned songResult, songStateAfter)
/\ hasCompatibleLyricsPayload songResult (expectedScriptOf (dirs (world songState) songId))
   = true
/\ getLyrics (U := asciiRuntime) songId songStateAfter = (Returned songResult, songStateAfter).
Proof.
assert (H1 : getLyrics (U := asciiRuntime) songId songState
             = (Returned songResult, songStateAfter)) by (vm_compute; reflexivity).
assert (H2 : hasCompatibleLyricsPayload songResult
               (expectedScriptOf (dirs (world songState) songId)) = true)
  by (vm_compute; reflexivity).
split; [exact H1 |]. split; [exact H2 |].
exact (getLyrics_second_call (U := asciiRuntime) songId songState songStateAfter
         songResult H1 H2).
Defined.

(** X23 at a directory without files. *)
Lemma expectedScript_without_metadata_witness :
readMeta (metaFile emptyDir) = ([], [])
/\ expectedScriptOf emptyDir = unknown
/\ hasCompatibleLyricsPayload songResult (expectedScriptOf emptyDir) = true.
Proof.
assert (H : readMeta (metaFile emptyDir) = ([], [])) by reflexivity.
split; [exact H |].
destruct (expectedScript_without_metadata emptyDir H) as [E [_ Hp]].
split; [exact E | apply Hp].
Defined.

(** X25 at a directory with an English track, a Korean track marked
    "orig" and a file that is no caption file, for a Korean song: the
    English track is picked. *)
Lemma pickBestSubtitleFile_best_witness :
pickBestSubtitleFile (U := asciiRuntime) (fun _ _ => 0%Z) captionDirectory korean
= Some (lit "captions.en.vtt")
/\ In (lit "captions.en.vtt") captionDirectory
/\ isCaptionFile (lit "captions.en.vtt") = true.
Proof.
assert (H : pickBestSubtitleFile (U := asciiRuntime) (fun _ _ => 0%Z) captionDirectory korean
            = Some (lit "captions.en.vtt")) by (vm_compute; reflexivity).
split; [exact H |].
destruct (proj2 (pickBestSubtitleFile_best (U := asciiRuntime) (fun _ _ => 0%Z)
                   captionDirectory korean) (lit "captions.en.vtt") H) as [H1 [H2 _]].
split; [exact H1 | exact H2].
Defined.

(** X26 at "captions.vtt": the language code is taken from "vtt". *)
Lemma languageCapture_of_caption_file_witness :
isCaptionFile (lit "captions.vtt") = true
/\ languageCapture (lit "captions.vtt") = Some (nth 1 (splitChar 46 (lit "captions.vtt")) [])
/\ nth 1 (splitChar 46 (lit "captions.vtt")) [] = lit "vtt".
Proof.
assert (H : isCaptionFile (lit "captions.vtt") = true) by reflexivity.
split; [exact H |].
split; [exact (proj1 (languageCapture_of_caption_file (lit "captions.vtt") H)) | reflexivity].
Defined.

(** X27 at the captions of the song, two seconds in: the first line. *)
Lemma findIdx_last_started_witness :
sortedByTime (parseVtt songVtt)
/\ findIdx (parseVtt songVtt) 2 = 0%Z.
Proof.
assert (H : sortedByTime (parseVtt songVtt)).
{ let l := eval vm_compute in (parseVtt songVtt) in change (parseVtt songVtt) with l.
  unfold sortedByTime. repeat constructor; cbn [t]; unfold Qle; simpl; lia. }
split; [exact H |].
rewrite (findIdx_last_started (parseVtt songVtt) 2 H). vm_compute. reflexivity.
Defined.

(** X28 at a video prepared without a title on a Korean channel. *)
Lemma prepared_metadata_witness :
orEmpty (@None jsstring) = []
/\ expectedScriptOf
     (dirs (world (snd (writeMeta songId (safeName None) (safeName (Some [44032; 45208]%N))
                          (lit "2024-01-01T00:00:00.000Z") quietState))) songId)
   = latin.
Proof.
assert (H : orEmpty (@None jsstring) = []) by reflexivity.
split; [exact H |].
exact (proj1 (proj2 (prepared_metadata songId (lit "2024-01-01T00:00:00.000Z") None
                       (Some [44032; 45208]%N) quietState)) H).
Defined.

(** X29 at [limit=abc] and three items: none is returned. *)
Lemma recentItems_count_witness :
orEmpty (Some (lit "abc")) <> []
/\ strToNumber (orEmpty (Some (lit "abc"))) = None
/\ recentItems (Some (lit "abc")) [1; 2; 3] = [].
Proof.
assert (H1 : orEmpty (Some (lit "abc")) <> []) by (vm_compute; discriminate).
assert (H2 : strToNumber (orEmpty (Some (lit "abc"))) = None) by (vm_compute; reflexivity).
split; [exact H1 |]. split; [exact H2 |].
destruct (proj1 (recentItems_count (Some (lit "abc")) [1; 2; 3]))
  as [n [E [_ [_ [H0 _]]]]].
rewrite E, (H0 H1 H2). reflexivity.
Defined.

(** X30 at five Latin letters: three other letters are tolerated. *)
Lemma floor06_three_fifths_witness : 5 < 4096 /\ floor06 5 = 3 * 5 / 5.
Proof.
assert (H : 5 < 4096) by lia.
split; [exact H | exact (floor06_three_fifths 5 H)].
Defined.
